(** * osm-request: the element helpers of [OsmRequest] (src/index.js)

    The helpers [createNodeElement], [setProperty], [setProperties],
    [removeProperty], [setCoordinates], [setTimestampToNow] and [setVersion]
    work on JavaScript objects that are shared by reference.  They are
    embedded here over an explicit heap: a JavaScript value is a primitive
    or a reference to a heap cell, a cell is a plain object (its own
    properties, in enumeration order) or an array, and every helper is a
    state-and-error computation over the heap.  The constructor's handling of
    the [endpoint] option is embedded over a finite map of options, and the
    request methods over the request functions they call, which are
    parameters.

    The file has three parts: the program, the notions the statements are
    made of (the tree a value denotes, what each helper does to that tree,
    sharing), and the proofs: each helper's run on the heap is the
    function on trees, and the properties of the helpers follow. *)

From Stdlib Require Import ZArith String Ascii List Lia.
From Stdlib Require Import PrimFloat FloatOps SpecFloat DecimalString.
From stdpp Require Import base option list strings gmap.

Local Open Scope string_scope.
Local Open Scope nat_scope.
Local Open Scope list_scope.
Local Open Scope stdpp_scope.
Set Warnings "-inexact-float,-register-all".

(** ** Values, cells and the heap *)

(** The primitive values of the fragment.  Numbers are IEEE-754 doubles. *)
Inductive prim : Type :=
| PUndefined
| PNull
| PBool (b : bool)
| PNum (x : float)
| PStr (s : string).

Abbreviation loc := nat (only parsing).

Inductive value : Type :=
| VPrim (p : prim)
| VRef (l : loc).

(** A plain object holds its own enumerable properties in the order
    [Object.keys] lists them; an array holds its elements. *)
Inductive cell : Type :=
| CObject (props : list (string * value))
| CArray (items : list value).

(** The heap: cell [l] is the object that [VRef l] refers to.  Allocation
    appends a cell. *)
Abbreviation heap := (list cell) (only parsing).

Abbreviation undefined := (VPrim PUndefined).
Abbreviation VStr s := (VPrim (PStr s)).

(** ** Outcomes and the heap monad *)

(** A call returns, throws (every exception of these helpers is a
    [TypeError]), or leaves the modelled fragment of JavaScript. *)
Inductive outcome (A : Type) : Type :=
| Ret (a : A)
| Throw
| Unsupported.
Arguments Ret {A} a.
Arguments Throw {A}.
Arguments Unsupported {A}.

Definition obind {A B} (o : outcome A) (k : A → outcome B) : outcome B :=
  match o with
  | Ret a => k a
  | Throw => Throw
  | Unsupported => Unsupported
  end.

Definition M (A : Type) : Type := heap → outcome (A * heap).

Definition ret {A} (a : A) : M A := λ h, Ret (a, h).

Definition bind {A B} (c : M A) (k : A → M B) : M B :=
  λ h, match c h with
       | Ret (a, h') => k a h'
       | Throw => Throw
       | Unsupported => Unsupported
       end.

Definition lift {A} (o : outcome A) : M A :=
  λ h, obind o (λ a, Ret (a, h)).

Notation "'let!' x ':=' c 'in' k" := (bind c (λ x, k))
  (at level 10, x name, c at level 100, k at level 200).
Notation "'let?' x ':=' c 'in' k" := (obind c (λ x, k))
  (at level 10, x name, c at level 100, k at level 200).

Fixpoint mapM_M {A B} (f : A → M B) (l : list A) : M (list B) :=
  match l with
  | [] => ret []
  | x :: l' => let! y := f x in let! ys := mapM_M f l' in ret (y :: ys)
  end.

Fixpoint filterM_M {A} (f : A → M bool) (l : list A) : M (list A) :=
  match l with
  | [] => ret []
  | x :: l' =>
      let! b := f x in
      let! ys := filterM_M f l' in
      ret (if b then x :: ys else ys)
  end.

(** ** Own properties *)

Fixpoint assoc {A} (k : string) (l : list (string * A)) : option A :=
  match l with
  | [] => None
  | (k', x) :: l' => if decide (k' = k) then Some x else assoc k l'
  end.

(** [o[k] = x] on own properties: an existing property keeps its place, a
    new one comes last. *)
Fixpoint set_field {A} (k : string) (x : A) (l : list (string * A))
  : list (string * A) :=
  match l with
  | [] => [(k, x)]
  | (k', y) :: l' =>
      if decide (k' = k) then (k', x) :: l' else (k', y) :: set_field k x l'
  end.

Definition digit_of (a : ascii) : option nat :=
  let n := nat_of_ascii a in
  if ((48 <=? n) && (n <=? 57))%nat then Some (n - 48)%nat else None.

Fixpoint digits_value (s : string) (acc : nat) : option nat :=
  match s with
  | EmptyString => Some acc
  | String a s' =>
      match digit_of a with
      | Some d => digits_value s' (10 * acc + d)%nat
      | None => None
      end
  end.

(** A property key that is a canonical array index: decimal digits without
    a leading zero. *)
Definition array_index (k : string) : option nat :=
  match k with
  | EmptyString => None
  | String "0" EmptyString => Some 0%nat
  | String "0" _ => None
  | _ => digits_value k 0%nat
  end.

(** Reading property [k] of a cell sees own properties only: what an object
    inherits from its prototype, and an array's [length], are outside the
    fragment and read as [undefined].  The helpers name no such property;
    only the computed key of [osm[elementType]] can hit one, and there the
    call throws either way: what is read has no [0], so the read of [tag]
    or [$] that follows is made on [undefined]. *)
Definition cell_get (c : cell) (k : string) : value :=
  match c with
  | CObject props => default undefined (assoc k props)
  | CArray items =>
      default undefined (match array_index k with
                         | Some i => items !! i
                         | None => None
                         end)
  end.

(** [v.k] and [v[k]].  A primitive other than [undefined] and [null] has no
    own property the helpers name (the characters and the length of a string
    are in the case of the inherited properties above). *)
Definition getProp (v : value) (k : string) : M value :=
  λ h, match v with
       | VPrim PUndefined | VPrim PNull => Throw
       | VPrim _ => Ret (undefined, h)
       | VRef l =>
           match h !! l with
           | Some c => Ret (cell_get c k, h)
           | None => Unsupported
           end
       end.

(** [v.k = x] in strict mode (module code): a [TypeError] unless [v] is an
    object.  Named properties on arrays are outside the fragment. *)
Definition setProp (v : value) (k : string) (x : value) : M unit :=
  λ h, match v with
       | VPrim _ => Throw
       | VRef l =>
           match h !! l with
           | Some (CObject props) =>
               Ret (tt, <[l := CObject (set_field k x props)]> h)
           | _ => Unsupported
           end
       end.

(** An object or array literal: a new cell. *)
Definition alloc (c : cell) : M value :=
  λ h, Ret (VRef (length h), h ++ [c]).

(** ** Conversions and comparisons *)

Definition truthy (v : value) : bool :=
  match v with
  | VPrim PUndefined | VPrim PNull => false
  | VPrim (PBool b) => b
  | VPrim (PNum x) => negb (is_zero x || is_nan x)
  | VPrim (PStr s) => negb (bool_decide (s = EmptyString))
  | VRef _ => true
  end.

(** [p === q] on primitives. *)
Definition prim_strict_eq (p q : prim) : bool :=
  match p, q with
  | PUndefined, PUndefined => true
  | PNull, PNull => true
  | PBool a, PBool b => bool_decide (a = b)
  | PNum x, PNum y => PrimFloat.eqb x y
  | PStr s, PStr s' => bool_decide (s = s')
  | _, _ => false
  end.

(** [v === w]: objects are compared by identity. *)
Definition strict_eq (v w : value) : bool :=
  match v, w with
  | VPrim p, VPrim q => prim_strict_eq p q
  | VRef l, VRef l' => bool_decide (l = l')
  | _, _ => false
  end.

(** [names.includes(v)] for an array of strings. *)
Definition includes (names : list string) (v : value) : bool :=
  match v with
  | VStr s => bool_decide (s ∈ names)
  | _ => false
  end.

Section Engine.

(** The digits of a number that is not [NaN] ([Number::toString], the
    shortest decimal that reads back as the same double) are the engine's. *)
Variable dtoa : float → string.

Definition Number_toString (x : float) : string :=
  if is_nan x then "NaN" else dtoa x.

(** The abstract operation [ToString] on primitives. *)
Definition ToString (p : prim) : string :=
  match p with
  | PUndefined => "undefined"
  | PNull => "null"
  | PBool true => "true"
  | PBool false => "false"
  | PNum x => Number_toString x
  | PStr s => s
  end.

(** The method call [v.toString()].  Converting an object or an array is
    outside the fragment. *)
Definition toString (v : value) : outcome string :=
  match v with
  | VPrim PUndefined | VPrim PNull => Throw
  | VPrim p => Ret (ToString p)
  | VRef _ => Unsupported
  end.

(** The key of a computed member access [o[v]]. *)
Definition ToPropertyKey (v : value) : outcome string :=
  match v with
  | VPrim p => Ret (ToString p)
  | VRef _ => Unsupported
  end.

(** *** parseInt *)

(** A string is kept as the bytes of its UTF-8 encoding, which is what a
    string literal of this file denotes.  [utf8 c] is the encoding of the
    code point [c], for the code points below 65536. *)
Definition utf8 (c : Z) : string :=
  let byte z := String (ascii_of_N (Z.to_N z)) EmptyString in
  if (c <? 128)%Z then byte c
  else if (c <? 2048)%Z then byte (192 + c / 64)%Z +:+ byte (128 + c mod 64)%Z
  else byte (224 + c / 4096)%Z +:+ byte (128 + (c / 64) mod 64)%Z
       +:+ byte (128 + c mod 64)%Z.

(** The code points of [StrWhiteSpaceChar], which [parseInt] skips at the
    start of its argument: [WhiteSpace] (TAB, VT, FF, SP, NBSP, the other
    space separators of Unicode and ZWNBSP) and [LineTerminator] (LF, CR,
    LS, PS). *)
Definition StrWhiteSpaceChar : list Z :=
  [9; 10; 11; 12; 13; 32; 160; 5760; 8192; 8193; 8194; 8195; 8196; 8197;
   8198; 8199; 8200; 8201; 8202; 8232; 8233; 8239; 8287; 12288; 65279]%Z.

(** Whether [s] starts with [p]. *)
Fixpoint starts_with (p s : string) : bool :=
  match p, s with
  | EmptyString, _ => true
  | String a p', String b s' => Ascii.eqb a b && starts_with p' s'
  | String _ _, EmptyString => false
  end.

(** The number of bytes of the white space character [s] starts with, and
    0 when it starts with none. *)
Definition white_space_bytes (s : string) : nat :=
  match List.find (λ c, starts_with (utf8 c) s) StrWhiteSpaceChar with
  | Some c => String.length (utf8 c)
  | None => 0
  end.

(** [s] without its leading white space; [pending] counts the bytes still
    to drop of the character being skipped. *)
Fixpoint skip_spaces_aux (pending : nat) (s : string) : string :=
  match s with
  | EmptyString => s
  | String _ s' =>
      match pending with
      | S p => skip_spaces_aux p s'
      | O =>
          match white_space_bytes s with
          | S p => skip_spaces_aux p s'
          | O => s
          end
      end
  end.

Definition skip_spaces (s : string) : string := skip_spaces_aux 0 s.

Definition hex_digit_of (a : ascii) : option Z :=
  let n := nat_of_ascii a in
  if ((48 <=? n) && (n <=? 57))%nat then Some (Z.of_nat (n - 48))
  else if ((97 <=? n) && (n <=? 102))%nat then Some (Z.of_nat (n - 87))
  else if ((65 <=? n) && (n <=? 70))%nat then Some (Z.of_nat (n - 55))
  else None.

Definition radix_digit (radix : Z) (a : ascii) : option Z :=
  if (radix =? 16)%Z then hex_digit_of a else Z.of_nat <$> digit_of a.

(** The value of the longest prefix of [s] made of digits, if it has one. *)
Fixpoint leading_int (radix : Z) (s : string) (acc : option Z) : option Z :=
  match s with
  | EmptyString => acc
  | String a s' =>
      match radix_digit radix a with
      | Some d => leading_int radix s' (Some (radix * default 0%Z acc + d)%Z)
      | None => acc
      end
  end.

(** The Number that is the integer [z]. *)
Definition Number_of_Z (z : Z) : float :=
  SF2Prim (binary_normalize prec emax z 0 false).

(** The sign a string starts with, and what follows it. *)
Definition sign_of (s : string) : bool * string :=
  match s with
  | String "-" s' => (true, s')
  | String "+" s' => (false, s')
  | _ => (false, s)
  end.

(** The radix when none is given: 16 after a prefix [0x] or [0X], which is
    dropped, and 10 otherwise. *)
Definition radix_of (s : string) : Z * string :=
  match s with
  | String "0" (String "x" s') | String "0" (String "X" s') => (16%Z, s')
  | _ => (10%Z, s)
  end.

(** [parseInt(s)] with no radix argument, on the string [s]. *)
Definition parseInt_string (s : string) : float :=
  let '(negative, s) := sign_of (skip_spaces s) in
  let '(radix, s) := radix_of s in
  match leading_int radix s None with
  | None => nan
  | Some 0%Z => if negative then neg_zero else zero
  | Some z => Number_of_Z (if negative then - z else z)
  end.

Definition parseInt (v : value) : outcome float :=
  let? s := ToPropertyKey v in Ret (parseInt_string s).

End Engine.

(** ** Deep copies *)

(** The finite tree a value denotes when the cells it reaches form no
    cycle. *)
Inductive tree : Type :=
| TPrim (p : prim)
| TObject (fields : list (string * tree))
| TArray (items : list tree).

Abbreviation TStr s := (TPrim (PStr s)).

(** Reading the tree of [v] off the heap, at most [n] cells deep. *)
Fixpoint reify (n : nat) (h : heap) (v : value) : option tree :=
  match v with
  | VPrim p => Some (TPrim p)
  | VRef l =>
      match n with
      | O => None
      | S n' =>
          match h !! l with
          | Some (CObject props) =>
              TObject <$> mapM (λ kv, pair kv.1 <$> reify n' h kv.2) props
          | Some (CArray items) => TArray <$> mapM (reify n' h) items
          | None => None
          end
      end
  end.

(** Building a tree out of new cells only: the children first, then the
    cell of the node itself. *)
Fixpoint alloc_tree (t : tree) (h : heap) : value * heap :=
  match t with
  | TPrim p => (VPrim p, h)
  | TObject fields =>
      let '(props, h') :=
        (fix fields_go (fs : list (string * tree)) (h : heap) :=
           match fs with
           | [] => ([], h)
           | (k, t) :: fs' =>
               let '(v, h1) := alloc_tree t h in
               let '(ps, h2) := fields_go fs' h1 in
               ((k, v) :: ps, h2)
           end) fields h in
      (VRef (length h'), h' ++ [CObject props])
  | TArray items =>
      let '(vs, h') :=
        (fix items_go (ts : list tree) (h : heap) :=
           match ts with
           | [] => ([], h)
           | t :: ts' =>
               let '(v, h1) := alloc_tree t h in
               let '(vs, h2) := items_go ts' h1 in
               (v :: vs, h2)
           end) items h in
      (VRef (length h'), h' ++ [CArray vs])
  end.

(** Modelled from the spec: [simpleObjectDeepClone] of helpers/utils is not
    among the sources.  The spec has every mutator return a deep copy that
    shares nothing with its argument: the copy is the tree of the argument,
    built out of new cells.  A heap of [length h] cells holds no acyclic
    structure deeper than [length h], so the read runs out of depth only on
    a cycle, which has no finite copy. *)
Definition simpleObjectDeepClone (object : value) : M value :=
  λ h, match reify (length h) h object with
       | Some t => Ret (alloc_tree t h)
       | None => Unsupported
       end.

(** ** Arrays and objects the helpers use *)

(** [array.filter(f)]: the kept elements.  Anything but an array has no
    callable [filter]. *)
Definition filter_array (array : value) (f : value → M bool) : M (list value) :=
  λ h, match array with
       | VPrim _ => Throw
       | VRef l =>
           match h !! l with
           | Some (CArray items) => filterM_M f items h
           | Some (CObject _) => Throw
           | None => Unsupported
           end
       end.

(** [Object.keys(o)].  The keys of a string or of an array are outside the
    fragment. *)
Definition Object_keys (o : value) : M (list string) :=
  λ h, match o with
       | VPrim PUndefined | VPrim PNull => Throw
       | VPrim (PStr _) => Unsupported
       | VPrim _ => Ret ([], h)
       | VRef l =>
           match h !! l with
           | Some (CObject props) => Ret (props.*1, h)
           | _ => Unsupported
           end
       end.

Section Helpers.

Variable dtoa : float → string.

(** The expression [newElement.osm[elementType][0]]. *)
Definition innerOf (newElement elementType : value) : M value :=
  let! osm := getProp newElement "osm" in
  let! key := lift (ToPropertyKey dtoa elementType) in
  let! elements := getProp osm key in
  getProp elements "0".

(** The object literal [{ $: { k: k, v: v } }]. *)
Definition newTag (k v : string) : M value :=
  let! attrs := alloc (CObject [("k", VStr k); ("v", VStr v)]) in
  alloc (CObject [("$", attrs)]).

(** [tag.$.k] *)
Definition tagKey (tag : value) : M value :=
  let! attrs := getProp tag "$" in
  getProp attrs "k".

(** The function [propertyName => ({ $: { k: propertyName.toString(),
    v: properties[propertyName].toString() } })] that [createNodeElement]
    and [setProperties] map over the names. *)
Definition formatTag (properties : value) (propertyName : string) : M value :=
  let! k := lift (toString dtoa (VStr propertyName)) in
  let! x := getProp properties propertyName in
  let! v := lift (toString dtoa x) in
  newTag k v.

Definition createNodeElement (lat lon properties : value) : M value :=
  let! properties :=
    match properties with
    | VPrim PUndefined => alloc (CObject [])
    | _ => ret properties
    end in
  let! attrs0 := alloc (CObject []) in
  let! attrs := alloc (CObject [("lat", lat); ("lon", lon)]) in
  let! tag0 := alloc (CArray []) in
  let! node := alloc (CObject [("$", attrs); ("tag", tag0)]) in
  let! nodes := alloc (CArray [node]) in
  let! osm := alloc (CObject [("$", attrs0); ("node", nodes)]) in
  let! element := alloc (CObject [("osm", osm); ("_type", VStr "node")]) in
  let! osm' := getProp element "osm" in
  let! nodes' := getProp osm' "node" in
  let! node' := getProp nodes' "0" in
  let! names := Object_keys properties in
  let! tags := mapM_M (formatTag properties) names in
  let! tag := alloc (CArray tags) in
  let! _ := setProp node' "tag" tag in
  ret element.

Definition setProperty (element propertyName propertyValue : value) : M value :=
  let! elementType := getProp element "_type" in
  let! newElement := simpleObjectDeepClone element in
  let! innerElement := innerOf newElement elementType in
  let! tag := getProp innerElement "tag" in
  let! filteredTags :=
    if truthy tag
    then filter_array tag
           (λ tag,
              let! k := tagKey tag in
              let! name := lift (toString dtoa propertyName) in
              ret (negb (strict_eq k (VStr name))))
    else ret [] in
  let! k := lift (toString dtoa propertyName) in
  let! v := lift (toString dtoa propertyValue) in
  let! new := newTag k v in
  let! tags := alloc (CArray (filteredTags ++ [new])) in
  let! _ := setProp innerElement "tag" tags in
  ret newElement.

Definition setProperties (element properties : value) : M value :=
  let! newElement := simpleObjectDeepClone element in
  let! clonedProperties := simpleObjectDeepClone properties in
  let! propertiesName := Object_keys clonedProperties in
  let! elementType := getProp element "_type" in
  let! innerElement := innerOf newElement elementType in
  let! tag := getProp innerElement "tag" in
  let! filteredTags :=
    if truthy tag
    then filter_array tag
           (λ tag,
              let! k := tagKey tag in
              ret (negb (includes propertiesName k)))
    else ret [] in
  let! formattedProperties :=
    mapM_M (formatTag clonedProperties) propertiesName in
  let! tags := alloc (CArray (filteredTags ++ formattedProperties)) in
  let! _ := setProp innerElement "tag" tags in
  ret newElement.

Definition removeProperty (element propertyName : value) : M value :=
  let! elementType := getProp element "_type" in
  let! newElement := simpleObjectDeepClone element in
  let! innerElement := innerOf newElement elementType in
  let! tag := getProp innerElement "tag" in
  let! filteredTags :=
    filter_array tag
      (λ tag,
         let! k := tagKey tag in
         ret (negb (strict_eq k propertyName))) in
  let! tags := alloc (CArray filteredTags) in
  let! _ := setProp innerElement "tag" tags in
  ret newElement.

Definition setCoordinates (element lat lon : value) : M value :=
  let! elementType := getProp element "_type" in
  let! newElement := simpleObjectDeepClone element in
  let! inner1 := innerOf newElement elementType in
  let! attrs1 := getProp inner1 "$" in
  let! lat' := lift (toString dtoa lat) in
  let! _ := setProp attrs1 "lat" (VStr lat') in
  let! inner2 := innerOf newElement elementType in
  let! attrs2 := getProp inner2 "$" in
  let! lon' := lift (toString dtoa lon) in
  let! _ := setProp attrs2 "lon" (VStr lon') in
  ret newElement.

(** [getCurrentIsoTimestamp] of helpers/time is not among the sources: the
    string it returns at the call is the argument [now]. *)
Definition setTimestampToNow (now : string) (element : value) : M value :=
  let! elementType := getProp element "_type" in
  let! newElement := simpleObjectDeepClone element in
  let! inner := innerOf newElement elementType in
  let! attrs := getProp inner "$" in
  let! _ := setProp attrs "timestamp" (VStr now) in
  ret newElement.

Definition setVersion (element version : value) : M value :=
  let! elementType := getProp element "_type" in
  let! newElement := simpleObjectDeepClone element in
  let! innerElement := innerOf newElement elementType in
  let! attrs := getProp innerElement "$" in
  let! n := lift (parseInt dtoa version) in
  let! _ := setProp attrs "version" (VStr (Number_toString dtoa n)) in
  ret newElement.

End Helpers.

(** ** The constructor and the endpoint *)

(** Modelled from the spec: [removeTrailingSlashes] of [helpers/utils]
    strips every trailing slash of a URL and keeps the rest. *)
Fixpoint removeTrailingSlashes (url : string) : string :=
  match url with
  | EmptyString => EmptyString
  | String c rest =>
      match removeTrailingSlashes rest with
      | EmptyString => if Ascii.eqb c "/" then EmptyString else String c EmptyString
      | kept => String c kept
      end
  end.

(** The instance: its merged options and the configuration handed to
    [osmAuth]. *)
Record OsmRequest : Type := {
  _options : gmap string value;
  _auth : gmap string value;
}.

Section Facade.

(** The contents of [defaultOptions.json], and the request function of
    [./requests] that [fetchNote] calls. *)
Variable defaultOptions : gmap string value.
Variable Response : Type.
Variable fetchNoteByIdRequest : value → value → value → Response.

Definition option_of (options : gmap string value) (k : string) : value :=
  default undefined (options !! k).

(** [new OsmRequest(options)]: the options are merged over the defaults and
    the endpoint is normalised.  An endpoint that is not a string is outside
    what the spec says of [removeTrailingSlashes]. *)
Definition constructor (options : gmap string value) : outcome OsmRequest :=
  let merged := options ∪ defaultOptions in
  match option_of merged "endpoint" with
  | VStr url =>
      let options' := <["endpoint" := VStr (removeTrailingSlashes url)]> merged in
      Ret {| _options := options';
             _auth :=
               {[ "url" := option_of options' "endpoint";
                  "oauth_consumer_key" := option_of options' "oauthConsumerKey";
                  "oauth_secret" := option_of options' "oauthSecret";
                  "oauth_token" := option_of options' "oauthUserToken";
                  "oauth_token_secret" := option_of options' "oauthUserTokenSecret" ]} |}
  | _ => Unsupported
  end.

(** [get endpoint()] *)
Definition endpoint (this : OsmRequest) : value :=
  option_of (_options this) "endpoint".

(** [fetchNote(noteId, format = 'xml')]; every request method hands
    [this.endpoint] to its request function in this way. *)
Definition fetchNote (this : OsmRequest) (noteId format : value) : Response :=
  let format := match format with VPrim PUndefined => VStr "xml" | _ => format end in
  fetchNoteByIdRequest (endpoint this) noteId format.

End Facade.

(** ** The request methods *)

(** The request functions of [./requests], which are not among the sources:
    each takes what its method hands it and yields the method's result. *)
Record Requests (Auth Response : Type) : Type := {
  fetchNotesRequest :
    value → value → value → value → value → value → value → Response;
  fetchNotesSearchRequest :
    value → value → value → value → value → value → value → value → value →
    Response;
  createNoteRequest : Auth → value → value → value → value → Response;
  genericPostNoteRequest : Auth → value → value → value → value → Response;
  createChangesetRequest : Auth → value → value → value → Response;
  changesetCheckRequest : Auth → value → value → Response;
  updateChangesetTagsRequest : Auth → value → value → value → Response;
  fetchElementRequest : value → value → Response;
  fetchElementRequestFull : value → value → Response;
  fetchRelationsForElementRequest : value → value → Response;
  fetchWaysForNodeRequest : value → value → Response;
  sendElementRequest : Auth → value → value → value → Response;
  fetchMapByBboxRequest : value → value → value → value → value → Response;
  deleteElementRequest : Auth → value → value → value → Response;
  getUserPreferencesRequest : Auth → value → Response;
  setUserPreferencesRequest : Auth → value → value → Response;
  getUserPreferenceByKeyRequest : Auth → value → value → Response;
  setUserPreferenceByKeyRequest : Auth → value → value → value → Response;
  deleteUserPreferenceRequest : Auth → value → value → Response;
}.

Arguments fetchNotesRequest {Auth Response}.
Arguments fetchNotesSearchRequest {Auth Response}.
Arguments createNoteRequest {Auth Response}.
Arguments genericPostNoteRequest {Auth Response}.
Arguments createChangesetRequest {Auth Response}.
Arguments changesetCheckRequest {Auth Response}.
Arguments updateChangesetTagsRequest {Auth Response}.
Arguments fetchElementRequest {Auth Response}.
Arguments fetchElementRequestFull {Auth Response}.
Arguments fetchRelationsForElementRequest {Auth Response}.
Arguments fetchWaysForNodeRequest {Auth Response}.
Arguments sendElementRequest {Auth Response}.
Arguments fetchMapByBboxRequest {Auth Response}.
Arguments deleteElementRequest {Auth Response}.
Arguments getUserPreferencesRequest {Auth Response}.
Arguments setUserPreferencesRequest {Auth Response}.
Arguments getUserPreferenceByKeyRequest {Auth Response}.
Arguments setUserPreferenceByKeyRequest {Auth Response}.
Arguments deleteUserPreferenceRequest {Auth Response}.

(** A parameter with a default value: the default stands in for
    [undefined], and for nothing else. *)
Definition or_default (default : value) (v : value) : value :=
  match v with
  | VPrim PUndefined => default
  | _ => v
  end.

Section RequestMethods.

(** [osmAuth] of the library [osm-auth], and the request functions.  The
    record field [_auth] keeps the configuration [osmAuth] was called with:
    [this._auth] is [osmAuth] of it. *)
Context {Auth Response : Type}.
Variable osmAuth : gmap string value → Auth.
Variable requests : Requests Auth Response.

Definition auth (this : OsmRequest) : Auth := osmAuth (_auth this).

Definition fetchNotes (this : OsmRequest)
    (left bottom right top limit closedDays : value) : Response :=
  let limit := or_default (VPrim PNull) limit in
  let closedDays := or_default (VPrim PNull) closedDays in
  fetchNotesRequest requests (endpoint this) left bottom right top limit closedDays.

Definition fetchNotesSearch (this : OsmRequest)
    (q format limit closed display_name user from to : value) : Response :=
  let format := or_default (VStr "xml") format in
  let limit := or_default (VPrim PNull) limit in
  let closed := or_default (VPrim PNull) closed in
  let display_name := or_default (VPrim PNull) display_name in
  let user := or_default (VPrim PNull) user in
  let from := or_default (VPrim PNull) from in
  let to := or_default (VPrim PNull) to in
  fetchNotesSearchRequest requests (endpoint this) q format limit closed
    display_name user from to.

Definition createNote (this : OsmRequest) (lat lon text : value) : Response :=
  createNoteRequest requests (auth this) (endpoint this) lat lon text.

Definition commentNote (this : OsmRequest) (noteId text : value) : Response :=
  genericPostNoteRequest requests (auth this) (endpoint this) noteId text
    (VStr "comment").

Definition closeNote (this : OsmRequest) (noteId text : value) : Response :=
  genericPostNoteRequest requests (auth this) (endpoint this) noteId text
    (VStr "close").

Definition reopenNote (this : OsmRequest) (noteId text : value) : Response :=
  genericPostNoteRequest requests (auth this) (endpoint this) noteId text
    (VStr "reopen").

Definition createChangeset (this : OsmRequest) (createdBy comment : value)
  : Response :=
  let createdBy := or_default (VStr EmptyString) createdBy in
  let comment := or_default (VStr EmptyString) comment in
  createChangesetRequest requests (auth this) (endpoint this) createdBy comment.

Definition isChangesetStillOpen (this : OsmRequest) (changesetId : value)
  : Response :=
  changesetCheckRequest requests (auth this) (endpoint this) changesetId.

Definition updateChangesetTags (this : OsmRequest) (changesetId object : value)
  : Response :=
  updateChangesetTagsRequest requests (auth this) (endpoint this) changesetId object.

(** [fetchElement(osmId, options)]: the test is [options && options.full]. *)
Definition fetchElement (this : OsmRequest) (osmId options : value) : M Response :=
  let! full :=
    if truthy options then getProp options "full" else ret options in
  if truthy full
  then ret (fetchElementRequestFull requests (endpoint this) osmId)
  else ret (fetchElementRequest requests (endpoint this) osmId).

Definition fetchRelationsForElement (this : OsmRequest) (osmId : value) : Response :=
  fetchRelationsForElementRequest requests (endpoint this) osmId.

Definition fetchWaysForNode (this : OsmRequest) (osmId : value) : Response :=
  fetchWaysForNodeRequest requests (endpoint this) osmId.

Definition sendElement (this : OsmRequest) (element changesetId : value) : Response :=
  sendElementRequest requests (auth this) (endpoint this) element changesetId.

(** The method [fetchMapByBbox] calls the imported function of that name. *)
Definition fetchMapByBbox (this : OsmRequest) (left bottom right top : value)
  : Response :=
  fetchMapByBboxRequest requests (endpoint this) left bottom right top.

Definition deleteElement (this : OsmRequest) (element changesetId : value)
  : Response :=
  deleteElementRequest requests (auth this) (endpoint this) element changesetId.

Definition getUserPreferences (this : OsmRequest) : Response :=
  getUserPreferencesRequest requests (auth this) (endpoint this).

Definition setUserPreferences (this : OsmRequest) (object : value) : Response :=
  setUserPreferencesRequest requests (auth this) (endpoint this) object.

Definition getUserPreferenceByKey (this : OsmRequest) (key : value) : Response :=
  getUserPreferenceByKeyRequest requests (auth this) (endpoint this) key.

Definition setUserPreferenceByKey (this : OsmRequest) (key value_ : value)
  : Response :=
  setUserPreferenceByKeyRequest requests (auth this) (endpoint this) key value_.

Definition deleteUserPreference (this : OsmRequest) (key : value) : Response :=
  deleteUserPreferenceRequest requests (auth this) (endpoint this) key.

End RequestMethods.

(** * The notions the statements are made of *)

(** ** Trees: the pure reading of the helpers *)

Definition children (t : tree) : list tree :=
  match t with
  | TPrim _ => []
  | TObject fs => fs.*2
  | TArray ts => ts
  end.

Fixpoint height (t : tree) : nat :=
  match t with
  | TPrim _ => 0
  | TObject fs => S (foldr (λ f m, height f.2 `max` m) 0 fs)
  | TArray ts => S (foldr (λ c m, height c `max` m) 0 ts)
  end.

Fixpoint tree_size (t : tree) : nat :=
  match t with
  | TPrim _ => 1
  | TObject fs => S (foldr (λ f m, tree_size f.2 + m) 0 fs)
  | TArray ts => S (foldr (λ c m, tree_size c + m) 0 ts)
  end.

(** The value of [v] as a tree, relationally: [repr h v t] holds when
    following references from [v] in [h] reads exactly [t]. *)
Inductive repr (h : heap) : value → tree → Prop :=
| repr_prim p : repr h (VPrim p) (TPrim p)
| repr_object l ps fs :
    h !! l = Some (CObject ps) →
    Forall2 (λ p f, p.1 = f.1 ∧ repr h p.2 f.2) ps fs →
    repr h (VRef l) (TObject fs)
| repr_array l vs ts :
    h !! l = Some (CArray vs) →
    Forall2 (repr h) vs ts →
    repr h (VRef l) (TArray ts).

(** The tree an element denotes in a heap. *)
Definition tree_of (h : heap) (v : value) : option tree :=
  reify (length h) h v.

(** ** The layout of a copy

    [alloc_tree] lays a tree out in consecutive cells: the cells of a node's
    children one after the other, then the node.  [laid h lo hi v t] says
    that [v] denotes [t] by the cells [lo .. hi - 1], each used once. *)

Inductive chain {A B} (R : nat → nat → A → B → Prop)
  : nat → nat → list A → list B → Prop :=
| chain_nil n : chain R n n [] []
| chain_cons lo mid hi x y xs ys :
    R lo mid x y → chain R mid hi xs ys → chain R lo hi (x :: xs) (y :: ys).

Inductive laid (h : heap) : nat → nat → value → tree → Prop :=
| laid_prim n p : laid h n n (VPrim p) (TPrim p)
| laid_object lo l ps fs :
    chain (λ a b p f, p.1 = f.1 ∧ laid h a b p.2 f.2) lo l ps fs →
    h !! l = Some (CObject ps) →
    laid h lo (S l) (VRef l) (TObject fs)
| laid_array lo l vs ts :
    chain (laid h) lo l vs ts →
    h !! l = Some (CArray vs) →
    laid h lo (S l) (VRef l) (TArray ts).

(** The two inner loops of [alloc_tree], by name. *)
Fixpoint alloc_fields (fs : list (string * tree)) (h : heap)
  : list (string * value) * heap :=
  match fs with
  | [] => ([], h)
  | (k, t) :: fs' =>
      let '(v, h1) := alloc_tree t h in
      let '(ps, h2) := alloc_fields fs' h1 in
      ((k, v) :: ps, h2)
  end.

Fixpoint alloc_items (ts : list tree) (h : heap) : list value * heap :=
  match ts with
  | [] => ([], h)
  | t :: ts' =>
      let '(v, h1) := alloc_tree t h in
      let '(vs, h2) := alloc_items ts' h1 in
      (v :: vs, h2)
  end.

(** ** Sharing

    [fresh n v]: the value [v] is no reference to one of the first [n]
    cells.  [closed n h]: the cells of [h] from [n] on refer to one another
    only.  [reach h v l]: the cell [l] can be reached from [v]. *)

Definition cell_vals (c : cell) : list value :=
  match c with
  | CObject ps => ps.*2
  | CArray vs => vs
  end.

Definition fresh (n : nat) (v : value) : Prop :=
  match v with
  | VRef l => n ≤ l
  | VPrim _ => True
  end.

Definition closed (n : nat) (h : heap) : Prop :=
  ∀ l c, n ≤ l → h !! l = Some c → Forall (fresh n) (cell_vals c).

Inductive reach (h : heap) : value → loc → Prop :=
| reach_here l : reach h (VRef l) l
| reach_step l c v l' :
    h !! l = Some c → v ∈ cell_vals c → reach h v l' → reach h (VRef l) l'.

(** ** Reading and writing along a path *)

Definition tree_child (t : tree) (k : string) : option tree :=
  match t with
  | TPrim _ => None
  | TObject fs => assoc k fs
  | TArray ts =>
      match array_index k with
      | Some i => ts !! i
      | None => None
      end
  end.

(** [t.k] on trees. *)
Definition tree_get (t : tree) (k : string) : outcome tree :=
  match t with
  | TPrim PUndefined | TPrim PNull => Throw
  | _ => Ret (default (TPrim PUndefined) (tree_child t k))
  end.

(** The tree [t] after [t.k = c]. *)
Definition tree_assign (t : tree) (k : string) (c : tree) : tree :=
  match t with
  | TPrim _ => t
  | TObject fs => TObject (set_field k c fs)
  | TArray ts =>
      match array_index k with
      | Some i => TArray (<[i := c]> ts)
      | None => t
      end
  end.

Fixpoint getPath (v : value) (ks : list string) : M value :=
  match ks with
  | [] => ret v
  | k :: ks' => let! c := getProp v k in getPath c ks'
  end.

Fixpoint tree_get_path (t : tree) (ks : list string) : outcome tree :=
  match ks with
  | [] => Ret t
  | k :: ks' => let? c := tree_get t k in tree_get_path c ks'
  end.

(** The tree [t] with [c'] in the place the path [ks] leads to. *)
Fixpoint tree_put_path (t : tree) (ks : list string) (c' : tree) : tree :=
  match ks with
  | [] => c'
  | k :: ks' =>
      match tree_child t k with
      | Some c => tree_assign t k (tree_put_path c ks' c')
      | None => t
      end
  end.

Definition is_node (t : tree) : Prop :=
  match t with
  | TPrim _ => False
  | _ => True
  end.

(** ** The helpers on trees

    What each helper does to the tree of its argument.  These functions are
    proved below to describe the heap computations above; the claims are
    then read off them. *)

Fixpoint filter_o {A} (f : A → outcome bool) (l : list A) : outcome (list A) :=
  match l with
  | [] => Ret []
  | x :: l' =>
      let? b := f x in
      let? ys := filter_o f l' in
      Ret (if b then x :: ys else ys)
  end.

Fixpoint mapM_o {A B} (f : A → outcome B) (l : list A) : outcome (list B) :=
  match l with
  | [] => Ret []
  | x :: l' => let? y := f x in let? ys := mapM_o f l' in Ret (y :: ys)
  end.

Definition tree_truthy (t : tree) : bool :=
  match t with
  | TPrim p => truthy (VPrim p)
  | _ => true
  end.

(** [t === w] for a tree read off a copy and a value [w] of the caller. *)
Definition tree_strict_eq (t : tree) (w : value) : bool :=
  match t, w with
  | TPrim p, VPrim q => prim_strict_eq p q
  | _, _ => false
  end.

Definition tree_includes (names : list string) (t : tree) : bool :=
  match t with
  | TStr s => bool_decide (s ∈ names)
  | _ => false
  end.

Definition tree_filter (t : tree) (f : tree → outcome bool) : outcome (list tree) :=
  match t with
  | TArray ts => filter_o f ts
  | _ => Throw
  end.

Definition tree_keys (t : tree) : outcome (list string) :=
  match t with
  | TPrim PUndefined | TPrim PNull => Throw
  | TPrim (PStr _) => Unsupported
  | TPrim _ => Ret []
  | TObject fs => Ret fs.*1
  | TArray _ => Unsupported
  end.

(** [t.k = c] as an outcome: only an object can be assigned to. *)
Definition tree_assign_o (t : tree) (k : string) (c : tree) : outcome tree :=
  match t with
  | TPrim _ => Throw
  | TObject fs => Ret (TObject (set_field k c fs))
  | TArray _ => Unsupported
  end.

Definition tree_tagKey (tag : tree) : outcome tree :=
  tree_get_path tag ["$"; "k"].

(** The tree of the object literal [{ $: { k: k, v: v } }]. *)
Definition tag_tree (k v : string) : tree :=
  TObject [("$", TObject [("k", TStr k); ("v", TStr v)])].

(** The path of [e.osm[key][0]] and of its attributes [e.osm[key][0].$]. *)
Definition inner_path (key : string) : list string := ["osm"; key; "0"].
Definition attrs_path (key : string) : list string := ["osm"; key; "0"; "$"].

Section TreeHelpers.

Variable dtoa : float → string.

Definition tree_key (t : tree) : outcome string :=
  match t with
  | TPrim p => Ret (ToString dtoa p)
  | _ => Unsupported
  end.

Definition tree_toString (t : tree) : outcome string :=
  match t with
  | TPrim p => toString dtoa (VPrim p)
  | _ => Unsupported
  end.

(** The key [String(e._type)] under which an element keeps its data. *)
Definition element_key (t : tree) : outcome string :=
  let? ty := tree_get t "_type" in tree_key ty.

Definition formatted_tags (tp : tree) (names : list string) : outcome (list tree) :=
  mapM_o (λ name,
            let? k := toString dtoa (VStr name) in
            let? x := tree_get tp name in
            let? v := tree_toString x in
            Ret (tag_tree k v)) names.

Definition setProperty_tree (t : tree) (propertyName propertyValue : value)
  : outcome tree :=
  let? key := element_key t in
  let? inner := tree_get_path t (inner_path key) in
  let? tag := tree_get inner "tag" in
  let? kept :=
    if tree_truthy tag
    then tree_filter tag
           (λ tg,
              let? k := tree_tagKey tg in
              let? name := toString dtoa propertyName in
              Ret (negb (tree_strict_eq k (VStr name))))
    else Ret [] in
  let? k := toString dtoa propertyName in
  let? v := toString dtoa propertyValue in
  let? inner' := tree_assign_o inner "tag" (TArray (kept ++ [tag_tree k v])) in
  Ret (tree_put_path t (inner_path key) inner').

Definition setProperties_tree (t tp : tree) : outcome tree :=
  let? names := tree_keys tp in
  let? key := element_key t in
  let? inner := tree_get_path t (inner_path key) in
  let? tag := tree_get inner "tag" in
  let? kept :=
    if tree_truthy tag
    then tree_filter tag
           (λ tg,
              let? k := tree_tagKey tg in
              Ret (negb (tree_includes names k)))
    else Ret [] in
  let? formatted := formatted_tags tp names in
  let? inner' := tree_assign_o inner "tag" (TArray (kept ++ formatted)) in
  Ret (tree_put_path t (inner_path key) inner').

Definition removeProperty_tree (t : tree) (propertyName : value) : outcome tree :=
  let? key := element_key t in
  let? inner := tree_get_path t (inner_path key) in
  let? tag := tree_get inner "tag" in
  let? kept :=
    tree_filter tag
      (λ tg,
         let? k := tree_tagKey tg in
         Ret (negb (tree_strict_eq k propertyName))) in
  let? inner' := tree_assign_o inner "tag" (TArray kept) in
  Ret (tree_put_path t (inner_path key) inner').

Definition setCoordinates_tree (t : tree) (lat lon : value) : outcome tree :=
  let? key := element_key t in
  let? attrs := tree_get_path t (attrs_path key) in
  let? lat' := toString dtoa lat in
  let? attrs1 := tree_assign_o attrs "lat" (TStr lat') in
  let? lon' := toString dtoa lon in
  let? attrs2 := tree_assign_o attrs1 "lon" (TStr lon') in
  Ret (tree_put_path t (attrs_path key) attrs2).

Definition setTimestampToNow_tree (now : string) (t : tree) : outcome tree :=
  let? key := element_key t in
  let? attrs := tree_get_path t (attrs_path key) in
  let? attrs' := tree_assign_o attrs "timestamp" (TStr now) in
  Ret (tree_put_path t (attrs_path key) attrs').

Definition setVersion_tree (t : tree) (version : value) : outcome tree :=
  let? key := element_key t in
  let? attrs := tree_get_path t (attrs_path key) in
  let? n := parseInt dtoa version in
  let? attrs' :=
    tree_assign_o attrs "version" (TStr (Number_toString dtoa n)) in
  Ret (tree_put_path t (attrs_path key) attrs').

End TreeHelpers.

(** ** What a helper's run must look like

    [result_ok h r t']: the run [r] from the heap [h] returned a new object
    that denotes [t'], in a heap that extends [h] by cells that refer to one
    another only. *)
Definition result_ok (h : heap) (r : outcome (value * heap)) (t' : tree) : Prop :=
  ∃ l' h',
    r = Ret (VRef l', h') ∧ h `prefix_of` h' ∧ length h ≤ l' ∧
    closed (length h) h' ∧ repr h' (VRef l') t'.

Definition refines (h : heap) (r : outcome (value * heap)) (o : outcome tree)
  : Prop :=
  match o with
  | Ret t' => result_ok h r t'
  | Throw => r = Throw
  | Unsupported => r = Unsupported
  end.

(** ** The heap computations against the trees *)

(** [sim r h o]: the read-only step [r] behaves on the heap [h] as the
    outcome [o] says. *)
Definition sim {A B} (r : outcome (A * heap)) (h : heap) (o : outcome B)
    (R : A → B → Prop) : Prop :=
  match o with
  | Ret b => ∃ a, r = Ret (a, h) ∧ R a b
  | Throw => r = Throw
  | Unsupported => r = Unsupported
  end.

(** A value of the caller is no reference to a cell of the copy. *)
Definition known (n : nat) (w : value) : Prop :=
  match w with
  | VRef l => l < n
  | VPrim _ => True
  end.

Section Simulation.

Variable dtoa : float → string.

(** The opening the mutators share: read [_type], copy the element, go to
    [newElement.osm[elementType][0]]. *)
Definition enter {A} (element : value) (rest : value → value → value → M A)
  : M A :=
  let! elementType := getProp element "_type" in
  let! newElement := simpleObjectDeepClone element in
  let! innerElement := innerOf dtoa newElement elementType in
  rest elementType newElement innerElement.

(** [copied h0 h1 hi root t]: [h1] is [h0] followed by new cells, the
    first of which, up to [hi], are a copy of [t] whose root is [root]. *)
Definition copied (h0 h1 : heap) (hi : nat) (root : value) (t : tree) : Prop :=
  h0 `prefix_of` h1 ∧ hi ≤ length h1 ∧ laid h1 (length h0) hi root t ∧
  closed (length h0) h1.

(** [reached h lo hi v t ks vc tc]: the path [ks] leads from [v] to [vc],
    whose tree is [tc]; when [tc] is a node it lies within [lo .. hi - 1],
    reading the path does not depend on the cells below it, and the tree of
    [v] follows that of [vc]. *)
Definition reached (h : heap) (lo hi : nat) (v : value) (t : tree)
    (ks : list string) (a b : nat) (vc : value) (tc : tree) : Prop :=
  laid h a b vc tc ∧
  (is_node tc →
   lo ≤ a ∧ b ≤ hi ∧
   (∀ h2, (∀ x, b ≤ x < hi → h2 !! x = h !! x) →
          getPath v ks h2 = Ret (vc, h2)) ∧
   (∀ h2 tc',
      (∀ x, lo ≤ x < hi → ¬ (a ≤ x < b) → h2 !! x = h !! x) →
      repr h2 vc tc' →
      repr h2 v (tree_put_path t ks tc'))).

(** The ending the tag mutators share: [innerElement.tag = [...items]]. *)
Definition store_tags (root innerElement : value) (items : list value) : M value :=
  let! tags := alloc (CArray items) in
  let! _ := setProp innerElement "tag" tags in
  ret root.

(** *** createNodeElement *)

(** The tree of a new node element. *)
Definition node_tree (tlat tlon : tree) (tags : list tree) : tree :=
  TObject
    [("osm",
      TObject
        [("$", TObject []);
         ("node",
          TArray
            [TObject [("$", TObject [("lat", tlat); ("lon", tlon)]);
                      ("tag", TArray tags)]])]);
     ("_type", TStr "node")].

Definition createNodeElement_tree (tlat tlon tp : tree) : outcome tree :=
  let? names := tree_keys tp in
  let? tags := formatted_tags dtoa tp names in
  Ret (node_tree tlat tlon tags).

(** A run that ends as the outcome says, with [P] on what it returns. *)
Definition meets {A B} (P : outcome (A * heap) → B → Prop)
    (r : outcome (A * heap)) (o : outcome B) : Prop :=
  match o with
  | Ret b => P r b
  | Throw => r = Throw
  | Unsupported => r = Unsupported
  end.

End Simulation.

(** The elements a test lets through. *)
Definition passes {A} (g : A → outcome bool) (x : A) : bool :=
  match g x with
  | Ret b => b
  | _ => false
  end.

(** ** Elements, tags and mutations *)

(** The six mutators as data. *)
Inductive mutation : Type :=
| SetProperty (propertyName propertyValue : value)
| SetProperties (properties : value)
| RemoveProperty (propertyName : value)
| SetCoordinates (lat lon : value)
| SetTimestampToNow (now : string)
| SetVersion (version : value).

(** The property of the inner object a mutation assigns, and the attributes
    it assigns when that property is the attributes object [$]. *)
Definition target_field (m : mutation) : string :=
  match m with
  | SetProperty _ _ | SetProperties _ | RemoveProperty _ => "tag"
  | SetCoordinates _ _ | SetTimestampToNow _ | SetVersion _ => "$"
  end.

Definition target_attrs (m : mutation) : list string :=
  match m with
  | SetCoordinates _ _ => ["lat"; "lon"]
  | SetTimestampToNow _ => ["timestamp"]
  | SetVersion _ => ["version"]
  | _ => []
  end.

(** The own property names of an object. *)
Definition tree_names (t : tree) : list string :=
  match t with
  | TObject fs => fs.*1
  | _ => []
  end.

(** The arguments of a call are values of the caller's heap: a reference
    is to one of its cells, and a [properties] object is a finite structure
    whose property names are distinct. *)
Definition args_ok (h : heap) (m : mutation) : Prop :=
  match m with
  | SetProperties p =>
      match tree_of h p with
      | Some tp => NoDup (tree_names tp)
      | None => False
      end
  | RemoveProperty n => known (length h) n
  | _ => True
  end.

(** Whether a tag has the key [n]: [tag.$.k === n]. *)
Definition tag_has_key (n : value) (tg : tree) : bool :=
  match tree_tagKey tg with
  | Ret kt => tree_strict_eq kt n
  | _ => false
  end.

(** Whether the key of a tag is one of [names]:
    [names.includes(tag.$.k)]. *)
Definition tag_key_in (names : list string) (tg : tree) : bool :=
  match tree_tagKey tg with
  | Ret kt => tree_includes names kt
  | _ => false
  end.

(** A tag whose key can be read: [tag.$] is neither [undefined] nor
    [null]. *)
Definition tag_readable (tg : tree) : Prop := ∃ kt, tree_tagKey tg = Ret kt.

Section Elements.

Variable dtoa : float → string.

Definition mutate (m : mutation) (element : value) : M value :=
  match m with
  | SetProperty n v => setProperty dtoa element n v
  | SetProperties p => setProperties dtoa element p
  | RemoveProperty n => removeProperty dtoa element n
  | SetCoordinates lat lon => setCoordinates dtoa element lat lon
  | SetTimestampToNow now => setTimestampToNow dtoa now element
  | SetVersion v => setVersion dtoa element v
  end.

Definition mutate_tree (h : heap) (m : mutation) (t : tree) : outcome tree :=
  match m with
  | SetProperty n v => setProperty_tree dtoa t n v
  | SetProperties p =>
      match tree_of h p with
      | Some tp => setProperties_tree dtoa t tp
      | None => Unsupported
      end
  | RemoveProperty n => removeProperty_tree dtoa t n
  | SetCoordinates lat lon => setCoordinates_tree dtoa t lat lon
  | SetTimestampToNow now => setTimestampToNow_tree dtoa now t
  | SetVersion v => setVersion_tree dtoa t v
  end.

(** The object [e.osm[e._type][0]] of an element, and its attributes. *)
Definition element_inner (t : tree) : outcome tree :=
  let? key := element_key dtoa t in tree_get_path t (inner_path key).

Definition element_attrs (t : tree) : outcome tree :=
  let? key := element_key dtoa t in tree_get_path t (attrs_path key).

(** What [innerElement.$.version] reads. *)
Definition element_version (t : tree) : outcome tree :=
  let? attrs := element_attrs t in tree_get attrs "version".

(** What [innerElement.tag] reads. *)
Definition element_tag_field (t : tree) : outcome tree :=
  let? inner := element_inner t in tree_get inner "tag".

(** The tags of an element: its tag array, or none when the inner object
    has no [tag] property. *)
Definition element_tags (t : tree) : option (list tree) :=
  match element_inner t with
  | Ret (TObject fs) =>
      match assoc "tag" fs with
      | Some (TArray tags) => Some tags
      | None => Some []
      | _ => None
      end
  | _ => None
  end.

(** The keys of the tags of an element, as they are read. *)
Definition element_tag_keys (t : tree) : list (outcome tree) :=
  match element_tags t with
  | Some tags => tree_tagKey <$> tags
  | None => []
  end.

End Elements.

Section Properties.

Variable dtoa : float → string.

(** The tags a mutator starts from: the tag array, or none when
    [innerElement.tag] is falsy. *)
Definition tags_read (fs : list (string * tree)) (tags : list tree) : Prop :=
  assoc "tag" fs = Some (TArray tags) ∨
  (tags = [] ∧ tree_truthy (default (TPrim PUndefined) (assoc "tag" fs)) = false).

(** A [properties] object whose property names are distinct and whose
    values have the string forms [kvs]. *)
Definition string_props (tp : tree) (kvs : list (string * string)) : Prop :=
  ∃ fs, tp = TObject fs ∧ NoDup fs.*1 ∧
        Forall2 (λ f kv, f.1 = kv.1 ∧ tree_toString dtoa f.2 = Ret kv.2) fs kvs.

End Properties.

(** ** What parseInt reads

    The string form of the argument is read as white space, a sign, and
    the digits of an integer; these are the notions of that reading. *)

(** A run of white space characters. *)
Inductive white_space : string → Prop :=
| white_space_nil : white_space EmptyString
| white_space_cons c ws :
    c ∈ StrWhiteSpaceChar → white_space ws → white_space (utf8 c +:+ ws).

(** [s] starts with a white space character, or with a sign. *)
Definition starts_with_space (s : string) : Prop :=
  ∃ c tail, c ∈ StrWhiteSpaceChar ∧ s = utf8 c +:+ tail.

Definition starts_with_sign (s : string) : Prop :=
  ∃ tail, s = "+" +:+ tail ∨ s = "-" +:+ tail.

(** The value of a digit: its place among the sixteen digits, in either
    case of the letters. *)
Definition digit_value (a : ascii) : option Z :=
  let place digits := Z.of_nat <$> String.index 0 (String a EmptyString) digits in
  match place "0123456789abcdef" with
  | Some v => Some v
  | None => place "0123456789ABCDEF"
  end.

(** The value of [a] as a digit of the radix, when it is one. *)
Definition digit_in (radix : Z) (a : ascii) : option Z :=
  match digit_value a with
  | Some v => if (v <? radix)%Z then Some v else None
  | None => None
  end.

Definition starts_with_digit (radix : Z) (s : string) : Prop :=
  ∃ a tail, s = String a tail ∧ is_Some (digit_in radix a).

(** The integer a string of digits writes in positional notation, the most
    significant digit first. *)
Fixpoint positional (radix : Z) (ds : string) : option Z :=
  match ds with
  | EmptyString => Some 0%Z
  | String a ds' =>
      match digit_in radix a, positional radix ds' with
      | Some v, Some z => Some (v * radix ^ Z.of_nat (String.length ds') + z)%Z
      | _, _ => None
      end
  end.

(** [s] starts with the prefix of a hexadecimal integer. *)
Definition hex_prefixed (s : string) (tail : string) : Prop :=
  s = "0x" +:+ tail ∨ s = "0X" +:+ tail.

(** The Number of the integer [z] read after a sign: the Number nearest to
    the integer, and for zero the zero of the sign. *)
Definition signed_Number (negative : bool) (z : Z) : float :=
  if bool_decide (z = 0%Z) then (if negative then neg_zero else zero)
  else Number_of_Z (if negative then - z else z).

(** What [parseInt] makes of a string read as white space, the sign [sign]
    and [rest]: the decimal integer [rest] starts with, the hexadecimal
    integer after a prefix [0x] or [0X], each up to the first character
    that is no digit, and [NaN] where no digit stands. *)
Definition reads (sign rest : string) (n : float) : Prop :=
  (∀ ds tail z,
     rest = ds +:+ tail → ds ≠ EmptyString → positional 10 ds = Some z →
     ¬ starts_with_digit 10 tail → (∀ tail', ¬ hex_prefixed rest tail') →
     n = signed_Number (bool_decide (sign = "-")) z) ∧
  (∀ ds tail tail' z,
     hex_prefixed rest tail' → tail' = ds +:+ tail →
     ds ≠ EmptyString → positional 16 ds = Some z →
     ¬ starts_with_digit 16 tail →
     n = signed_Number (bool_decide (sign = "-")) z) ∧
  ((sign = EmptyString → ¬ starts_with_space rest ∧ ¬ starts_with_sign rest) →
   (¬ starts_with_digit 10 rest ∨
    ∃ tail', hex_prefixed rest tail' ∧ ¬ starts_with_digit 16 tail') →
   n = nan).

(** ** A worked element

    The heap after [createNodeElement(48.8, 2.3, { name: "Cafe" })]: cell 0
    is the caller's [properties] object, cell 7 the element. *)

(** The digits of the Numbers the runs below format: an integer-valued
    Number is written in decimal, as the engine writes it when it is below
    10^21.  Numbers with a fraction are not formatted in these runs. *)
Definition Z_of_float (x : float) : option Z :=
  match Prim2SF x with
  | S754_zero _ => Some 0%Z
  | S754_finite s m e =>
      let z := if s then Zneg m else Zpos m in
      if (0 <=? e)%Z then Some (z * 2 ^ e)%Z
      else if (Zpos m mod 2 ^ (- e) =? 0)%Z then Some (z / 2 ^ (- e))%Z
      else None
  | _ => None
  end.

Definition integer_digits (x : float) : string :=
  match Z_of_float x with
  | Some z => NilZero.string_of_int (Z.to_int z)
  | None => EmptyString
  end.

Definition cafe_properties : heap := [CObject [("name", VStr "Cafe")]].

Definition cafe_heap : heap :=
  [ CObject [("name", VStr "Cafe")];
    CObject [];
    CObject [("lat", VPrim (PNum 48.8%float)); ("lon", VPrim (PNum 2.3%float))];
    CArray [];
    CObject [("$", VRef 2); ("tag", VRef 10)];
    CArray [VRef 4];
    CObject [("$", VRef 1); ("node", VRef 5)];
    CObject [("osm", VRef 6); ("_type", VStr "node")];
    CObject [("k", VStr "name"); ("v", VStr "Cafe")];
    CObject [("$", VRef 8)];
    CArray [VRef 9] ].

Definition cafe : value := VRef 7.

Definition cafe_tags : list tree := [tag_tree "name" "Cafe"].

Definition cafe_attrs : tree :=
  TObject [("lat", TPrim (PNum 48.8%float)); ("lon", TPrim (PNum 2.3%float))].

Definition cafe_tree : tree :=
  node_tree (TPrim (PNum 48.8%float)) (TPrim (PNum 2.3%float)) cafe_tags.

(** A string of [n] slashes. *)
Fixpoint slashes (n : nat) : string :=
  match n with
  | O => EmptyString
  | S n' => String "/" (slashes n')
  end.

Definition ends_with_slash (s : string) : Prop := ∃ s', s = s' +:+ "/".

(** ** Reading a run *)

(** The tags of the element a computation returns. *)
Definition tags_after (dtoa : float → string) (c : M value) (h : heap)
  : option (list tree) :=
  match c h with
  | Ret (E', h') =>
      match tree_of h' E' with
      | Some t' => element_tags dtoa t'
      | None => None
      end
  | _ => None
  end.

(** The version attribute of the element [setVersion] returns. *)
Definition version_after (dtoa : float → string) (E version : value) (h : heap)
  : option tree :=
  match setVersion dtoa E version h with
  | Ret (E', h') =>
      match tree_of h' E' with
      | Some t' =>
          match element_version dtoa t' with
          | Ret x => Some x
          | _ => None
          end
      | None => None
      end
  | _ => None
  end.

Definition cafe_attrs_fields : list (string * tree) :=
  [("lat", TPrim (PNum 48.8%float)); ("lon", TPrim (PNum 2.3%float))].

(** An element whose inner object has no tag array. *)
Definition bare_heap : heap :=
  [ CObject [("id", VStr "1")];
    CObject [("$", VRef 0)];
    CArray [VRef 1];
    CObject [("node", VRef 2)];
    CObject [("osm", VRef 3); ("_type", VStr "node")] ].

Definition bare : value := VRef 4.

Definition bare_tree : tree :=
  TObject
    [("osm", TObject [("node", TArray [TObject [("$", TObject [("id", TStr "1")])]])]);
     ("_type", TStr "node")].

(** ** Calls and their results *)

(** The call [c] on the heap [h] returns an element that denotes the
    document [t'], and the cells of [h] are as they were. *)
Definition returns (c : M value) (h : heap) (t' : tree) : Prop :=
  ∃ E' h', c h = Ret (E', h') ∧ h `prefix_of` h' ∧ tree_of h' E' = Some t'.

Section Calls.

Variable dtoa : float → string.

(** [setProperty] called for each name and value of a list in turn, each
    call on the result of the one before. *)
Fixpoint setProperty_each (element : value) (kvs : list (string * string))
  : M value :=
  match kvs with
  | [] => ret element
  | (k, v) :: kvs' =>
      let! element' := setProperty dtoa element (VStr k) (VStr v) in
      setProperty_each element' kvs'
  end.

(** An element without inner element: [e.osm[e._type][0]] throws, or reads
    [undefined] or [null]. *)
Definition no_inner (t : tree) : Prop :=
  match element_inner dtoa t with
  | Throw | Ret (TPrim PUndefined) | Ret (TPrim PNull) => True
  | _ => False
  end.

(** The arguments of a mutation can be used: names, values and coordinates
    have string forms, [properties] is an object whose values have string
    forms, a version is a primitive. *)
Definition args_convert (h : heap) (m : mutation) : Prop :=
  match m with
  | SetProperty n v =>
      (∃ k, toString dtoa n = Ret k) ∧ (∃ s, toString dtoa v = Ret s)
  | SetProperties p =>
      ∃ tp kvs, tree_of h p = Some tp ∧ string_props dtoa tp kvs
  | RemoveProperty n => known (length h) n
  | SetCoordinates lat lon =>
      (∃ la, toString dtoa lat = Ret la) ∧ (∃ lo, toString dtoa lon = Ret lo)
  | SetTimestampToNow _ => True
  | SetVersion v => ∃ p, v = VPrim p
  end.

End Calls.

(** [undefined] or [null]. *)
Definition nullish (v : value) : Prop := v = undefined ∨ v = VPrim PNull.

(** The [properties] argument of [setProperties] is an object. *)
Definition properties_object (h : heap) (m : mutation) : Prop :=
  match m with
  | SetProperties p => ∃ fs, tree_of h p = Some (TObject fs)
  | _ => True
  end.

(** ** Request functions for the worked runs *)

(** Request functions that yield the endpoint they were handed, and for the
    authenticated ones the URL their authentication was configured with
    besides. *)
Definition echo_url (config : gmap string value) (endpoint : value) : value * value :=
  (default undefined (config !! "url"), endpoint).

Definition echo_requests : Requests (gmap string value) (value * value) :=
  {| fetchNotesRequest e _ _ _ _ _ _ := (undefined, e);
     fetchNotesSearchRequest e _ _ _ _ _ _ _ _ := (undefined, e);
     createNoteRequest a e _ _ _ := echo_url a e;
     genericPostNoteRequest a e _ _ _ := echo_url a e;
     createChangesetRequest a e _ _ := echo_url a e;
     changesetCheckRequest a e _ := echo_url a e;
     updateChangesetTagsRequest a e _ _ := echo_url a e;
     fetchElementRequest e _ := (VStr "plain", e);
     fetchElementRequestFull e _ := (VStr "full", e);
     fetchRelationsForElementRequest e _ := (undefined, e);
     fetchWaysForNodeRequest e _ := (undefined, e);
     sendElementRequest a e _ _ := echo_url a e;
     fetchMapByBboxRequest e _ _ _ _ := (undefined, e);
     deleteElementRequest a e _ _ := echo_url a e;
     getUserPreferencesRequest a e := echo_url a e;
     setUserPreferencesRequest a e _ := echo_url a e;
     getUserPreferenceByKeyRequest a e _ := echo_url a e;
     setUserPreferenceByKeyRequest a e _ _ := echo_url a e;
     deleteUserPreferenceRequest a e _ := echo_url a e |}.

(** Whether [options && options.full] is truthy. *)
Definition wants_full (h : heap) (options : value) : bool :=
  match options with
  | VRef l =>
      match h !! l with
      | Some c => truthy (cell_get c "full")
      | None => false
      end
  | VPrim _ => false
  end.

(** ** What the request methods hand on *)

Section Handing.

Context {Auth Response : Type}.
Variable osmAuth : gmap string value → Auth.
Variable requests : Requests Auth Response.
Variable fetchNoteByIdRequest : value → value → value → Response.

(** Every request method of the instance [this] hands the URL [e] to its
    request function: the twenty-one methods, each with the arguments it was
    called with (a parameter default standing in for [undefined]) and, for
    the authenticated ones, the instance's [osmAuth] object. *)
Definition hands_endpoint (this : OsmRequest) (e : value) : Prop :=
  (∀ l b r t lim cd,
     fetchNotes requests this l b r t lim cd
     = fetchNotesRequest requests e l b r t
         (or_default (VPrim PNull) lim) (or_default (VPrim PNull) cd)) ∧
  (∀ q f lim c d us fr to,
     fetchNotesSearch requests this q f lim c d us fr to
     = fetchNotesSearchRequest requests e q (or_default (VStr "xml") f)
         (or_default (VPrim PNull) lim) (or_default (VPrim PNull) c)
         (or_default (VPrim PNull) d) (or_default (VPrim PNull) us)
         (or_default (VPrim PNull) fr) (or_default (VPrim PNull) to)) ∧
  (∀ noteId format,
     fetchNote Response fetchNoteByIdRequest this noteId format
     = fetchNoteByIdRequest e noteId (or_default (VStr "xml") format)) ∧
  (∀ lat lon text,
     createNote osmAuth requests this lat lon text
     = createNoteRequest requests (auth osmAuth this) e lat lon text) ∧
  (∀ noteId text,
     commentNote osmAuth requests this noteId text
     = genericPostNoteRequest requests (auth osmAuth this) e noteId text
         (VStr "comment")) ∧
  (∀ noteId text,
     closeNote osmAuth requests this noteId text
     = genericPostNoteRequest requests (auth osmAuth this) e noteId text
         (VStr "close")) ∧
  (∀ noteId text,
     reopenNote osmAuth requests this noteId text
     = genericPostNoteRequest requests (auth osmAuth this) e noteId text
         (VStr "reopen")) ∧
  (∀ createdBy comment,
     createChangeset osmAuth requests this createdBy comment
     = createChangesetRequest requests (auth osmAuth this) e
         (or_default (VStr EmptyString) createdBy)
         (or_default (VStr EmptyString) comment)) ∧
  (∀ changesetId,
     isChangesetStillOpen osmAuth requests this changesetId
     = changesetCheckRequest requests (auth osmAuth this) e changesetId) ∧
  (∀ changesetId object,
     updateChangesetTags osmAuth requests this changesetId object
     = updateChangesetTagsRequest requests (auth osmAuth this) e changesetId object) ∧
  (∀ osmId options h,
     known (length h) options →
     fetchElement requests this osmId options h
     = Ret (if wants_full h options
            then fetchElementRequestFull requests e osmId
            else fetchElementRequest requests e osmId, h)) ∧
  (∀ osmId,
     fetchRelationsForElement requests this osmId
     = fetchRelationsForElementRequest requests e osmId) ∧
  (∀ osmId,
     fetchWaysForNode requests this osmId = fetchWaysForNodeRequest requests e osmId) ∧
  (∀ element changesetId,
     sendElement osmAuth requests this element changesetId
     = sendElementRequest requests (auth osmAuth this) e element changesetId) ∧
  (∀ l b r t,
     fetchMapByBbox requests this l b r t = fetchMapByBboxRequest requests e l b r t) ∧
  (∀ element changesetId,
     deleteElement osmAuth requests this element changesetId
     = deleteElementRequest requests (auth osmAuth this) e element changesetId) ∧
  getUserPreferences osmAuth requests this
  = getUserPreferencesRequest requests (auth osmAuth this) e ∧
  (∀ object,
     setUserPreferences osmAuth requests this object
     = setUserPreferencesRequest requests (auth osmAuth this) e object) ∧
  (∀ key,
     getUserPreferenceByKey osmAuth requests this key
     = getUserPreferenceByKeyRequest requests (auth osmAuth this) e key) ∧
  (∀ key value_,
     setUserPreferenceByKey osmAuth requests this key value_
     = setUserPreferenceByKeyRequest requests (auth osmAuth this) e key value_) ∧
  (∀ key,
     deleteUserPreference osmAuth requests this key
     = deleteUserPreferenceRequest requests (auth osmAuth this) e key).

End Handing.

(** ** More worked heaps *)

(** The worked element with a second [properties] object in cell 11. *)
Definition shop_heap : heap :=
  cafe_heap ++ [CObject [("amenity", VStr "cafe"); ("name", VStr "Bar")]].

Definition shop_properties : tree :=
  TObject [("amenity", TStr "cafe"); ("name", TStr "Bar")].

Definition cafe_inner_fields : list (string * tree) :=
  [("$", cafe_attrs); ("tag", TArray cafe_tags)].

(** An element without [osm]. *)
Definition typed_heap : heap := [CObject [("_type", VStr "node")]].

(** A [properties] object with a [null] value. *)
Definition null_properties : heap := [CObject [("name", VPrim PNull)]].

(** Options that ask for the full element. *)
Definition full_options : heap := [CObject [("full", VPrim (PBool true))]].

Definition example_options : gmap string value :=
  {[ "endpoint" := VStr "https://api.example.org/api/0.6/" ]}.

(** An element with three tags, in cell 11, and a [properties] object in
    cell 12. *)
Definition bistro_heap : heap :=
  [ CObject [("k", VStr "name"); ("v", VStr "Cafe")];
    CObject [("$", VRef 0)];
    CObject [("k", VStr "amenity"); ("v", VStr "cafe")];
    CObject [("$", VRef 2)];
    CObject [("k", VStr "cuisine"); ("v", VStr "french")];
    CObject [("$", VRef 4)];
    CArray [VRef 1; VRef 3; VRef 5];
    CObject [("id", VStr "1"); ("version", VStr "2")];
    CObject [("$", VRef 7); ("tag", VRef 6)];
    CArray [VRef 8];
    CObject [("node", VRef 9)];
    CObject [("osm", VRef 10); ("_type", VStr "node")];
    CObject [("amenity", VStr "bar"); ("wifi", VStr "yes")] ].

Definition bistro : value := VRef 11.

Definition bistro_tags : list tree :=
  [tag_tree "name" "Cafe"; tag_tree "amenity" "cafe"; tag_tree "cuisine" "french"].

Definition bistro_tree : tree :=
  TObject
    [("osm",
      TObject
        [("node",
          TArray
            [TObject [("$", TObject [("id", TStr "1"); ("version", TStr "2")]);
                      ("tag", TArray bistro_tags)]])]);
     ("_type", TStr "node")].

(** * Proofs *)

(** ** A value and its tree *)

Lemma tree_ind' (P : tree → Prop) :
  (∀ p, P (TPrim p)) →
  (∀ fs, Forall (λ f, P f.2) fs → P (TObject fs)) →
  (∀ ts, Forall P ts → P (TArray ts)) →
  ∀ t, P t.
Proof.
  intros Hp Ho Ha. fix rec 1. intros [p|fs|ts].
  - apply Hp.
  - apply Ho. revert fs. fix rec' 1. intros [|[k c] fs].
    + constructor.
    + constructor; [apply rec | apply rec'].
  - apply Ha. revert ts. fix rec' 1. intros [|c ts].
    + constructor.
    + constructor; [apply rec | apply rec'].
Qed.

Lemma reify_repr n h v t : reify n h v = Some t → repr h v t.
Proof.
  revert v t. induction n as [|n IH]; intros [p|l] t Hr; simpl in Hr;
    try (injection Hr as <-; constructor); try discriminate.
  destruct (h !! l) as [[ps|vs]|] eqn:Hl; try discriminate.
  - destruct (mapM _ ps) as [fs|] eqn:Hm; simplify_eq/=.
    apply repr_object with ps; [done|]. clear Hl.
    apply mapM_Some in Hm.
    induction Hm as [|[k v] [k' c] ps fs Hx _ IHf]; [constructor|].
    constructor; [|done].
    simpl in *. destruct (reify n h v) eqn:Hv; simplify_eq/=. split; [done|].
    by apply IH.
  - destruct (mapM _ vs) as [ts|] eqn:Hm; simplify_eq/=.
    apply repr_array with vs; [done|]. clear Hl.
    apply mapM_Some in Hm.
    induction Hm; constructor; [by apply IH | done].
Qed.

Lemma reify_mono n m h v t : reify n h v = Some t → n ≤ m → reify m h v = Some t.
Proof.
  revert m v t. induction n as [|n IH]; intros m [p|l] t Hr Hle; simpl in Hr;
    try discriminate; try (destruct m; simpl; exact Hr).
  destruct m as [|m]; [lia|]. simpl.
  destruct (h !! l) as [[ps|vs]|] eqn:Hl; try discriminate.
  - destruct (mapM _ ps) as [fs|] eqn:Hm; simplify_eq/=.
    apply mapM_Some in Hm.
    assert (mapM (λ kv, pair kv.1 <$> reify m h kv.2) ps = Some fs) as ->; [|done].
    apply mapM_Some. eapply Forall2_impl; [exact Hm|].
    intros [k v] f Hf; simpl in *.
    destruct (reify n h v) eqn:Hv; simplify_eq/=.
    by rewrite (IH m v t) by (done || lia).
  - destruct (mapM _ vs) as [ts|] eqn:Hm; simplify_eq/=.
    apply mapM_Some in Hm.
    assert (mapM (reify m h) vs = Some ts) as ->; [|done].
    apply mapM_Some. eapply Forall2_impl; [exact Hm|].
    intros v t Hv. apply IH; [done | lia].
Qed.

Lemma repr_reify h v t : repr h v t → reify (height t) h v = Some t.
Proof.
  revert v. induction t as [p|fs IH|ts IH] using tree_ind'; intros v Hr;
    inversion Hr as [|l ps fs' Hl Hf|l vs ts' Hl Hf]; subst; simpl; [done| |].
  - rewrite Hl. simpl.
    assert (mapM (λ kv, pair kv.1 <$> reify (foldr (λ f m, height f.2 `max` m) 0 fs) h kv.2) ps
            = Some fs) as ->; [|done].
    apply mapM_Some.
    assert (∀ n, foldr (λ f m, height f.2 `max` m) 0 fs ≤ n →
              Forall2 (λ x y, pair x.1 <$> reify n h x.2 = Some y) ps fs) as Hgen;
      [|by apply Hgen].
    clear Hl Hr. induction Hf as [|[k v] [k' c] ps fs [Hk Hc] _ IHf];
      intros n Hn; [constructor|].
    simpl in *. apply Forall_cons in IH as [IHc IHfs]. constructor.
    + simpl. rewrite (reify_mono (height c) n h v c); [by subst| by apply IHc | lia].
    + apply IHf; [done | lia].
  - rewrite Hl. simpl.
    assert (mapM (reify (foldr (λ c m, height c `max` m) 0 ts) h) vs = Some ts) as ->;
      [|done].
    apply mapM_Some.
    assert (∀ n, foldr (λ c m, height c `max` m) 0 ts ≤ n →
              Forall2 (λ x y, reify n h x = Some y) vs ts) as Hgen;
      [|by apply Hgen].
    clear Hl Hr. induction Hf as [|v c vs ts Hc _ IHf]; intros n Hn; [constructor|].
    simpl in *. apply Forall_cons in IH as [IHc IHts]. constructor.
    + apply (reify_mono (height c)); [by apply IHc | lia].
    + apply IHf; [done | lia].
Qed.

Lemma repr_inj h v t1 t2 : repr h v t1 → repr h v t2 → t1 = t2.
Proof.
  revert v t2. induction t1 as [p|fs IH|ts IH] using tree_ind'; intros v t2 H1 H2;
    inversion H1 as [|l ps fs' Hl Hf|l vs ts' Hl Hf]; subst;
    inversion H2 as [|l' ps' fs2 Hl' Hf'|l' vs' ts2 Hl' Hf']; subst;
    try done; simplify_eq.
  - f_equal. clear Hl H1 H2. revert fs2 Hf'.
    induction Hf as [|[k v] [k' c] ps fs [Hk Hc] _ IHf]; intros fs2 Hf';
      inversion Hf' as [|? [k2 c2] ? fs2' [Hk2 Hc2] Hf2]; subst; [done|].
    simpl in *. apply Forall_cons in IH as [IHc IHfs].
    f_equal; [|by apply IHf].
    subst. f_equal. by eapply IHc.
  - f_equal. clear Hl H1 H2. revert ts2 Hf'.
    induction Hf as [|v c vs ts Hc _ IHf]; intros ts2 Hf';
      inversion Hf' as [|? c2 ? ts2' Hc2 Hf2]; subst; [done|].
    apply Forall_cons in IH as [IHc IHts].
    f_equal; [by eapply IHc | by apply IHf].
Qed.

Lemma bounded_NoDup_length (l : list nat) n :
  NoDup l → (∀ x, x ∈ l → x < n) → length l ≤ n.
Proof.
  intros Hnd Hb. trans (length (seq 0 n)); [|by rewrite length_seq].
  apply submseteq_length, NoDup_submseteq; [done|].
  intros x Hx. apply elem_of_seq. specialize (Hb x Hx). lia.
Qed.

Lemma repr_lookup_lt h l t : repr h (VRef l) t → l < length h.
Proof. inversion 1; subst; by eapply lookup_lt_Some. Qed.

Lemma height_fields_le fs n :
  Forall (λ f : string * tree, height f.2 ≤ n) fs →
  foldr (λ f m, height f.2 `max` m) 0 fs ≤ n.
Proof. induction 1; simpl; lia. Qed.

Lemma height_items_le ts n :
  Forall (λ c, height c ≤ n) ts → foldr (λ c m, height c `max` m) 0 ts ≤ n.
Proof. induction 1; simpl; lia. Qed.

Lemma size_field_lt (f : string * tree) fs :
  f ∈ fs → tree_size f.2 < tree_size (TObject fs).
Proof. induction 1; simpl in *; lia. Qed.

Lemma size_item_lt c ts : c ∈ ts → tree_size c < tree_size (TArray ts).
Proof. induction 1; simpl in *; lia. Qed.

(** Along a branch of a finite structure no cell repeats, so the branch is
    no longer than the heap. *)
Lemma repr_height_seen h v t (seen : list nat) :
  repr h v t →
  NoDup seen →
  (∀ l, l ∈ seen → ∃ tl, repr h (VRef l) tl ∧ tree_size t < tree_size tl) →
  height t + length seen ≤ length h.
Proof.
  revert v seen.
  induction t as [p|fs IH|ts IH] using tree_ind'; intros v seen Hr Hnd Hseen.
  - simpl. apply bounded_NoDup_length; [done|].
    intros l Hl. destruct (Hseen l Hl) as (tl & Htl & _).
    by eapply repr_lookup_lt.
  - inversion Hr as [|l ps fs' Hl Hf|]; subst.
    assert (l ∉ seen) as Hnotin.
    { intros Hin. destruct (Hseen l Hin) as (tl & Htl & Hlt).
      rewrite (repr_inj _ _ _ _ Htl Hr) in Hlt. lia. }
    assert (NoDup (l :: seen)) as Hnd' by by constructor.
    assert (S (length seen) ≤ length h) as Hbase.
    { apply (bounded_NoDup_length (l :: seen)); [done|].
      intros x [->|Hx]%elem_of_cons; [by eapply repr_lookup_lt|].
      destruct (Hseen x Hx) as (tl & Htl & _). by eapply repr_lookup_lt. }
    cut (foldr (λ f m, height f.2 `max` m) 0 fs ≤ length h - S (length seen));
      [simpl; lia|].
    apply height_fields_le. rewrite Forall_forall. intros f Hfin.
    rewrite Forall_forall in IH.
    apply list_elem_of_lookup in Hfin as Hi. destruct Hi as [i Hi].
    destruct (Forall2_lookup_r _ _ _ _ _ Hf Hi) as (p & _ & _ & Hp).
    specialize (IH f Hfin p.2 (l :: seen) Hp Hnd').
    cut (height f.2 + length (l :: seen) ≤ length h); [simpl; lia|].
    apply IH. intros x [->|Hx]%elem_of_cons.
    + exists (TObject fs). split; [done | by apply size_field_lt].
    + destruct (Hseen x Hx) as (tl & Htl & Hlt). exists tl. split; [done|].
      pose proof (size_field_lt f fs Hfin). lia.
  - inversion Hr as [| |l vs ts' Hl Hf]; subst.
    assert (l ∉ seen) as Hnotin.
    { intros Hin. destruct (Hseen l Hin) as (tl & Htl & Hlt).
      rewrite (repr_inj _ _ _ _ Htl Hr) in Hlt. lia. }
    assert (NoDup (l :: seen)) as Hnd' by by constructor.
    assert (S (length seen) ≤ length h) as Hbase.
    { apply (bounded_NoDup_length (l :: seen)); [done|].
      intros x [->|Hx]%elem_of_cons; [by eapply repr_lookup_lt|].
      destruct (Hseen x Hx) as (tl & Htl & _). by eapply repr_lookup_lt. }
    cut (foldr (λ c m, height c `max` m) 0 ts ≤ length h - S (length seen));
      [simpl; lia|].
    apply height_items_le. rewrite Forall_forall. intros c Hcin.
    rewrite Forall_forall in IH.
    apply list_elem_of_lookup in Hcin as Hi. destruct Hi as [i Hi].
    destruct (Forall2_lookup_r _ _ _ _ _ Hf Hi) as (v & _ & Hv).
    specialize (IH c Hcin v (l :: seen) Hv Hnd').
    cut (height c + length (l :: seen) ≤ length h); [simpl; lia|].
    apply IH. intros x [->|Hx]%elem_of_cons.
    + exists (TArray ts). split; [done | by apply size_item_lt].
    + destruct (Hseen x Hx) as (tl & Htl & Hlt). exists tl. split; [done|].
      pose proof (size_item_lt c ts Hcin). lia.
Qed.

Lemma repr_height h v t : repr h v t → height t ≤ length h.
Proof.
  intros Hr. pose proof (repr_height_seen h v t [] Hr (NoDup_nil_2)) as H.
  simpl in H. rewrite Nat.add_0_r in H. apply H. intros l Hl. by apply elem_of_nil in Hl.
Qed.

(** [tree_of] decides [repr]. *)
Lemma repr_tree_of h v t : repr h v t ↔ tree_of h v = Some t.
Proof.
  split.
  - intros Hr. apply (reify_mono (height t)); [by apply repr_reify|].
    by eapply repr_height.
  - apply reify_repr.
Qed.

(** ** The layout of a copy *)

Section Chain.
Context {A B : Type}.
Implicit Types R : nat → nat → A → B → Prop.

Lemma chain_impl_Forall R R' (P : B → Prop) lo hi xs ys :
  chain R lo hi xs ys →
  Forall P ys →
  (∀ a b x y, P y → R a b x y → R' a b x y) →
  chain R' lo hi xs ys.
Proof.
  intros Hc HP Himpl. induction Hc as [|lo mid hi x y xs ys Hxy _ IH];
    [constructor|].
  apply Forall_cons in HP as [Hy Hys]. econstructor; eauto.
Qed.

Lemma chain_le R lo hi xs ys :
  (∀ a b x y, R a b x y → a ≤ b) → chain R lo hi xs ys → lo ≤ hi.
Proof.
  intros HR. induction 1 as [|lo mid hi x y xs ys Hxy _ IH]; [lia|].
  specialize (HR _ _ _ _ Hxy). lia.
Qed.

(** Narrowing a relation to the range it is used on. *)
Lemma chain_bounds R lo hi xs ys :
  (∀ a b x y, R a b x y → a ≤ b) →
  chain R lo hi xs ys →
  chain (λ a b x y, R a b x y ∧ lo ≤ a ∧ b ≤ hi) lo hi xs ys.
Proof.
  intros HR. induction 1 as [|lo mid hi x y xs ys Hxy Hc IH]; [constructor|].
  pose proof (HR _ _ _ _ Hxy). pose proof (chain_le _ _ _ _ _ HR Hc).
  econstructor; [split; [done | lia]|].
  eapply (chain_impl_Forall _ _ (λ _, True)); [exact IH | by apply Forall_true|].
  intros a b x' y' _ (? & ? & ?). split; [done | lia].
Qed.

Lemma chain_Forall2 R (Q : A → B → Prop) lo hi xs ys :
  chain R lo hi xs ys →
  (∀ a b x y, R a b x y → Q x y) →
  Forall2 Q xs ys.
Proof. induction 1; constructor; eauto. Qed.

(** A chain splits around any of its elements. *)
Lemma chain_split R lo hi xs ys i y :
  chain R lo hi xs ys →
  ys !! i = Some y →
  ∃ xs1 x xs2 ys1 ys2 a b,
    xs = xs1 ++ x :: xs2 ∧ ys = ys1 ++ y :: ys2 ∧
    length xs1 = i ∧ length ys1 = i ∧
    chain R lo a xs1 ys1 ∧ R a b x y ∧ chain R b hi xs2 ys2.
Proof.
  intros Hc. revert i. induction Hc as [|lo mid hi x y' xs ys Hxy Hc IH];
    intros i Hi; [done|].
  destruct i as [|i]; simpl in Hi.
  - injection Hi as ->. exists [], x, xs, [], ys, lo, mid.
    repeat split; try done. constructor.
  - destruct (IH i Hi) as (xs1 & x1 & xs2 & ys1 & ys2 & a & b &
                           -> & -> & Hl1 & Hl2 & Hc1 & Hx & Hc2).
    exists (x :: xs1), x1, xs2, (y' :: ys1), ys2, a, b.
    repeat split; simpl; try done; try lia. by econstructor.
Qed.

Lemma chain_length R lo hi xs ys : chain R lo hi xs ys → length xs = length ys.
Proof. induction 1; simpl; lia. Qed.

End Chain.

Lemma laid_le h lo hi v t : laid h lo hi v t → lo ≤ hi.
Proof.
  revert lo hi v. induction t as [p|fs IH|ts IH] using tree_ind';
    intros lo hi v Hl; inversion Hl as [|? l ps ? Hc Hh|? l vs ? Hc Hh]; subst;
    [lia| |].
  - cut (lo ≤ l); [lia|].
    eapply (chain_le (λ a b (p : string * value) (f : string * tree), a ≤ b));
      [done|].
    eapply chain_impl_Forall; [exact Hc | exact IH|].
    intros a b p f Hf [_ Hp]. by eapply Hf.
  - cut (lo ≤ l); [lia|].
    eapply (chain_le (λ a b (p : value) (f : tree), a ≤ b)); [done|].
    eapply chain_impl_Forall; [exact Hc | exact IH|].
    intros a b p f Hf Hp. by eapply Hf.
Qed.

Lemma laid_ref h lo hi l t : laid h lo hi (VRef l) t → lo ≤ l ∧ hi = S l.
Proof.
  intros Hl; inversion Hl as [|? ? ps ? Hc Hh|? ? vs ? Hc Hh]; subst;
    (split; [|done]).
  - eapply chain_le; [|exact Hc]. intros a b p f [_ ?]. by eapply laid_le.
  - eapply chain_le; [|exact Hc]. intros a b p f ?. by eapply laid_le.
Qed.

(** The layout of a structure only depends on its own cells. *)
Lemma laid_frame h h2 lo hi v t :
  laid h lo hi v t →
  (∀ x, lo ≤ x < hi → h2 !! x = h !! x) →
  laid h2 lo hi v t.
Proof.
  revert lo hi v. induction t as [p|fs IH|ts IH] using tree_ind';
    intros lo hi v Hl Hag; inversion Hl as [|? l ps ? Hc Hh|? l vs ? Hc Hh]; subst;
    [constructor| |].
  - apply laid_ref in Hl as [? _].
    apply laid_object with ps; [|rewrite Hag; [done | lia]].
    apply chain_bounds in Hc; [|intros a b p f [_ ?]; by eapply laid_le].
    eapply chain_impl_Forall; [exact Hc | exact IH|].
    intros a b p f Hf ([Hk Hp] & ? & ?). split; [done|].
    eapply Hf; [done|]. intros x Hx. apply Hag. lia.
  - apply laid_ref in Hl as [? _].
    apply laid_array with vs; [|rewrite Hag; [done | lia]].
    apply chain_bounds in Hc; [|intros a b p f ?; by eapply laid_le].
    eapply chain_impl_Forall; [exact Hc | exact IH|].
    intros a b p f Hf (Hp & ? & ?).
    eapply Hf; [done|]. intros x Hx. apply Hag. lia.
Qed.

Lemma laid_repr h lo hi v t : laid h lo hi v t → repr h v t.
Proof.
  revert lo hi v. induction t as [p|fs IH|ts IH] using tree_ind';
    intros lo hi v Hl; inversion Hl as [|? l ps ? Hc Hh|? l vs ? Hc Hh]; subst;
    [constructor| |].
  - apply repr_object with ps; [done|].
    eapply chain_Forall2; [|intros a b x y H; exact H].
    eapply chain_impl_Forall; [exact Hc | exact IH|].
    intros a b p f Hf [Hk Hp]. split; [done | by eapply Hf].
  - apply repr_array with vs; [done|].
    eapply chain_Forall2; [|intros a b x y H; exact H].
    eapply chain_impl_Forall; [exact Hc | exact IH|].
    intros a b p f Hf Hp. by eapply Hf.
Qed.

Lemma chain_impl_bounds {A B} (R R' : nat → nat → A → B → Prop) lo hi xs ys :
  (∀ a b x y, R a b x y → a ≤ b) →
  chain R lo hi xs ys →
  (∀ a b x y, lo ≤ a → b ≤ hi → R a b x y → R' a b x y) →
  chain R' lo hi xs ys.
Proof.
  intros HR Hc Himpl. apply chain_bounds in Hc; [|done].
  eapply (chain_impl_Forall _ _ (λ _, True)); [exact Hc | by apply Forall_true|].
  intros a b x y _ (? & ? & ?). by apply Himpl.
Qed.

Lemma laid_fields_frame h h2 lo hi ps fs :
  chain (λ a b p f, p.1 = f.1 ∧ laid h a b p.2 f.2) lo hi ps fs →
  (∀ x, lo ≤ x < hi → h2 !! x = h !! x) →
  chain (λ a b (p : string * value) (f : string * tree),
           p.1 = f.1 ∧ laid h2 a b p.2 f.2) lo hi ps fs.
Proof.
  intros Hc Hag. eapply chain_impl_bounds; [|exact Hc|].
  - intros a b p f [_ ?]. by eapply laid_le.
  - intros a b p f ? ? [Hk Hp]. split; [done|].
    eapply laid_frame; [done|]. intros x Hx. apply Hag. lia.
Qed.

Lemma laid_items_frame h h2 lo hi vs ts :
  chain (laid h) lo hi vs ts →
  (∀ x, lo ≤ x < hi → h2 !! x = h !! x) →
  chain (laid h2) lo hi vs ts.
Proof.
  intros Hc Hag. eapply chain_impl_bounds; [|exact Hc|].
  - intros a b p f ?. by eapply laid_le.
  - intros a b p f ? ? Hp.
    eapply laid_frame; [done|]. intros x Hx. apply Hag. lia.
Qed.

Lemma alloc_tree_object fs h :
  alloc_tree (TObject fs) h =
  let '(ps, h') := alloc_fields fs h in (VRef (length h'), h' ++ [CObject ps]).
Proof.
  simpl.
  match goal with
  | |- (let '(_, _) := ?g fs h in _) = _ =>
      assert (∀ fs h, g fs h = alloc_fields fs h) as ->; [|done]
  end.
  clear. induction fs as [|[k t] fs IH]; intros h; simpl; [done|].
  destruct (alloc_tree t h) as [v h1]. by rewrite IH.
Qed.

Lemma alloc_tree_array ts h :
  alloc_tree (TArray ts) h =
  let '(vs, h') := alloc_items ts h in (VRef (length h'), h' ++ [CArray vs]).
Proof.
  simpl.
  match goal with
  | |- (let '(_, _) := ?g ts h in _) = _ =>
      assert (∀ ts h, g ts h = alloc_items ts h) as ->; [|done]
  end.
  clear. induction ts as [|t ts IH]; intros h; simpl; [done|].
  destruct (alloc_tree t h) as [v h1]. by rewrite IH.
Qed.

(** A copy is laid out in the cells it adds. *)
Lemma alloc_tree_laid t h v h' :
  alloc_tree t h = (v, h') →
  ∃ ext, h' = h ++ ext ∧ laid h' (length h) (length h') v t.
Proof.
  revert h v h'. induction t as [p|fs IH|ts IH] using tree_ind'; intros h v h' Ha.
  - simpl in Ha. simplify_eq. exists []. rewrite app_nil_r. split; [done|constructor].
  - rewrite alloc_tree_object in Ha.
    destruct (alloc_fields fs h) as [ps h1] eqn:Hfs. simplify_eq.
    assert (∃ ext, h1 = h ++ ext ∧
              chain (λ a b p f, p.1 = f.1 ∧ laid h1 a b p.2 f.2)
                (length h) (length h1) ps fs) as (ext & -> & Hc).
    { clear -IH Hfs. revert h ps h1 Hfs.
      induction fs as [|[k t] fs IHfs]; intros h ps h2 Hfs; simpl in Hfs.
      - simplify_eq. exists []. rewrite app_nil_r. split; [done|constructor].
      - apply Forall_cons in IH as [IHt IH].
        destruct (alloc_tree t h) as [v h1] eqn:Ht.
        destruct (alloc_fields fs h1) as [ps' h2'] eqn:Hfs'. simplify_eq.
        destruct (IHt _ _ _ Ht) as (e1 & -> & Hl1).
        destruct (IHfs IH _ _ _ Hfs') as (e2 & -> & Hc).
        exists (e1 ++ e2). split; [by rewrite app_assoc|].
        econstructor; [|exact Hc]. split; [done|]. simpl.
        eapply laid_frame; [exact Hl1|]. intros x Hx. by rewrite lookup_app_l by lia. }
    exists (ext ++ [CObject ps]). split; [by rewrite app_assoc|].
    rewrite length_app. simpl. rewrite Nat.add_1_r.
    apply laid_object with ps.
    + eapply laid_fields_frame; [exact Hc|]. intros x Hx. by rewrite lookup_app_l by lia.
    + by rewrite list_lookup_middle.
  - rewrite alloc_tree_array in Ha.
    destruct (alloc_items ts h) as [vs h1] eqn:Hts. simplify_eq.
    assert (∃ ext, h1 = h ++ ext ∧ chain (laid h1) (length h) (length h1) vs ts)
      as (ext & -> & Hc).
    { clear -IH Hts. revert h vs h1 Hts.
      induction ts as [|t ts IHts]; intros h vs h2 Hts; simpl in Hts.
      - simplify_eq. exists []. rewrite app_nil_r. split; [done|constructor].
      - apply Forall_cons in IH as [IHt IH].
        destruct (alloc_tree t h) as [v h1] eqn:Ht.
        destruct (alloc_items ts h1) as [vs' h2'] eqn:Hts'. simplify_eq.
        destruct (IHt _ _ _ Ht) as (e1 & -> & Hl1).
        destruct (IHts IH _ _ _ Hts') as (e2 & -> & Hc).
        exists (e1 ++ e2). split; [by rewrite app_assoc|].
        econstructor; [|exact Hc].
        eapply laid_frame; [exact Hl1|]. intros x Hx. by rewrite lookup_app_l by lia. }
    exists (ext ++ [CArray vs]). split; [by rewrite app_assoc|].
    rewrite length_app. simpl. rewrite Nat.add_1_r.
    apply laid_array with vs.
    + eapply laid_items_frame; [exact Hc|]. intros x Hx. by rewrite lookup_app_l by lia.
    + by rewrite list_lookup_middle.
Qed.

(** ** Sharing *)

Lemma closed_reach n h v l : closed n h → fresh n v → reach h v l → n ≤ l.
Proof.
  intros Hcl Hv Hr. induction Hr as [l|l c v l' Hl Hin _ IH]; [done|].
  apply IH. specialize (Hcl l c Hv Hl). rewrite Forall_forall in Hcl. by apply Hcl.
Qed.

Lemma closed_app n h c :
  closed n h → Forall (fresh n) (cell_vals c) → closed n (h ++ [c]).
Proof.
  intros Hcl Hc l c' Hn Hl.
  destruct (decide (l < length h)) as [Hlt|Hge].
  - rewrite lookup_app_l in Hl by done. by eapply Hcl.
  - rewrite lookup_app_r in Hl by lia.
    destruct (l - length h) as [|i]; simpl in Hl; [by simplify_eq|].
    by rewrite lookup_nil in Hl.
Qed.

Lemma closed_insert n h l c :
  closed n h → Forall (fresh n) (cell_vals c) → closed n (<[l := c]> h).
Proof.
  intros Hcl Hc l' c' Hn Hl.
  destruct (decide (l = l')) as [->|Hne].
  - apply list_lookup_insert_Some in Hl as [(_ & -> & _)|[? _]]; done.
  - rewrite list_lookup_insert_ne in Hl by done. by eapply Hcl.
Qed.

Lemma laid_fresh h a b v t n : laid h a b v t → n ≤ a → fresh n v.
Proof.
  intros Hl Hn. destruct v as [p|l]; [done|].
  apply laid_ref in Hl as [? _]. simpl. lia.
Qed.

Lemma chain_cover {A B} (R : nat → nat → A → B → Prop) lo hi xs ys l :
  (∀ a b x y, R a b x y → a ≤ b) →
  chain R lo hi xs ys →
  lo ≤ l < hi →
  ∃ x y a b, y ∈ ys ∧ R a b x y ∧ lo ≤ a ∧ a ≤ l < b ∧ b ≤ hi.
Proof.
  intros HR Hc. induction Hc as [|lo mid hi x y xs ys Hxy Hc IH]; intros Hl; [lia|].
  pose proof (HR _ _ _ _ Hxy). pose proof (chain_le _ _ _ _ _ HR Hc).
  destruct (decide (l < mid)) as [Hlt|Hge].
  - exists x, y, lo, mid. repeat split; try lia; try done. by left.
  - destruct IH as (x' & y' & a & b & Hin & Hr & ? & ? & ?); [lia|].
    exists x', y', a, b. repeat split; try lia; try done. by right.
Qed.

(** Every cell of a laid structure refers to cells of the structure. *)
Lemma laid_closed h lo hi v t n l c :
  laid h lo hi v t → n ≤ lo → lo ≤ l < hi → h !! l = Some c →
  Forall (fresh n) (cell_vals c).
Proof.
  revert lo hi v. induction t as [p|fs IH|ts IH] using tree_ind';
    intros lo hi v Hl Hn Hr Hc;
    inversion Hl as [|? l0 ps ? Hch Hh|? l0 vs ? Hch Hh]; subst; [lia| |].
  - destruct (decide (l = l0)) as [->|Hne].
    + simplify_eq. simpl.
      apply chain_bounds in Hch; [|intros a b p f [_ ?]; by eapply laid_le].
      clear -Hch Hn. induction Hch as [|a m b p f ps fs ([_ Hp] & ? & ?) _ IHc];
        constructor; [|done].
      eapply laid_fresh; [done | lia].
    + destruct (chain_cover _ _ _ _ _ l (λ a b p f (H : _ ∧ _), laid_le _ _ _ _ _ (proj2 H)) Hch)
        as (p & f & a & b & Hin & [_ Hp] & ? & ? & ?); [lia|].
      rewrite Forall_forall in IH. eapply (IH f Hin); [exact Hp|lia|lia|done].
  - destruct (decide (l = l0)) as [->|Hne].
    + simplify_eq. simpl.
      apply chain_bounds in Hch; [|intros a b p f ?; by eapply laid_le].
      clear -Hch Hn. induction Hch as [|a m b p f ps fs (Hp & ? & ?) _ IHc];
        constructor; [|done].
      eapply laid_fresh; [done | lia].
    + destruct (chain_cover _ _ _ _ _ l (laid_le h) Hch)
        as (p & f & a & b & Hin & Hp & ? & ? & ?); [lia|].
      rewrite Forall_forall in IH. eapply (IH f Hin); [exact Hp|lia|lia|done].
Qed.

(** What the clone returns. *)
Lemma clone_repr h v t :
  repr h v t →
  ∃ root ext,
    simpleObjectDeepClone v h = Ret (root, h ++ ext) ∧
    laid (h ++ ext) (length h) (length (h ++ ext)) root t ∧
    closed (length h) (h ++ ext).
Proof.
  intros Hr. apply repr_tree_of in Hr. unfold simpleObjectDeepClone, tree_of in *.
  rewrite Hr. destruct (alloc_tree t h) as [root h'] eqn:Ha.
  destruct (alloc_tree_laid _ _ _ _ Ha) as (ext & -> & Hl).
  exists root, ext. split; [done|]. split; [done|].
  intros l c Hn Hc. eapply laid_closed; [exact Hl|done| |done].
  split; [done|]. by eapply lookup_lt_Some.
Qed.

Lemma clone_Ret_inv h v r h' :
  simpleObjectDeepClone v h = Ret (r, h') → ∃ t, repr h v t.
Proof.
  unfold simpleObjectDeepClone. destruct (reify (length h) h v) as [t|] eqn:Hr; [|done].
  intros _. exists t. by eapply reify_repr.
Qed.

Lemma clone_None h v : tree_of h v = None → simpleObjectDeepClone v h = Unsupported.
Proof. unfold simpleObjectDeepClone, tree_of. by intros ->. Qed.

(** ** Reading and writing along a path *)

Section Assoc.
Context {A : Type}.
Implicit Types l : list (string * A).

Lemma assoc_split k l x :
  assoc k l = Some x → ∃ l1 l2, l = l1 ++ (k, x) :: l2 ∧ assoc k l1 = None.
Proof.
  induction l as [|[k' y] l IH]; simpl; [done|].
  case_decide as Hk.
  - intros [= ->]. subst. by exists [], l.
  - intros Hl. destruct (IH Hl) as (l1 & l2 & -> & Hn).
    exists ((k', y) :: l1), l2. split; [done|]. simpl. by rewrite decide_False.
Qed.

Lemma assoc_None_keys k l : assoc k l = None ↔ k ∉ l.*1.
Proof.
  induction l as [|[k' y] l IH]; simpl.
  - split; [intros _; apply not_elem_of_nil | done].
  - rewrite not_elem_of_cons. case_decide as Hk.
    + split; [done | by intros [? _]].
    + rewrite IH. split; [by intros ?; split | by intros [_ ?]].
Qed.

Lemma assoc_middle k l1 l2 x :
  assoc k l1 = None → assoc k (l1 ++ (k, x) :: l2) = Some x.
Proof.
  induction l1 as [|[k' y] l1 IH]; simpl; [by rewrite decide_True|].
  case_decide; [done | apply IH].
Qed.

Lemma set_field_middle k l1 l2 x y :
  assoc k l1 = None →
  set_field k y (l1 ++ (k, x) :: l2) = l1 ++ (k, y) :: l2.
Proof.
  induction l1 as [|[k' z] l1 IH]; simpl; [by rewrite decide_True|].
  case_decide; [done|]. intros H1. by rewrite IH.
Qed.

Lemma set_field_None k l y : assoc k l = None → set_field k y l = l ++ [(k, y)].
Proof.
  induction l as [|[k' z] l IH]; simpl; [done|].
  case_decide; [done|]. intros H1. by rewrite IH.
Qed.

Lemma assoc_set_field k k' l y :
  assoc k' (set_field k y l) = if decide (k = k') then Some y else assoc k' l.
Proof.
  induction l as [|[k0 z] l IH]; simpl.
  - repeat case_decide; done.
  - repeat (case_decide; simpl; subst); try done; try congruence;
      rewrite IH; by repeat case_decide.
Qed.

Lemma set_field_keys k l y :
  (set_field k y l).*1 =
  match assoc k l with Some _ => l.*1 | None => l.*1 ++ [k] end.
Proof.
  induction l as [|[k0 z] l IH]; cbn [set_field assoc]; [done|].
  case_decide; [done|]. rewrite !fmap_cons, IH. by destruct (assoc k l).
Qed.

End Assoc.

Lemma Forall2_set_field {A B} (R : A → B → Prop) k x y
    (ps : list (string * A)) (fs : list (string * B)) :
  Forall2 (λ p f, p.1 = f.1 ∧ R p.2 f.2) ps fs →
  R x y →
  Forall2 (λ p f, p.1 = f.1 ∧ R p.2 f.2) (set_field k x ps) (set_field k y fs).
Proof.
  intros Hf Hxy. induction Hf as [|[k1 a] [k2 b] ps fs [Hk Hab] Hf IH]; simpl in *.
  - by repeat constructor.
  - subst. case_decide; constructor; done.
Qed.

Lemma Forall2_fields_keys {A B} (R : A → B → Prop)
    (ps : list (string * A)) (fs : list (string * B)) :
  Forall2 (λ p f, p.1 = f.1 ∧ R p.2 f.2) ps fs → ps.*1 = fs.*1.
Proof.
  induction 1 as [|[k1 a] [k2 b] ps fs [Hk _] _ IH]; csimpl in *; [done|].
  by f_equal.
Qed.

Lemma Forall2_fields_assoc {A B} (R : A → B → Prop) k
    (ps : list (string * A)) (fs : list (string * B)) :
  Forall2 (λ p f, p.1 = f.1 ∧ R p.2 f.2) ps fs →
  match assoc k fs with
  | Some y => ∃ x, assoc k ps = Some x ∧ R x y
  | None => assoc k ps = None
  end.
Proof.
  induction 1 as [|[k1 a] [k2 b] ps fs [Hk Hab] _ IH]; simpl in *; [done|].
  subst. case_decide; [by exists a | done].
Qed.

(** Reading a property of a value that denotes a tree. *)
Lemma repr_getProp h v t k :
  repr h v t →
  match tree_get t k with
  | Ret tc => ∃ vc, getProp v k h = Ret (vc, h) ∧ repr h vc tc
  | Throw => getProp v k h = Throw
  | Unsupported => False
  end.
Proof.
  intros Hr. inversion Hr as [p|l ps fs Hl Hf|l vs ts Hl Hf]; subst; simpl.
  - destruct p; simpl; try done; eexists; (split; [done | constructor]).
  - rewrite Hl. simpl.
    pose proof (Forall2_fields_assoc (repr h) k ps fs Hf) as Ha.
    destruct (assoc k fs) as [tc|].
    + destruct Ha as (x & -> & Hx). by exists x.
    + rewrite Ha. eexists. split; [done | constructor].
  - rewrite Hl. simpl. destruct (array_index k) as [i|]; simpl.
    + destruct (ts !! i) as [tc|] eqn:Hi.
      * destruct (Forall2_lookup_r _ _ _ _ _ Hf Hi) as (x & -> & Hx). by exists x.
      * apply Forall2_length in Hf. apply lookup_ge_None in Hi.
        rewrite (proj2 (lookup_ge_None vs i)) by lia.
        eexists. split; [done | constructor].
    + eexists. split; [done | constructor].
Qed.

Lemma laid_fields_repr h h2 lo hi ps fs :
  chain (λ a b p f, p.1 = f.1 ∧ laid h a b p.2 f.2) lo hi ps fs →
  (∀ x, lo ≤ x < hi → h2 !! x = h !! x) →
  Forall2 (λ (p : string * value) (f : string * tree),
             p.1 = f.1 ∧ repr h2 p.2 f.2) ps fs.
Proof.
  intros Hc Hag. eapply chain_Forall2; [by eapply laid_fields_frame|].
  intros a b p f [Hk Hp]. split; [done | by eapply laid_repr].
Qed.

Lemma laid_items_repr h h2 lo hi vs ts :
  chain (laid h) lo hi vs ts →
  (∀ x, lo ≤ x < hi → h2 !! x = h !! x) →
  Forall2 (repr h2) vs ts.
Proof.
  intros Hc Hag. eapply chain_Forall2; [by eapply laid_items_frame|].
  intros a b p f Hp. by eapply laid_repr.
Qed.

Lemma laid_fields_le h lo hi ps fs :
  chain (λ a b (p : string * value) (f : string * tree),
           p.1 = f.1 ∧ laid h a b p.2 f.2) lo hi ps fs → lo ≤ hi.
Proof. apply chain_le. intros a b p f [_ ?]. by eapply laid_le. Qed.

Lemma laid_items_le h lo hi vs ts : chain (laid h) lo hi vs ts → lo ≤ hi.
Proof. apply chain_le. intros a b p f ?. by eapply laid_le. Qed.

Lemma laid_fields_keys h lo hi ps fs :
  chain (λ a b (p : string * value) (f : string * tree),
           p.1 = f.1 ∧ laid h a b p.2 f.2) lo hi ps fs → ps.*1 = fs.*1.
Proof.
  induction 1 as [|? ? ? [k1 a] [k2 b] ps fs [Hk _] _ IH]; csimpl in *; [done|].
  by f_equal.
Qed.

(** One step down a laid structure: the child that is read, where it lies,
    and what the parent denotes once the child has changed. *)
Lemma laid_step h lo hi v t k :
  laid h lo hi v t →
  match tree_child t k with
  | Some tc =>
      ∃ l c vc a b,
        v = VRef l ∧ hi = S l ∧ h !! l = Some c ∧ cell_get c k = vc ∧
        laid h a b vc tc ∧ lo ≤ a ∧ b ≤ l ∧
        ∀ h2 tc',
          (∀ x, lo ≤ x < hi → ¬ (a ≤ x < b) → h2 !! x = h !! x) →
          repr h2 vc tc' →
          repr h2 v (tree_assign t k tc')
  | None =>
      match v with
      | VPrim _ => True
      | VRef l => ∃ c, h !! l = Some c ∧ cell_get c k = undefined
      end
  end.
Proof.
  intros Hl. inversion Hl as [|? l ps fs Hc Hh|? l vs ts Hc Hh]; subst; simpl;
    [done| |].
  - destruct (assoc k fs) as [tc|] eqn:Hk.
    + destruct (assoc_split _ _ _ Hk) as (fs1 & fs2 & -> & Hn1).
      destruct (chain_split _ _ _ _ _ (length fs1) (k, tc) Hc)
        as (ps1 & [k' vc] & ps2 & ys1 & ys2 & a & b &
            -> & Hys & Hl1 & Hl2 & Hc1 & [Hk' Hvc] & Hc2);
        [by rewrite list_lookup_middle|].
      apply app_inj_1 in Hys as [<- [= <-]]; [|done]. simpl in *. subst k'.
      assert (assoc k ps1 = None) as Hn1'.
      { apply assoc_None_keys. apply assoc_None_keys in Hn1.
        by rewrite (laid_fields_keys _ _ _ _ _ Hc1). }
      pose proof (laid_fields_le _ _ _ _ _ Hc1).
      pose proof (laid_fields_le _ _ _ _ _ Hc2).
      pose proof (laid_le _ _ _ _ _ Hvc).
      exists l, (CObject (ps1 ++ (k, vc) :: ps2)), vc, a, b.
      repeat split; try done.
      { simpl. by rewrite assoc_middle. }
      intros h2 tc' Hag Hr. rewrite set_field_middle by done.
      apply repr_object with (ps1 ++ (k, vc) :: ps2).
      { rewrite Hag; [done | lia | lia]. }
      apply Forall2_app; [|constructor; [done|]].
      * eapply laid_fields_repr; [exact Hc1|]. intros x Hx. apply Hag; lia.
      * eapply laid_fields_repr; [exact Hc2|]. intros x Hx. apply Hag; lia.
    + exists (CObject ps). split; [done|]. simpl.
      assert (assoc k ps = None) as ->; [|done].
      apply assoc_None_keys. apply assoc_None_keys in Hk.
      by rewrite (laid_fields_keys _ _ _ _ _ Hc).
  - destruct (array_index k) as [i|] eqn:Hi; simpl.
    + destruct (ts !! i) as [tc|] eqn:Hti.
      * destruct (chain_split _ _ _ _ _ i tc Hc Hti)
          as (vs1 & vc & vs2 & ts1 & ts2 & a & b &
              -> & -> & Hl1 & Hl2 & Hc1 & Hvc & Hc2).
        pose proof (laid_items_le _ _ _ _ _ Hc1).
        pose proof (laid_items_le _ _ _ _ _ Hc2).
        pose proof (laid_le _ _ _ _ _ Hvc).
        exists l, (CArray (vs1 ++ vc :: vs2)), vc, a, b.
        repeat split; try done.
        { simpl. rewrite Hi. subst i. by rewrite list_lookup_middle. }
        intros h2 tc' Hag Hr.
        rewrite insert_app_r_alt by lia.
        rewrite Hl2, Nat.sub_diag. simpl.
        apply repr_array with (vs1 ++ vc :: vs2).
        { rewrite Hag; [done | lia | lia]. }
        apply Forall2_app; [|constructor; [done|]].
        -- eapply laid_items_repr; [exact Hc1|]. intros x Hx. apply Hag; lia.
        -- eapply laid_items_repr; [exact Hc2|]. intros x Hx. apply Hag; lia.
      * exists (CArray vs). split; [done|]. simpl. rewrite Hi.
        apply chain_length in Hc. apply lookup_ge_None in Hti.
        by rewrite (proj2 (lookup_ge_None vs i)) by lia.
    + exists (CArray vs). split; [done|]. simpl. by rewrite Hi.
Qed.

(** ** Steps of the heap monad *)

Lemma bind_Ret {A B} (c : M A) (k : A → M B) h a h' :
  c h = Ret (a, h') → bind c k h = k a h'.
Proof. unfold bind. by intros ->. Qed.

Lemma bind_Throw {A B} (c : M A) (k : A → M B) h :
  c h = Throw → bind c k h = Throw.
Proof. unfold bind. by intros ->. Qed.

Lemma bind_Unsupported {A B} (c : M A) (k : A → M B) h :
  c h = Unsupported → bind c k h = Unsupported.
Proof. unfold bind. by intros ->. Qed.

Lemma tree_get_path_prim p ks tc :
  tree_get_path (TPrim p) ks = Ret tc → ¬ is_node tc.
Proof.
  revert p. induction ks as [|k ks IH]; intros p; simpl.
  - intros [= <-]. by intros [].
  - destruct p; simpl; try done; apply IH.
Qed.

(** Following a path down a laid structure. *)
Lemma laid_path h lo hi v t ks :
  laid h lo hi v t →
  match tree_get_path t ks with
  | Ret tc =>
      ∃ vc a b,
        getPath v ks h = Ret (vc, h) ∧ laid h a b vc tc ∧
        (is_node tc →
         lo ≤ a ∧ b ≤ hi ∧
         (∀ h2, (∀ x, b ≤ x < hi → h2 !! x = h !! x) →
                getPath v ks h2 = Ret (vc, h2)) ∧
         (∀ h2 tc',
            (∀ x, lo ≤ x < hi → ¬ (a ≤ x < b) → h2 !! x = h !! x) →
            repr h2 vc tc' →
            repr h2 v (tree_put_path t ks tc')))
  | Throw => getPath v ks h = Throw
  | Unsupported => False
  end.
Proof.
  revert lo hi v t. induction ks as [|k ks IH]; intros lo hi v t Hl.
  { simpl. exists v, lo, hi. split; [done|]. split; [done|]. intros _.
    pose proof (laid_le _ _ _ _ _ Hl). repeat split; try done; lia. }
  assert (∀ p, match tree_get_path (TPrim p) ks with
               | Ret tc => ∃ vc a b, getPath (VPrim p) ks h = Ret (vc, h) ∧
                                     laid h a b vc tc ∧ ¬ is_node tc
               | Throw => getPath (VPrim p) ks h = Throw
               | Unsupported => False
               end) as Hprim.
  { intros p. specialize (IH 0 0 (VPrim p) (TPrim p) (laid_prim _ _ _)).
    destruct (tree_get_path (TPrim p) ks) as [tc| |] eqn:Hg; [|done..].
    destruct IH as (vc & a & b & ? & ? & _). exists vc, a, b.
    repeat split; try done. by eapply tree_get_path_prim. }
  cbn [tree_get_path getPath].
  destruct (tree_child t k) as [c|] eqn:Hk.
  - pose proof (laid_step _ _ _ _ _ k Hl) as Hs. rewrite Hk in Hs.
    destruct Hs as (l & cl & vc & a & b & -> & -> & Hcl & Hget & Hvc & ? & ? & Hctx).
    assert (tree_get t k = Ret c) as ->.
    { unfold tree_get. rewrite Hk. destruct t as [?|?|?]; [done..]. }
    cbn [obind]. specialize (IH _ _ _ _ Hvc).
    assert (∀ h2, h2 !! l = h !! l →
                  bind (getProp (VRef l) k) (λ c, getPath c ks) h2 = getPath vc ks h2)
      as Hread.
    { intros h2 Hh2.
      apply (bind_Ret (getProp (VRef l) k) (λ c, getPath c ks) h2 vc h2).
      unfold getProp. rewrite Hh2, Hcl. by subst. }
    destruct (tree_get_path c ks) as [tc| |]; [|by rewrite Hread|done].
    destruct IH as (vd & a' & b' & Hp & Hvd & Hnode).
    exists vd, a', b'. split; [by rewrite Hread|]. split; [done|].
    intros Htc. destruct (Hnode Htc) as (? & ? & Hst & Hcx).
    split; [lia|]. split; [lia|]. split.
    + intros h2 Hag. rewrite Hread by (apply Hag; lia).
      apply Hst. intros x Hx. apply Hag. lia.
    + intros h2 tc' Hag Hr. cbn [tree_put_path]. rewrite Hk. apply Hctx.
      * intros x Hx Hnot. apply Hag; [done | lia].
      * apply Hcx; [|done]. intros x Hx Hnot. apply Hag; [lia | done].
  - assert (tree_get t k = Throw ∧ getProp v k h = Throw ∨
            tree_get t k = Ret (TPrim PUndefined) ∧ getProp v k h = Ret (undefined, h))
      as [[-> Hg]|[-> Hg]].
    { pose proof (laid_step _ _ _ _ _ k Hl) as Hs. rewrite Hk in Hs.
      unfold tree_get. rewrite Hk.
      inversion Hl as [? p|? l ps fs Hc Hh|? l vs ts Hc Hh]; subst.
      - destruct p; simpl; auto.
      - destruct Hs as (c & Hc' & Hget). right. split; [done|].
        unfold getProp. by rewrite Hc', Hget.
      - destruct Hs as (c & Hc' & Hget). right. split; [done|].
        unfold getProp. by rewrite Hc', Hget. }
    + by apply bind_Throw.
    + cbn [obind]. rewrite (bind_Ret _ _ _ _ _ Hg).
      specialize (Hprim PUndefined).
      destruct (tree_get_path (TPrim PUndefined) ks) as [tc| |]; [|done..].
      destruct Hprim as (vc & a & b & ? & ? & ?). exists vc, a, b.
      repeat split; try done.
Qed.

(** ** The heap computations against the trees *)

Lemma bind_assoc {A B C} (c : M A) (f : A → M B) (g : B → M C) h :
  bind (bind c f) g h = bind c (λ x, bind (f x) g) h.
Proof. unfold bind. by destruct (c h) as [[a h']| |]. Qed.

Lemma bind_ret_r {A} (c : M A) h : bind c ret h = c h.
Proof. unfold bind, ret. by destruct (c h) as [[a h']| |]. Qed.

Lemma bind_ext {A B} (c : M A) (f g : A → M B) h :
  (∀ a h', f a h' = g a h') → bind c f h = bind c g h.
Proof. intros Hfg. unfold bind. by destruct (c h) as [[a h']| |]. Qed.

Lemma bind_ext_l {A B} (c c' : M A) (f : A → M B) h :
  (∀ h', c h' = c' h') → bind c f h = bind c' f h.
Proof. intros Hc. unfold bind. by rewrite Hc. Qed.

Lemma getPath_snoc v ks k h :
  getPath v (ks ++ [k]) h = bind (getPath v ks) (λ c, getProp c k) h.
Proof.
  revert v h. induction ks as [|k' ks IH]; intros v h; simpl.
  - unfold bind at 2. unfold ret. apply bind_ret_r.
  - rewrite bind_assoc. apply bind_ext. intros c h'. apply IH.
Qed.

Lemma getPath_one v k h : getPath v [k] h = getProp v k h.
Proof. simpl. apply bind_ret_r. Qed.

Lemma repr_ext h ext v t : repr h v t → repr (h ++ ext) v t.
Proof.
  revert v. induction t as [p|fs IH|ts IH] using tree_ind'; intros v Hr;
    inversion Hr as [|l ps fs' Hl Hf|l vs ts' Hl Hf]; subst; [constructor| |].
  - apply repr_object with ps; [by apply lookup_app_l_Some|].
    clear Hl Hr. induction Hf as [|p f ps fs [Hk Hp] _ IHf]; [constructor|].
    apply Forall_cons in IH as [IHp IH]. constructor; [|by apply IHf].
    split; [done | by apply IHp].
  - apply repr_array with vs; [by apply lookup_app_l_Some|].
    clear Hl Hr. induction Hf as [|p f vs ts Hp _ IHf]; [constructor|].
    apply Forall_cons in IH as [IHp IH]. constructor; [by apply IHp | by apply IHf].
Qed.

Lemma laid_ext h ext lo hi v t : laid h lo hi v t → laid (h ++ ext) lo hi v t.
Proof.
  intros Hl. eapply laid_frame; [done|]. intros x Hx.
  destruct (h !! x) as [c|] eqn:Hc; [by apply lookup_app_l_Some|].
  exfalso. revert Hc Hx. clear -Hl. revert lo hi v Hl.
  induction t as [p|fs IH|ts IH] using tree_ind'; intros lo hi v Hl Hc Hx;
    inversion Hl as [|? l ps ? Hch Hh|? l vs ? Hch Hh]; subst; [lia| |].
  - destruct (decide (x = l)) as [->|]; [congruence|].
    destruct (chain_cover _ _ _ _ _ x
                (λ a b p f (H : _ ∧ _), laid_le _ _ _ _ _ (proj2 H)) Hch)
      as (p & f & a & b & Hin & [_ Hp] & ? & ? & ?); [lia|].
    rewrite Forall_forall in IH. eapply (IH f Hin); [exact Hp|done|lia].
  - destruct (decide (x = l)) as [->|]; [congruence|].
    destruct (chain_cover _ _ _ _ _ x (laid_le h) Hch)
      as (p & f & a & b & Hin & Hp & ? & ? & ?); [lia|].
    rewrite Forall_forall in IH. eapply (IH f Hin); [exact Hp|done|lia].
Qed.

Lemma laid_truthy h a b v t : laid h a b v t → truthy v = tree_truthy t.
Proof. by inversion 1. Qed.

Lemma laid_prim_inv h a b v p : laid h a b v (TPrim p) → v = VPrim p.
Proof. by inversion 1. Qed.

Lemma laid_node_ref h a b v t : laid h a b v t → is_node t → ∃ l, v = VRef l.
Proof. inversion 1; subst; [done | by eexists..]. Qed.

Lemma laid_strict_eq h n a b v t w :
  laid h a b v t → (is_node t → n ≤ a) → known n w →
  strict_eq v w = tree_strict_eq t w.
Proof.
  intros Hl Hn Hw. inversion Hl as [|? l ps ? Hch Hh|? l vs ? Hch Hh]; subst;
    [done| |]; apply laid_ref in Hl as [? _]; destruct w as [q|l']; simpl in *;
    try done; apply bool_decide_eq_false; specialize (Hn I); lia.
Qed.

Lemma laid_includes h a b v t names :
  laid h a b v t → includes names v = tree_includes names t.
Proof. by inversion 1. Qed.

Lemma laid_getPath h lo hi v t ks :
  laid h lo hi v t →
  sim (getPath v ks h) h (tree_get_path t ks)
    (λ vc tc, ∃ a b, laid h a b vc tc ∧ (is_node tc → lo ≤ a ∧ b ≤ hi)).
Proof.
  intros Hl. pose proof (laid_path _ _ _ _ _ ks Hl) as Hp. unfold sim.
  destruct (tree_get_path t ks) as [tc| |]; [|done..].
  destruct Hp as (vc & a & b & Hg & Hvc & Hn). exists vc. split; [done|].
  exists a, b. split; [done|]. intros Htc. by destruct (Hn Htc) as (? & ? & _).
Qed.

Lemma tagKey_getPath tag h : tagKey tag h = getPath tag ["$"; "k"] h.
Proof.
  unfold tagKey. simpl. apply bind_ext. intros a h'. symmetry. apply bind_ret_r.
Qed.

Lemma filter_chain_sim h lo hi s e vs ts
    (f : value → M bool) (g : tree → outcome bool) :
  chain (λ a b x tx, laid h a b x tx ∧ lo ≤ a ∧ b ≤ hi) s e vs ts →
  (∀ x tx a b, laid h a b x tx → lo ≤ a → b ≤ hi → sim (f x h) h (g tx) eq) →
  sim (filterM_M f vs h) h (filter_o g ts)
    (Forall2 (λ x tx, ∃ a b, laid h a b x tx ∧ lo ≤ a ∧ b ≤ hi)).
Proof.
  intros Hch Hfg.
  induction Hch as [|a m b x tx vs ts (Hx & ? & ?) Hch IH]; simpl.
  - exists []. split; [done | constructor].
  - pose proof (Hfg x tx a m Hx) as Hs. unfold sim in Hs.
    destruct (g tx) as [bb| |]; simpl;
      [|by apply bind_Throw; apply Hs; lia|by apply bind_Unsupported; apply Hs; lia].
    destruct Hs as (bb' & Hfx & ->); [lia..|].
    rewrite (bind_Ret _ _ _ _ _ Hfx).
    unfold sim in IH.
    destruct (filter_o g ts) as [kept| |]; simpl;
      [|by apply bind_Throw|by apply bind_Unsupported].
    destruct IH as (kv & Hkv & Hf2). rewrite (bind_Ret _ _ _ _ _ Hkv).
    unfold ret. eexists. split; [done|].
    destruct bb; [|done]. constructor; [|done].
    exists a, m. split; [done|]. lia.
Qed.

(** Filtering the tags of a laid array. *)
Lemma filter_sim h lo hi v t (f : value → M bool) (g : tree → outcome bool) :
  laid h lo hi v t →
  (∀ x tx a b, laid h a b x tx → lo ≤ a → b < hi → sim (f x h) h (g tx) eq) →
  sim (filter_array v f h) h (tree_filter t g)
    (Forall2 (λ x tx, ∃ a b, laid h a b x tx ∧ lo ≤ a ∧ b < hi)).
Proof.
  intros Hl Hfg. inversion Hl as [|? l ps ? Hch Hh|? l vs ts Hch Hh]; subst;
    simpl; [done|by rewrite Hh|].
  rewrite Hh. apply chain_bounds in Hch; [|apply laid_le].
  assert (∀ x tx a b, laid h a b x tx → lo ≤ a → b ≤ l → sim (f x h) h (g tx) eq)
    as Hfg' by (intros; eapply Hfg; eauto; lia).
  pose proof (filter_chain_sim h lo l lo l vs ts f g Hch Hfg') as Hs.
  unfold sim in Hs |- *.
  destruct (filter_o g ts) as [kept| |]; [|done..].
  destruct Hs as (kv & Hkv & Hf2).
  exists kv. split; [done|]. eapply Forall2_impl; [exact Hf2|].
  intros x tx (a & b & ? & ? & ?). exists a, b. split; [done|]. lia.
Qed.

(** ** Each helper against its tree function *)

Section Refinement.

Variable dtoa : float → string.

Lemma innerOf_eq root tyv key h :
  ToPropertyKey dtoa tyv = Ret key →
  innerOf dtoa root tyv h = getPath root (inner_path key) h.
Proof.
  intros Hk. unfold innerOf, inner_path. simpl. apply bind_ext. intros osm h'.
  unfold lift. rewrite Hk. unfold bind at 1. simpl.
  apply bind_ext. intros els h''. symmetry. apply bind_ret_r.
Qed.

Lemma repr_key h v t : repr h v t → ToPropertyKey dtoa v = tree_key dtoa t.
Proof. by inversion 1. Qed.

Lemma enter_spec {A} h E t (rest : value → value → value → M A) :
  repr h E t →
  match element_key dtoa t with
  | Ret key =>
      ∃ tyv root h1,
        copied h h1 (length h1) root t ∧ ToPropertyKey dtoa tyv = Ret key ∧
        enter dtoa E rest h = bind (getPath root (inner_path key)) (rest tyv root) h1
  | Throw => enter dtoa E rest h = Throw
  | Unsupported => enter dtoa E rest h = Unsupported
  end.
Proof.
  intros Hr. unfold element_key, enter.
  pose proof (repr_getProp h E t "_type" Hr) as Hty.
  destruct (tree_get t "_type") as [ty| |] eqn:Hget; [|by apply bind_Throw|done].
  destruct Hty as (tyv & Hg & Hrty). simpl. rewrite (bind_Ret _ _ _ _ _ Hg).
  destruct (clone_repr h E t Hr) as (root & ext & Hclone & Hlaid & Hclosed).
  rewrite (bind_Ret _ _ _ _ _ Hclone).
  rewrite <- (repr_key _ _ _ Hrty).
  destruct (ToPropertyKey dtoa tyv) as [key| |] eqn:Hkey.
  - exists tyv, root, (h ++ ext). split; [|split; [done|]].
    + split; [by eexists|done].
    + apply bind_ext_l. intros. by apply innerOf_eq.
  - by destruct tyv.
  - unfold bind at 1. unfold innerOf.
    assert (∃ osm, getProp root "osm" (h ++ ext) = Ret (osm, h ++ ext)) as [osm Hosm].
    { pose proof (repr_getProp _ _ _ "osm" (laid_repr _ _ _ _ _ Hlaid)) as Ho.
      assert (∃ c, tree_get t "osm" = Ret c) as [c Hc].
      { unfold tree_get in *. destruct t as [[]| |]; try done; by eexists. }
      rewrite Hc in Ho. destruct Ho as (osm & ? & _). by exists osm. }
    rewrite (bind_Ret _ _ _ _ _ Hosm). unfold lift. rewrite Hkey. done.
Qed.

Lemma Forall_fresh_set_field n k x (ps : list (string * value)) :
  Forall (fresh n) ps.*2 → fresh n x → Forall (fresh n) (set_field k x ps).*2.
Proof.
  intros Hps Hx. induction ps as [|[k' y] ps IH]; csimpl in *.
  - by constructor.
  - apply Forall_cons in Hps as [Hy Hps]. case_decide; csimpl; constructor; auto.
Qed.

Lemma prefix_lookup (h h' : heap) x :
  h `prefix_of` h' → x < length h → h' !! x = h !! x.
Proof. intros [e ->] Hx. by rewrite lookup_app_l. Qed.

(** Writing the cell of a node reached in a copy: what the root denotes
    afterwards. *)
Lemma commit h0 h1 hi h2 root t ks vi a li psi fs ps' fs' :
  copied h0 h1 hi root t →
  tree_get_path t ks = Ret (TObject fs) →
  vi = VRef li →
  h1 !! li = Some (CObject psi) →
  chain (λ a b p f, p.1 = f.1 ∧ laid h1 a b p.2 f.2) a li psi fs →
  length h0 ≤ a →
  (∀ h2 tc',
     (∀ x, length h0 ≤ x < hi → ¬ (a ≤ x < S li) → h2 !! x = h1 !! x) →
     repr h2 vi tc' → repr h2 root (tree_put_path t ks tc')) →
  h1 `prefix_of` h2 →
  closed (length h0) h2 →
  Forall (fresh (length h0)) ps'.*2 →
  (Forall2 (λ p f, p.1 = f.1 ∧ repr (<[li := CObject ps']> h2) p.2 f.2) psi fs →
   Forall2 (λ p f, p.1 = f.1 ∧ repr (<[li := CObject ps']> h2) p.2 f.2) ps' fs') →
  result_ok h0 (Ret (root, <[li := CObject ps']> h2))
    (tree_put_path t ks (TObject fs')).
Proof.
  intros (Hpre & Hhi & Hlaid & Hcl) Hget -> Hli Hch Ha Hctx Hpre2 Hcl2 Hfresh Hfields.
  pose proof (laid_fields_le _ _ _ _ _ Hch) as Hale.
  pose proof (lookup_lt_Some _ _ _ Hli) as Hlt.
  assert (∃ lr, root = VRef lr) as [lr ->].
  { eapply laid_node_ref; [exact Hlaid|].
    destruct t as [p| |]; [|done..]. by apply tree_get_path_prim in Hget. }
  apply laid_ref in Hlaid as Hlr. destruct Hlr as [Hlr _].
  pose proof (prefix_length _ _ Hpre2) as Hlen.
  exists lr, (<[li := CObject ps']> h2). split; [done|]. split; [|split; [done|split]].
  - destruct Hpre as [e1 ->]. destruct Hpre2 as [e2 ->].
    rewrite <- app_assoc. rewrite insert_app_r_alt by lia. by eexists.
  - by apply closed_insert.
  - assert (∀ x, x < length h1 → x ≠ li → <[li := CObject ps']> h2 !! x = h1 !! x)
      as Hag.
    { intros x Hx Hne. rewrite list_lookup_insert_ne by done.
      by apply prefix_lookup. }
    apply Hctx.
    + intros x Hx Hnot. apply Hag; lia.
    + apply repr_object with ps'.
      { rewrite list_lookup_insert_eq; [done | lia]. }
      apply Hfields. eapply laid_fields_repr; [exact Hch|].
      intros x Hx. apply Hag; lia.
Qed.

Lemma newTag_spec k v h :
  let h' := h ++ [CObject [("k", VStr k); ("v", VStr v)];
                  CObject [("$", VRef (length h))]] in
  newTag k v h = Ret (VRef (S (length h)), h') ∧
  laid h' (length h) (S (S (length h))) (VRef (S (length h))) (tag_tree k v).
Proof.
  split.
  - unfold newTag, bind, alloc. rewrite length_app. simpl.
    rewrite Nat.add_1_r, <- app_assoc. done.
  - unfold tag_tree.
    assert ((h ++ [CObject [("k", VStr k); ("v", VStr v)]; CObject [("$", VRef (length h))]])
              !! length h = Some (CObject [("k", VStr k); ("v", VStr v)])) as H1.
    { by rewrite list_lookup_middle. }
    assert ((h ++ [CObject [("k", VStr k); ("v", VStr v)]; CObject [("$", VRef (length h))]])
              !! S (length h) = Some (CObject [("$", VRef (length h))])) as H2.
    { rewrite lookup_app_r by lia. by replace (S (length h) - length h) with 1 by lia. }
    eapply laid_object; [|exact H2].
    econstructor; [|constructor]. split; [done|]. simpl.
    eapply laid_object; [|exact H1].
    econstructor; [split; [done|]; constructor|].
    econstructor; [split; [done|]; constructor|]. constructor.
Qed.

Lemma repr_toString h v t : repr h v t → toString dtoa v = tree_toString dtoa t.
Proof. by inversion 1. Qed.

Lemma formatTag_sim h pv tp name :
  repr h pv tp →
  match (let? x := tree_get tp name in
         let? v := tree_toString dtoa x in Ret (tag_tree name v)) with
  | Ret tg => ∃ v, tg = tag_tree name v ∧ formatTag dtoa pv name h = newTag name v h
  | Throw => formatTag dtoa pv name h = Throw
  | Unsupported => formatTag dtoa pv name h = Unsupported
  end.
Proof.
  intros Hr.
  assert (formatTag dtoa pv name h =
          (let! x := getProp pv name in
           let! v := lift (toString dtoa x) in newTag name v) h) as -> by done.
  pose proof (repr_getProp h pv tp name Hr) as Hg.
  destruct (tree_get tp name) as [tx| |]; cbn [obind];
    [|by apply bind_Throw|done].
  destruct Hg as (x & Hg & Hx). rewrite (bind_Ret _ _ _ _ _ Hg).
  unfold lift, bind. rewrite (repr_toString _ _ _ Hx).
  destruct (tree_toString dtoa tx) as [v| |]; cbn [obind]; [|done..].
  by exists v.
Qed.

(** Formatting the properties into new tags. *)
Lemma formatted_sim n h pv tp names :
  repr h pv tp → closed n h → n ≤ length h →
  match formatted_tags dtoa tp names with
  | Ret ts =>
      ∃ vs ext,
        mapM_M (formatTag dtoa pv) names h = Ret (vs, h ++ ext) ∧
        closed n (h ++ ext) ∧
        Forall2 (λ v t, ∃ a b, laid (h ++ ext) a b v t ∧
                               length h ≤ a ∧ b ≤ length (h ++ ext)) vs ts
  | Throw => mapM_M (formatTag dtoa pv) names h = Throw
  | Unsupported => mapM_M (formatTag dtoa pv) names h = Unsupported
  end.
Proof.
  revert h. unfold formatted_tags.
  induction names as [|name names IH]; intros h Hr Hcl Hn; cbn [mapM_o mapM_M].
  { exists [], []. rewrite app_nil_r. repeat split; done || constructor. }
  cbn [toString obind ToString].
  pose proof (formatTag_sim h pv tp name Hr) as Hs.
  destruct (let? x := tree_get tp name in _) as [tg| |]; cbn [obind];
    [|by apply bind_Throw|by apply bind_Unsupported].
  destruct Hs as (v & -> & Hs).
  destruct (newTag_spec name v h) as [Hnew Hlt]. rewrite Hnew in Hs.
  set (h' := h ++ _) in *.
  assert (closed n h') as Hcl'.
  { unfold h'. change [?c1; ?c2] with ([c1] ++ [c2]). rewrite app_assoc.
    apply closed_app; [apply closed_app; [done|]|]; simpl; repeat constructor.
    simpl. lia. }
  assert (length h' = S (S (length h))) as Hlen.
  { unfold h'. rewrite length_app. simpl. lia. }
  specialize (IH h' (repr_ext _ _ _ _ Hr) Hcl' ltac:(lia)).
  rewrite (bind_Ret _ _ _ _ _ Hs).
  destruct (mapM_o _ names) as [ts| |]; cbn [obind];
    [|by apply bind_Throw|by apply bind_Unsupported].
  destruct IH as (vs & ext & Hm & Hcl2 & Hf2).
  rewrite (bind_Ret _ _ _ _ _ Hm). unfold ret.
  exists (VRef (S (length h)) :: vs),
    ([CObject [("k", VStr name); ("v", VStr v)];
      CObject [("$", VRef (length h))]] ++ ext).
  rewrite app_assoc. fold h'. repeat split; try done.
  constructor.
  - exists (length h), (S (S (length h))). split; [by apply laid_ext|].
    rewrite length_app. lia.
  - eapply Forall2_impl; [exact Hf2|]. intros v' t' (a & b & ? & ? & ?).
    exists a, b. split; [done|]. lia.
Qed.

Lemma laid_reached h lo hi v t ks :
  laid h lo hi v t →
  sim (getPath v ks h) h (tree_get_path t ks)
    (λ vc tc, ∃ a b, reached h lo hi v t ks a b vc tc).
Proof.
  intros Hl. pose proof (laid_path _ _ _ _ _ ks Hl) as Hp. unfold sim.
  destruct (tree_get_path t ks) as [tc| |]; [|done..].
  destruct Hp as (vc & a & b & Hg & Hvc & Hn). exists vc. split; [done|].
  by exists a, b.
Qed.

Lemma store_tags_spec h0 h1 hi h2 root t ks vi ti a b items ts :
  copied h0 h1 hi root t →
  tree_get_path t ks = Ret ti →
  reached h1 (length h0) hi root t ks a b vi ti →
  h1 `prefix_of` h2 →
  closed (length h0) h2 →
  Forall2 (λ v t, ∃ a' b', laid h2 a' b' v t ∧ length h0 ≤ a' ∧ b' ≤ length h2 ∧
                           (b' < b ∨ length h1 ≤ a')) items ts →
  refines h0 (store_tags root vi items h2)
    (let? inner' := tree_assign_o ti "tag" (TArray ts) in
     Ret (tree_put_path t ks inner')).
Proof.
  intros Hcop Hget [Hvi Hnode] Hpre2 Hcl2 Hitems.
  pose proof Hcop as (Hpre & Hhi & Hlaid & Hcl).
  pose proof (prefix_length _ _ Hpre) as Hlen1.
  pose proof (prefix_length _ _ Hpre2) as Hlen2.
  unfold store_tags. unfold bind at 1. unfold alloc.
  inversion Hvi as [? p|? li psi fs Hch Hli|? li vs ts' Hch Hli]; subst; simpl.
  - done.
  - destruct (Hnode I) as (Ha & Hb & _ & Hctx).
    pose proof (laid_fields_le _ _ _ _ _ Hch) as Hale.
    assert ((h2 ++ [CArray items]) !! li = Some (CObject psi)) as Hli2.
    { rewrite lookup_app_l by lia. rewrite (prefix_lookup h1 h2) by (done || lia). done. }
    unfold bind, setProp. rewrite Hli2. unfold ret.
    eapply commit; try done.
    + by apply prefix_app_r.
    + apply closed_app; [done|]. simpl.
      eapply Forall2_Forall_l; [exact Hitems|]. apply Forall_true.
      intros x tx (a' & b' & Hx & ? & _). by eapply laid_fresh.
    + apply Forall_fresh_set_field; [|simpl; lia].
      eapply (Hcl li (CObject psi)); [lia | done].
    + intros Hfs. apply Forall2_set_field; [done|].
      apply repr_array with items.
      { rewrite list_lookup_insert_ne by lia. by rewrite list_lookup_middle. }
      eapply Forall2_impl; [exact Hitems|].
      intros x tx (a' & b' & Hx & ? & ? & Hside). eapply laid_repr.
      eapply laid_frame; [exact Hx|]. intros y Hy.
      rewrite list_lookup_insert_ne by lia. by rewrite lookup_app_l by lia.
  - assert ((h2 ++ [CArray items]) !! li = Some (CArray vs)) as Hli2.
    { apply laid_ref in Hvi as [? _]. destruct (Hnode I) as (Ha & Hb & _).
      rewrite lookup_app_l by lia. rewrite (prefix_lookup h1 h2) by (done || lia). done. }
    unfold bind, setProp. by rewrite Hli2.
Qed.

Lemma sim_bind {A B A' B'} (c : M A) (k : A → M B) h (o : outcome A')
    (k' : A' → outcome B') (R : A → A' → Prop) (Q : B → B' → Prop) :
  sim (c h) h o R →
  (∀ a a', R a a' → sim (k a h) h (k' a') Q) →
  sim (bind c k h) h (obind o k') Q.
Proof.
  intros Hc Hk. unfold sim in Hc. destruct o as [a'| |]; simpl.
  - destruct Hc as (a & Hc & Ha). rewrite (bind_Ret _ _ _ _ _ Hc). by apply Hk.
  - by rewrite (bind_Throw _ _ _ Hc).
  - by rewrite (bind_Unsupported _ _ _ Hc).
Qed.

Lemma sim_lift {A} (o : outcome A) h : sim (lift o h) h o eq.
Proof. destruct o; simpl; [by eexists|done..]. Qed.

Lemma sim_ret {A B} (a : A) (b : B) h (R : A → B → Prop) :
  R a b → sim (ret a h) h (Ret b) R.
Proof. intros. by exists a. Qed.

(** The test a filter runs on one tag: read [tag.$.k], then decide. *)
Lemma tag_test_sim h lo x tx a b (cont : value → M bool)
    (tcont : tree → outcome bool) :
  laid h a b x tx → lo ≤ a →
  (∀ vk tk a' b', laid h a' b' vk tk → (is_node tk → lo ≤ a') →
                  sim (cont vk h) h (tcont tk) eq) →
  sim ((let! k := tagKey x in cont k) h) h
    (let? k := tree_tagKey tx in tcont k) eq.
Proof.
  intros Hx Hlo Hcont. eapply sim_bind.
  - rewrite tagKey_getPath. by apply laid_getPath.
  - intros vk tk (a' & b' & Hk & Hn). eapply Hcont; [done|].
    intros Htk. specialize (Hn Htk). lia.
Qed.

Lemma sim_impl {A B} (r : outcome (A * heap)) h (o : outcome B)
    (R R' : A → B → Prop) :
  sim r h o R → (∀ a b, R a b → R' a b) → sim r h o R'.
Proof.
  unfold sim. destruct o; [|done..]. intros (x & ? & ?) HR. exists x. auto.
Qed.

(** A read-only step in front of a run. *)
Lemma refines_bind {A A'} h (c : M A) (k : A → M value) h1 (o : outcome A')
    (k' : A' → outcome tree) (R : A → A' → Prop) :
  sim (c h1) h1 o R →
  (∀ a a', o = Ret a' → R a a' → refines h (k a h1) (k' a')) →
  refines h (bind c k h1) (obind o k').
Proof.
  intros Hc Hk. unfold sim in Hc. destruct o as [a'| |]; simpl.
  - destruct Hc as (a & Hc & Ha). rewrite (bind_Ret _ _ _ _ _ Hc). by apply Hk.
  - by rewrite (bind_Throw _ _ _ Hc).
  - by rewrite (bind_Unsupported _ _ _ Hc).
Qed.

Lemma tree_get_node t k tc : tree_get t k = Ret tc → is_node tc → is_node t.
Proof. destruct t as [[]| |]; simpl; try done; by intros [= <-]. Qed.

(** Reading [innerElement.tag]. *)
Lemma tag_sim h lo hi v t ks a b vi ti :
  reached h lo hi v t ks a b vi ti →
  sim (getProp vi "tag" h) h (tree_get ti "tag")
    (λ vt tt, ∃ a' b', laid h a' b' vt tt ∧
                       (is_node tt → lo ≤ a' ∧ b' ≤ b ∧ b ≤ hi)).
Proof.
  intros [Hvi Hnode]. rewrite <- getPath_one.
  pose proof (laid_path _ _ _ _ _ ["tag"] Hvi) as Hp. unfold sim.
  cbn [tree_get_path] in Hp.
  destruct (tree_get ti "tag") as [tt| |] eqn:Htt; cbn [obind] in Hp; [|done..].
  destruct Hp as (vt & a' & b' & Hg & Hvt & Hn). exists vt. split; [done|].
  exists a', b'. split; [done|]. intros Hnt.
  destruct (Hn Hnt) as (? & ? & _).
  destruct (Hnode (tree_get_node _ _ _ Htt Hnt)) as (? & ? & _). lia.
Qed.

(** Filtering the tags that were read. *)
Lemma kept_sim h lo hi b a' b' vt tt (cont : value → M bool)
    (tcont : tree → outcome bool) :
  laid h a' b' vt tt →
  (is_node tt → lo ≤ a' ∧ b' ≤ b ∧ b ≤ hi) →
  (∀ vk tk a b, laid h a b vk tk → (is_node tk → lo ≤ a) →
                sim (cont vk h) h (tcont tk) eq) →
  sim (filter_array vt (λ tag, let! k := tagKey tag in cont k) h) h
    (tree_filter tt (λ tg, let? k := tree_tagKey tg in tcont k))
    (Forall2 (λ x tx, ∃ a b', laid h a b' x tx ∧ lo ≤ a ∧ b' < b ∧ b' ≤ hi)).
Proof.
  intros Hvt Hn Hcont.
  destruct tt as [p|fs|ts].
  - apply laid_prim_inv in Hvt as ->. done.
  - inversion Hvt as [|? l ps ? Hch Hh|]; subst. simpl. unfold filter_array.
    by rewrite Hh.
  - destruct (Hn I) as (? & ? & ?).
    eapply sim_impl; [eapply filter_sim; [exact Hvt|]|].
    + intros x tx a b0 Hx ? ?. eapply (tag_test_sim _ lo); [done|lia|].
      intros. by eapply Hcont.
    + intros kv kt Hf. eapply Forall2_impl; [exact Hf|].
      intros x tx (a & b0 & ? & ? & ?). exists a, b0. split; [done|]. lia.
Qed.

Lemma setProperty_refines h E t propertyName propertyValue :
  repr h E t →
  refines h (setProperty dtoa E propertyName propertyValue h)
    (setProperty_tree dtoa t propertyName propertyValue).
Proof.
  intros Hr.
  pose proof (enter_spec h E t
    (λ _ newElement innerElement,
       let! tag := getProp innerElement "tag" in
       let! filteredTags :=
         if truthy tag
         then filter_array tag
                (λ tag,
                   let! k := tagKey tag in
                   let! name := lift (toString dtoa propertyName) in
                   ret (negb (strict_eq k (VStr name))))
         else ret [] in
       let! k := lift (toString dtoa propertyName) in
       let! v := lift (toString dtoa propertyValue) in
       let! new := newTag k v in
       store_tags newElement innerElement (filteredTags ++ [new])) Hr) as He.
  change (enter _ _ _ _) with (setProperty dtoa E propertyName propertyValue h) in He.
  unfold setProperty_tree.
  destruct (element_key dtoa t) as [key| |]; cbn [obind]; [|done..].
  destruct He as (tyv & root & h1 & Hcop & Hkey & ->).
  pose proof Hcop as (Hpre & Hhi & Hlaid & Hcl).
  eapply refines_bind; [by apply laid_reached|].
  intros vi ti Hti (a & b & Hreach).
  eapply refines_bind; [by eapply tag_sim|].
  intros vt tt Htt (a' & b' & Hvt & Hnt).
  rewrite (laid_truthy _ _ _ _ _ Hvt).
  eapply (refines_bind _ _ _ _ _ _
            (Forall2 (λ x tx, ∃ a0 b0, laid h1 a0 b0 x tx ∧ length h ≤ a0 ∧
                                       b0 < b ∧ b0 ≤ length h1))).
  { destruct (tree_truthy tt); [|apply sim_ret; constructor].
    eapply kept_sim; [exact Hvt|exact Hnt|].
    intros vk tk a0 b0 Hk Hn0. eapply sim_bind; [apply sim_lift|].
    intros name ? <-. apply sim_ret. f_equal.
    by eapply laid_strict_eq. }
  intros kv kt _ Hkept.
  eapply refines_bind; [apply sim_lift|]. intros k ? _ <-.
  eapply refines_bind; [apply sim_lift|]. intros v ? _ <-.
  destruct (newTag_spec k v h1) as [Hnew Hlt]. rewrite (bind_Ret _ _ _ _ _ Hnew).
  set (h2 := h1 ++ _) in *.
  pose proof (prefix_length _ _ Hpre) as Hlen.
  assert (length h2 = S (S (length h1))) as Hlen2.
  { unfold h2. rewrite length_app. simpl. lia. }
  eapply store_tags_spec; [exact Hcop|exact Hti|exact Hreach| | |].
  - by apply prefix_app_r.
  - unfold h2. change [?c1; ?c2] with ([c1] ++ [c2]). rewrite app_assoc.
    apply closed_app; [apply closed_app; [done|]|]; simpl; repeat constructor.
    simpl. lia.
  - apply Forall2_app.
    + eapply Forall2_impl; [exact Hkept|].
      intros x tx (a0 & b0 & Hx & ? & ? & ?). exists a0, b0.
      split; [by apply laid_ext|]. lia.
    + constructor; [|constructor]. exists (length h1), (S (S (length h1))).
      split; [done|]. lia.
Qed.

Lemma removeProperty_refines h E t propertyName :
  repr h E t →
  known (length h) propertyName →
  refines h (removeProperty dtoa E propertyName h)
    (removeProperty_tree dtoa t propertyName).
Proof.
  intros Hr Hknown.
  pose proof (enter_spec h E t
    (λ _ newElement innerElement,
       let! tag := getProp innerElement "tag" in
       let! filteredTags :=
         filter_array tag
           (λ tag,
              let! k := tagKey tag in
              ret (negb (strict_eq k propertyName))) in
       store_tags newElement innerElement filteredTags) Hr) as He.
  change (enter _ _ _ _) with (removeProperty dtoa E propertyName h) in He.
  unfold removeProperty_tree.
  destruct (element_key dtoa t) as [key| |]; cbn [obind]; [|done..].
  destruct He as (tyv & root & h1 & Hcop & Hkey & ->).
  pose proof Hcop as (Hpre & Hhi & Hlaid & Hcl).
  eapply refines_bind; [by apply laid_reached|].
  intros vi ti Hti (a & b & Hreach).
  eapply refines_bind; [by eapply tag_sim|].
  intros vt tt Htt (a' & b' & Hvt & Hnt).
  eapply refines_bind.
  { eapply kept_sim; [exact Hvt|exact Hnt|].
    intros vk tk a0 b0 Hk Hn0. apply sim_ret. f_equal.
    by eapply laid_strict_eq. }
  intros kv kt _ Hkept.
  eapply store_tags_spec; [exact Hcop|exact Hti|exact Hreach|done|done|].
  eapply Forall2_impl; [exact Hkept|].
  intros x tx (a0 & b0 & Hx & ? & ? & ?). exists a0, b0. split; [done|]. lia.
Qed.

(** Going on from the inner element to its attributes. *)
Lemma enter_attrs {A} root key (k : value → M A) h :
  bind (getPath root (inner_path key))
    (λ inner, let! attrs := getProp inner "$" in k attrs) h =
  bind (getPath root (attrs_path key)) k h.
Proof.
  change (attrs_path key) with (inner_path key ++ ["$"]).
  rewrite <- (bind_assoc (getPath root (inner_path key)) (λ c, getProp c "$") k).
  apply bind_ext_l. intros h'. symmetry. apply getPath_snoc.
Qed.

(** Assigning to the attributes that were reached. *)
Lemma set_attrs_spec h0 h1 hi root t ks va ta a b li psa ps' fs' :
  copied h0 h1 hi root t →
  tree_get_path t ks = Ret ta →
  reached h1 (length h0) hi root t ks a b va ta →
  (∀ fs, ta = TObject fs →
         va = VRef li ∧ h1 !! li = Some (CObject psa) →
         Forall (fresh (length h0)) psa.*2 →
         Forall (fresh (length h0)) ps'.*2 ∧
         ∀ hf, Forall2 (λ p f, p.1 = f.1 ∧ repr hf p.2 f.2) psa fs →
               Forall2 (λ p f, p.1 = f.1 ∧ repr hf p.2 f.2) ps' (fs' fs)) →
  match ta with
  | TObject fs =>
      va = VRef li ∧ h1 !! li = Some (CObject psa) →
      result_ok h0 (Ret (root, <[li := CObject ps']> h1))
        (tree_put_path t ks (TObject (fs' fs)))
  | _ => True
  end.
Proof.
  intros Hcop Hget [Hva Hnode] Hps. destruct ta as [|fs|]; [done| |done].
  intros [-> Hli]. destruct (Hnode I) as (Ha & Hb & _ & Hctx).
  inversion Hva as [| ? ? psa' ? Hch Hli'|]; subst. simplify_eq.
  pose proof Hcop as (Hpre & Hhi & Hlaid & Hcl).
  pose proof (laid_fields_le _ _ _ _ _ Hch).
  destruct (Hps fs eq_refl (conj eq_refl Hli)) as [Hfr Hf2].
  { eapply (Hcl li (CObject psa)); [lia | done]. }
  eapply commit; try done. apply Hf2.
Qed.

Lemma reached_object h lo hi v t ks a b va fs :
  reached h lo hi v t ks a b va (TObject fs) →
  ∃ li psa, va = VRef li ∧ b = S li ∧ h !! li = Some (CObject psa).
Proof. intros [Hva _]. inversion Hva; subst. by eexists _, _. Qed.

Lemma setProp_object li ps k x (h : heap) :
  h !! li = Some (CObject ps) →
  setProp (VRef li) k x h = Ret (tt, <[li := CObject (set_field k x ps)]> h).
Proof. unfold setProp. by intros ->. Qed.

Lemma setProp_other h lo hi v t ks a b va ta k x :
  reached h lo hi v t ks a b va ta →
  match ta with
  | TPrim _ => setProp va k x h = Throw
  | TArray _ => setProp va k x h = Unsupported
  | TObject _ => True
  end.
Proof.
  intros [Hva _]. inversion Hva as [|?|? l vs ts Hch Hl]; subst; [done..|].
  unfold setProp. by rewrite Hl.
Qed.

Lemma setTimestampToNow_refines now h E t :
  repr h E t →
  refines h (setTimestampToNow dtoa now E h) (setTimestampToNow_tree dtoa now t).
Proof.
  intros Hr.
  pose proof (enter_spec h E t
    (λ _ newElement inner,
       let! attrs := getProp inner "$" in
       let! _ := setProp attrs "timestamp" (VStr now) in
       ret newElement) Hr) as He.
  change (enter _ _ _ _) with (setTimestampToNow dtoa now E h) in He.
  unfold setTimestampToNow_tree.
  destruct (element_key dtoa t) as [key| |]; cbn [obind]; [|done..].
  destruct He as (tyv & root & h1 & Hcop & Hkey & ->).
  pose proof Hcop as (Hpre & Hhi & Hlaid & Hcl).
  rewrite enter_attrs.
  eapply refines_bind; [by apply laid_reached|].
  intros va ta Hta (a & b & Hreach).
  pose proof (setProp_other _ _ _ _ _ _ _ _ _ _ "timestamp" (VStr now) Hreach) as Ho.
  destruct ta as [p|fs|ts]; cbn [tree_assign_o obind];
    [unfold refines; by apply bind_Throw| |unfold refines; by apply bind_Unsupported].
  destruct (reached_object _ _ _ _ _ _ _ _ _ _ Hreach) as (li & psa & -> & -> & Hli).
  rewrite (bind_Ret _ _ _ _ _ (setProp_object _ _ _ _ _ Hli)). unfold ret.
  eapply (set_attrs_spec _ _ _ _ _ _ _ _ _ _ li psa _ (set_field "timestamp" (TStr now))
            Hcop Hta Hreach); [|done].
  intros fs0 _ _ Hfr. split; [by apply Forall_fresh_set_field|].
  intros hf Hf. apply Forall2_set_field; [done|constructor].
Qed.

Lemma setVersion_refines h E t version :
  repr h E t →
  refines h (setVersion dtoa E version h) (setVersion_tree dtoa t version).
Proof.
  intros Hr.
  pose proof (enter_spec h E t
    (λ _ newElement innerElement,
       let! attrs := getProp innerElement "$" in
       let! n := lift (parseInt dtoa version) in
       let! _ := setProp attrs "version" (VStr (Number_toString dtoa n)) in
       ret newElement) Hr) as He.
  change (enter _ _ _ _) with (setVersion dtoa E version h) in He.
  unfold setVersion_tree.
  destruct (element_key dtoa t) as [key| |]; cbn [obind]; [|done..].
  destruct He as (tyv & root & h1 & Hcop & Hkey & ->).
  rewrite enter_attrs.
  eapply refines_bind; [apply laid_reached, Hcop|].
  intros va ta Hta (a & b & Hreach).
  eapply refines_bind; [apply sim_lift|]. intros n ? _ <-.
  pose proof (setProp_other _ _ _ _ _ _ _ _ _ _ "version"
                (VStr (Number_toString dtoa n)) Hreach) as Ho.
  destruct ta as [p|fs|ts]; cbn [tree_assign_o obind];
    [unfold refines; by apply bind_Throw| |unfold refines; by apply bind_Unsupported].
  destruct (reached_object _ _ _ _ _ _ _ _ _ _ Hreach) as (li & psa & -> & -> & Hli).
  rewrite (bind_Ret _ _ _ _ _ (setProp_object _ _ _ _ _ Hli)). unfold ret.
  eapply (set_attrs_spec _ _ _ _ _ _ _ _ _ _ li psa _
            (set_field "version" (TStr (Number_toString dtoa n)))
            Hcop Hta Hreach); [|done].
  intros fs0 _ _ Hfr. split; [by apply Forall_fresh_set_field|].
  intros hf Hf. apply Forall2_set_field; [done|constructor].
Qed.

Lemma setCoordinates_refines h E t lat lon :
  repr h E t →
  refines h (setCoordinates dtoa E lat lon h) (setCoordinates_tree dtoa t lat lon).
Proof.
  intros Hr.
  pose proof (enter_spec h E t
    (λ elementType newElement inner1,
       let! attrs1 := getProp inner1 "$" in
       let! lat' := lift (toString dtoa lat) in
       let! _ := setProp attrs1 "lat" (VStr lat') in
       let! inner2 := innerOf dtoa newElement elementType in
       let! attrs2 := getProp inner2 "$" in
       let! lon' := lift (toString dtoa lon) in
       let! _ := setProp attrs2 "lon" (VStr lon') in
       ret newElement) Hr) as He.
  change (enter _ _ _ _) with (setCoordinates dtoa E lat lon h) in He.
  unfold setCoordinates_tree.
  destruct (element_key dtoa t) as [key| |]; cbn [obind]; [|done..].
  destruct He as (tyv & root & h1 & Hcop & Hkey & ->).
  rewrite enter_attrs.
  eapply refines_bind; [apply laid_reached, Hcop|].
  intros va ta Hta (a & b & Hreach).
  eapply refines_bind; [apply sim_lift|]. intros lat' ? _ <-.
  pose proof (setProp_other _ _ _ _ _ _ _ _ _ _ "lat" (VStr lat') Hreach) as Ho.
  destruct ta as [p|fs|ts]; cbn [tree_assign_o obind];
    [unfold refines; by apply bind_Throw| |unfold refines; by apply bind_Unsupported].
  destruct (reached_object _ _ _ _ _ _ _ _ _ _ Hreach) as (li & psa & -> & -> & Hli).
  rewrite (bind_Ret _ _ _ _ _ (setProp_object _ _ _ _ _ Hli)).
  set (h1' := <[li := _]> h1).
  pose proof Hreach as [Hva Hnode]. destruct (Hnode I) as (Ha & Hb & Hst & _).
  assert (getPath root (attrs_path key) h1' = Ret (VRef li, h1')) as Hnav.
  { apply Hst. intros x Hx. unfold h1'. by rewrite list_lookup_insert_ne by lia. }
  rewrite (bind_ext_l _ (getPath root (inner_path key)))
    by (intros; by apply innerOf_eq).
  rewrite enter_attrs. rewrite (bind_Ret _ _ _ _ _ Hnav).
  eapply refines_bind; [apply sim_lift|]. intros lon' ? _ <-.
  assert (h1' !! li = Some (CObject (set_field "lat" (VStr lat') psa))) as Hli'.
  { unfold h1'. rewrite list_lookup_insert_eq; [done|]. by eapply lookup_lt_Some. }
  rewrite (bind_Ret _ _ _ _ _ (setProp_object _ _ _ _ _ Hli')). unfold ret, h1'.
  rewrite list_insert_insert_eq.
  eapply (set_attrs_spec _ _ _ _ _ _ _ _ _ _ li psa _
            (λ fs, set_field "lon" (TStr lon') (set_field "lat" (TStr lat') fs))
            Hcop Hta Hreach); [|done].
  intros fs0 _ _ Hfr. split.
  { apply Forall_fresh_set_field; [by apply Forall_fresh_set_field | done]. }
  intros hf Hf. do 2 (apply Forall2_set_field; [|constructor]). done.
Qed.

Lemma fresh_mono n m v : n ≤ m → fresh m v → fresh n v.
Proof. destruct v; simpl; [done | lia]. Qed.

Lemma closed_trans n (h1 ext : heap) :
  closed n h1 → closed (length h1) (h1 ++ ext) → n ≤ length h1 →
  closed n (h1 ++ ext).
Proof.
  intros H1 H2 Hn l c Hl Hc.
  destruct (decide (l < length h1)) as [Hlt|Hge].
  - rewrite lookup_app_l in Hc by done. by eapply H1.
  - eapply Forall_impl; [eapply (H2 l c); [lia | done]|].
    intros v. by apply fresh_mono.
Qed.

Lemma keys_sim h a b v t :
  laid h a b v t → sim (Object_keys v h) h (tree_keys t) eq.
Proof.
  intros Hl. inversion Hl as [? p|? l ps fs Hch Hh|? l vs ts Hch Hh]; subst; simpl.
  - destruct p; simpl; try done; by eexists.
  - rewrite Hh. eexists. split; [done|]. by eapply laid_fields_keys.
  - by rewrite Hh.
Qed.

Lemma innerOf_spec {A} h lo hi root t tyv ty (K : value → M A) :
  laid h lo hi root t → repr h tyv ty → tree_get t "_type" = Ret ty →
  match tree_key dtoa ty with
  | Ret key =>
      bind (innerOf dtoa root tyv) K h = bind (getPath root (inner_path key)) K h
  | Throw => False
  | Unsupported => bind (innerOf dtoa root tyv) K h = Unsupported
  end.
Proof.
  intros Hlaid Hty Hget. rewrite <- (repr_key _ _ _ Hty).
  destruct (ToPropertyKey dtoa tyv) as [key| |] eqn:Hkey.
  - apply bind_ext_l. intros. by apply innerOf_eq.
  - by destruct tyv.
  - apply bind_Unsupported. unfold innerOf.
    assert (∃ osm, getProp root "osm" h = Ret (osm, h)) as [osm Hosm].
    { pose proof (repr_getProp _ _ _ "osm" (laid_repr _ _ _ _ _ Hlaid)) as Ho.
      assert (∃ c, tree_get t "osm" = Ret c) as [c Hc].
      { unfold tree_get in *. destruct t as [[]| |]; try done; by eexists. }
      rewrite Hc in Ho. destruct Ho as (osm & ? & _). by exists osm. }
    rewrite (bind_Ret _ _ _ _ _ Hosm). unfold lift, bind. by rewrite Hkey.
Qed.

Lemma obind_assoc {A B C} (o : outcome A) (f : A → outcome B)
    (g : B → outcome C) :
  obind (obind o f) g = obind o (λ x, obind (f x) g).
Proof. by destruct o. Qed.

Lemma repr_getProp_sim h v t k :
  repr h v t → sim (getProp v k h) h (tree_get t k) (repr h).
Proof.
  intros Hr. pose proof (repr_getProp h v t k Hr) as Hg. unfold sim.
  by destruct (tree_get t k).
Qed.

Lemma setProperties_refines h E t properties tp :
  repr h E t →
  repr h properties tp →
  refines h (setProperties dtoa E properties h) (setProperties_tree dtoa t tp).
Proof.
  intros Hr Hrp. unfold setProperties, setProperties_tree.
  destruct (clone_repr h E t Hr) as (root & ext1 & Hclone1 & Hlaid1 & Hcl1).
  rewrite (bind_Ret _ _ _ _ _ Hclone1). set (h1 := h ++ ext1) in *.
  destruct (clone_repr h1 properties tp (repr_ext _ _ _ _ Hrp))
    as (cp & ext2 & Hclone2 & Hlaid2 & Hcl2).
  rewrite (bind_Ret _ _ _ _ _ Hclone2). set (h2 := h1 ++ ext2) in *.
  assert (length h ≤ length h1) as Hlen1 by (unfold h1; rewrite length_app; lia).
  assert (length h1 ≤ length h2) as Hlen2 by (unfold h2; rewrite length_app; lia).
  assert (copied h h2 (length h1) root t) as Hcop.
  { split; [|split; [done|split]].
    - unfold h2, h1. rewrite <- app_assoc. by eexists.
    - by apply laid_ext.
    - by apply closed_trans. }
  eapply refines_bind; [by eapply keys_sim|]. intros names ? _ <-.
  unfold element_key. rewrite obind_assoc.
  eapply refines_bind.
  { apply (repr_getProp_sim h2 E t "_type"). unfold h2, h1. by do 2 apply repr_ext. }
  intros tyv ty Hty Hrty.
  pose proof (innerOf_spec h2 _ _ root t tyv ty
    (λ innerElement,
       let! tag := getProp innerElement "tag" in
       let! filteredTags :=
         if truthy tag
         then filter_array tag
                (λ tag, let! k := tagKey tag in ret (negb (includes names k)))
         else ret [] in
       let! formattedProperties := mapM_M (formatTag dtoa cp) names in
       let! tags := alloc (CArray (filteredTags ++ formattedProperties)) in
       let! _ := setProp innerElement "tag" tags in
       ret root) (proj1 (proj2 (proj2 Hcop))) Hrty Hty) as Hin.
  destruct (tree_key dtoa ty) as [key| |]; cbn [obind]; [|done..].
  rewrite Hin. clear Hin.
  eapply refines_bind; [apply laid_reached, Hcop|].
  intros vi ti Hti (a & b & Hreach).
  eapply refines_bind; [by eapply tag_sim|].
  intros vt tt Htt (a' & b' & Hvt & Hnt).
  rewrite (laid_truthy _ _ _ _ _ Hvt).
  eapply (refines_bind _ _ _ _ _ _
            (Forall2 (λ x tx, ∃ a0 b0, laid h2 a0 b0 x tx ∧ length h ≤ a0 ∧
                                       b0 < b ∧ b0 ≤ length h1))).
  { destruct (tree_truthy tt); [|apply sim_ret; constructor].
    eapply kept_sim; [exact Hvt|exact Hnt|].
    intros vk tk a0 b0 Hk Hn0. apply sim_ret. f_equal.
    by eapply laid_includes. }
  intros kv kt _ Hkept.
  pose proof (formatted_sim (length h) h2 cp tp names
                (laid_repr _ _ _ _ _ Hlaid2) (proj2 (proj2 (proj2 Hcop)))
                ltac:(lia)) as Hfm.
  destruct (formatted_tags dtoa tp names) as [ft| |]; cbn [obind];
    [|unfold refines; by apply bind_Throw|unfold refines; by apply bind_Unsupported].
  destruct Hfm as (fv & ext3 & Hfm & Hcl3 & Hfts).
  rewrite (bind_Ret _ _ _ _ _ Hfm).
  change (let! tags := alloc (CArray (kv ++ fv)) in
          let! _ := setProp vi "tag" tags in ret root)
    with (store_tags root vi (kv ++ fv)).
  eapply store_tags_spec; [exact Hcop|exact Hti|exact Hreach| |done|].
  - by apply prefix_app_r.
  - apply Forall2_app.
    + eapply Forall2_impl; [exact Hkept|].
      intros x tx (a0 & b0 & Hx & ? & ? & ?). exists a0, b0.
      split; [by apply laid_ext|]. rewrite length_app. lia.
    + eapply Forall2_impl; [exact Hfts|].
      intros x tx (a0 & b0 & Hx & ? & ?). exists a0, b0.
      split; [done|]. lia.
Qed.

Lemma lookup_app_add (h l : heap) i : (h ++ l) !! (length h + i) = l !! i.
Proof. rewrite lookup_app_r by lia. f_equal. lia. Qed.

Lemma alloc_app (h l : heap) c :
  alloc c (h ++ l) = Ret (VRef (length h + length l), h ++ (l ++ [c])).
Proof. unfold alloc. by rewrite length_app, <- app_assoc. Qed.

Lemma closed_0 (h : heap) : closed 0 h.
Proof.
  intros l c _ _. apply Forall_true. intros [p|l']; simpl; [done | lia].
Qed.

Lemma repr_keys_sim h v t :
  repr h v t → sim (Object_keys v h) h (tree_keys t) eq.
Proof.
  intros Hr. inversion Hr as [p|l ps fs Hl Hf|l vs ts Hl Hf]; subst; simpl.
  - destruct p; simpl; try done; by eexists.
  - rewrite Hl. eexists. split; [done|]. by eapply Forall2_fields_keys.
  - by rewrite Hl.
Qed.

Lemma getProp_app (h l : heap) i k :
  getProp (VRef (length h + i)) k (h ++ l) =
  match l !! i with
  | Some c => Ret (cell_get c k, h ++ l)
  | None => Unsupported
  end.
Proof. unfold getProp. by rewrite lookup_app_add. Qed.

Lemma meets_bind {A A' B B'} (P : outcome (B * heap) → B' → Prop)
    (c : M A) (k : A → M B) h1 (o : outcome A') (k' : A' → outcome B')
    (R : A → A' → Prop) :
  sim (c h1) h1 o R →
  (∀ a a', R a a' → meets P (k a h1) (k' a')) →
  meets P (bind c k h1) (obind o k').
Proof.
  intros Hc Hk. unfold sim in Hc. destruct o as [a'| |]; simpl.
  - destruct Hc as (a & Hc & Ha). rewrite (bind_Ret _ _ _ _ _ Hc). by apply Hk.
  - by rewrite (bind_Throw _ _ _ Hc).
  - by rewrite (bind_Unsupported _ _ _ Hc).
Qed.

(** The run of [createNodeElement] once [properties] is an object of the
    heap: [h] holds the caller's cells. *)
Lemma createNodeElement_run h lat lon props tlat tlon tp :
  repr h lat tlat → repr h lon tlon → repr h props tp →
  props ≠ undefined →
  meets (λ r t', ∃ ext, r = Ret (VRef (length h + 6), h ++ ext) ∧
                        repr (h ++ ext) (VRef (length h + 6)) t')
    (createNodeElement dtoa lat lon props h)
    (createNodeElement_tree dtoa tlat tlon tp).
Proof.
  intros Hlat Hlon Hprops Hne. unfold createNodeElement, createNodeElement_tree.
  assert ((match props with VPrim PUndefined => alloc (CObject []) | _ => ret props end)
          = ret props) as ->.
  { destruct props as [[]|]; done. }
  rewrite (bind_Ret _ _ _ props h) by done.
  rewrite (bind_Ret _ _ _ (VRef (length h)) (h ++ [CObject []])) by done.
  repeat (rewrite (bind_Ret _ _ _ _ _ (alloc_app _ _ _)); cbn [length app]).
  rewrite (bind_Ret _ _ _ (VRef (length h + 5)) _) by (by rewrite getProp_app).
  rewrite (bind_Ret _ _ _ (VRef (length h + 4)) _) by (by rewrite getProp_app).
  rewrite (bind_Ret _ _ _ (VRef (length h + 3)) _) by (by rewrite getProp_app).
  set (l := [CObject []; _; _; _; _; _; _]). set (ha := h ++ l).
  assert (length ha = length h + 7) as Hlen by (unfold ha; by rewrite length_app).
  eapply meets_bind; [apply repr_keys_sim; by apply repr_ext|].
  intros names ? <-.
  pose proof (formatted_sim 0 ha props tp names (repr_ext _ _ _ _ Hprops)
                (closed_0 _) ltac:(lia)) as Hfm.
  destruct (formatted_tags dtoa tp names) as [ft| |]; cbn [obind meets];
    [|by apply bind_Throw|by apply bind_Unsupported].
  destruct Hfm as (fv & ext & Hfm & _ & Hfts).
  rewrite (bind_Ret _ _ _ _ _ Hfm).
  rewrite (bind_Ret _ _ _ (VRef (length (ha ++ ext))) ((ha ++ ext) ++ [CArray fv]))
    by done.
  assert (((ha ++ ext) ++ [CArray fv]) !! (length h + 3)
          = Some (CObject [("$", VRef (length h + 1)); ("tag", VRef (length h + 2))]))
    as Hnode.
  { unfold ha. rewrite <- !app_assoc. by rewrite lookup_app_add. }
  rewrite (bind_Ret _ _ _ _ _ (setProp_object _ _ _ _ _ Hnode)). unfold ret.
  cbn [set_field]. rewrite decide_False by done. cbn [set_field].
  rewrite decide_True by done.
  set (hf := <[_ := _]> _).
  assert (∃ rest, hf = h ++ rest) as [rest Hrest].
  { unfold hf, ha. rewrite <- !app_assoc. rewrite insert_app_r_alt by lia.
    by eexists. }
  assert (∀ i c, i ≠ 3 → l !! i = Some c → hf !! (length h + i) = Some c) as Hl.
  { intros i c Hi Hc. unfold hf. rewrite list_lookup_insert_ne by lia.
    unfold ha. rewrite <- !app_assoc. rewrite lookup_app_add.
    by apply lookup_app_l_Some. }
  assert (hf !! (length h + 3)
          = Some (CObject [("$", VRef (length h + 1));
                           ("tag", VRef (length (ha ++ ext)))])) as H3.
  { unfold hf. rewrite list_lookup_insert_eq; [done|].
    rewrite !length_app. simpl. lia. }
  assert (hf !! length (ha ++ ext) = Some (CArray fv)) as Harr.
  { unfold hf. rewrite list_lookup_insert_ne by (rewrite length_app; lia).
    by rewrite list_lookup_middle. }
  exists rest. rewrite <- Hrest. split; [done|].
  assert (repr hf lat tlat) as Hlat' by (rewrite Hrest; by apply repr_ext).
  assert (repr hf lon tlon) as Hlon' by (rewrite Hrest; by apply repr_ext).
  assert (Forall2 (repr hf) fv ft) as Htags.
  { eapply Forall2_impl; [exact Hfts|]. intros v t (a & b & Hv & ? & ?).
    eapply laid_repr, laid_frame; [exact Hv|]. intros x Hx. unfold hf.
    rewrite list_lookup_insert_ne by lia. by rewrite lookup_app_l by lia. }
  unfold node_tree.
  eapply repr_object; [by apply (Hl 6)|].
  repeat constructor; simpl.
  eapply repr_object; [by apply (Hl 5)|].
  repeat constructor; simpl.
  - eapply repr_object; [rewrite <- (Nat.add_0_r (length h)); by apply (Hl 0)|].
    constructor.
  - eapply repr_array; [by apply (Hl 4)|].
    repeat constructor.
    eapply repr_object; [exact H3|].
    repeat constructor; simpl.
    + eapply repr_object; [by apply (Hl 1)|]. by repeat constructor.
    + by eapply repr_array.
Qed.

End Refinement.

(** ** Facts about trees *)

Lemma tree_get_path_child t k ks c :
  tree_get_path t (k :: ks) = Ret c → is_node c →
  ∃ ch, tree_child t k = Some ch ∧ tree_get t k = Ret ch ∧
        tree_get_path ch ks = Ret c.
Proof.
  simpl. intros Hg Hc.
  destruct (tree_get t k) as [ch| |] eqn:Hk; simpl in Hg; [|done..].
  destruct (tree_child t k) as [ch'|] eqn:Hch.
  - exists ch'. unfold tree_get in Hk. rewrite Hch in Hk.
    destruct t as [[]| |]; simplify_eq/=; done.
  - unfold tree_get in Hk. rewrite Hch in Hk.
    assert (ch = TPrim PUndefined) as -> by (destruct t as [[]| |]; by simplify_eq/=).
    by apply tree_get_path_prim in Hg.
Qed.

Lemma tree_child_node t k ch : tree_child t k = Some ch → is_node t.
Proof. by destruct t. Qed.

Lemma tree_get_child t k ch : tree_child t k = Some ch → tree_get t k = Ret ch.
Proof.
  intros H. destruct t as [p| |]; [done|..]; unfold tree_get; by rewrite H.
Qed.

Lemma tree_child_assign t k ch x :
  tree_child t k = Some ch → tree_child (tree_assign t k x) k = Some x.
Proof.
  destruct t as [p|fs|ts]; simpl; [done| |].
  - intros _. by rewrite assoc_set_field, decide_True.
  - destruct (array_index k) as [i|] eqn:Hi; [|done]. simpl. rewrite Hi.
    intros Hl. apply list_lookup_insert_eq. by eapply lookup_lt_Some.
Qed.

Lemma set_field_id {A} k (x : A) l : assoc k l = Some x → set_field k x l = l.
Proof.
  induction l as [|[k' y] l IH]; simpl; [done|].
  case_decide; [by intros [= ->] | intros ?; by rewrite IH].
Qed.

Lemma tree_assign_id t k ch : tree_child t k = Some ch → tree_assign t k ch = t.
Proof.
  destruct t as [p|fs|ts]; simpl; [done| |].
  - intros ?. by rewrite set_field_id.
  - destruct (array_index k) as [i|]; [|done]. intros ?. by rewrite list_insert_id.
Qed.

(** Reading back what was put. *)
Lemma tree_get_put_path t ks c c' :
  tree_get_path t ks = Ret c → is_node c →
  tree_get_path (tree_put_path t ks c') ks = Ret c'.
Proof.
  revert t. induction ks as [|k ks IH]; intros t Hg Hc; [done|].
  destruct (tree_get_path_child _ _ _ _ Hg Hc) as (ch & Hch & _ & Hg').
  cbn [tree_put_path tree_get_path]. rewrite Hch.
  rewrite (tree_get_child _ _ _ (tree_child_assign _ _ _ _ Hch)). simpl.
  by apply IH.
Qed.

(** Putting back what was read changes nothing. *)
Lemma tree_put_path_id t ks c :
  tree_get_path t ks = Ret c → is_node c → tree_put_path t ks c = t.
Proof.
  revert t. induction ks as [|k ks IH]; intros t Hg Hc; [by simplify_eq/=|].
  destruct (tree_get_path_child _ _ _ _ Hg Hc) as (ch & Hch & _ & Hg').
  cbn [tree_put_path]. rewrite Hch, IH by done. by apply tree_assign_id.
Qed.

Lemma tree_assign_assign t k x y :
  tree_assign (tree_assign t k x) k y = tree_assign t k y.
Proof.
  destruct t as [p|fs|ts]; simpl; [done| |].
  - f_equal. induction fs as [|[k' z] fs IH]; simpl.
    + by rewrite decide_True.
    + case_decide; simpl; [by rewrite decide_True|].
      rewrite decide_False by done. by rewrite IH.
  - destruct (array_index k) as [i|] eqn:Hi; simpl; rewrite ?Hi; [|done].
    by rewrite list_insert_insert_eq.
Qed.

(** Putting twice at one place. *)
Lemma tree_put_put_path t ks c c1 c2 :
  tree_get_path t ks = Ret c → is_node c →
  tree_put_path (tree_put_path t ks c1) ks c2 = tree_put_path t ks c2.
Proof.
  revert t. induction ks as [|k ks IH]; intros t Hg Hc; [done|].
  destruct (tree_get_path_child _ _ _ _ Hg Hc) as (ch & Hch & _ & Hg').
  cbn [tree_put_path]. rewrite Hch.
  rewrite (tree_child_assign _ _ _ _ Hch), IH by done.
  apply tree_assign_assign.
Qed.

(** A longer path puts below the shorter one. *)
Lemma tree_put_path_app t ks ks' c x :
  tree_get_path t ks = Ret c → is_node c →
  tree_put_path t (ks ++ ks') x = tree_put_path t ks (tree_put_path c ks' x).
Proof.
  revert t. induction ks as [|k ks IH]; intros t Hg Hc; [by simplify_eq/=|].
  destruct (tree_get_path_child _ _ _ _ Hg Hc) as (ch & Hch & _ & Hg').
  cbn [tree_put_path app]. rewrite Hch. by rewrite (IH ch).
Qed.

Lemma tree_get_path_app t ks ks' :
  tree_get_path t (ks ++ ks') =
  let? c := tree_get_path t ks in tree_get_path c ks'.
Proof.
  revert t. induction ks as [|k ks IH]; intros t; simpl; [done|].
  destruct (tree_get t k); simpl; [apply IH | done..].
Qed.

Lemma tree_get_assign_other fs k k' x :
  k ≠ k' →
  tree_get (TObject (set_field k x fs)) k' = tree_get (TObject fs) k'.
Proof. intros Hk. simpl. by rewrite assoc_set_field, decide_False. Qed.

Section Filter.
Context {A : Type}.

Lemma filter_o_Ret (g : A → outcome bool) l kept :
  filter_o g l = Ret kept →
  kept = filter (λ x, passes g x = true) l ∧ Forall (λ x, ∃ b, g x = Ret b) l.
Proof.
  revert kept. induction l as [|x l IH]; intros kept; simpl.
  - intros [= <-]. by split.
  - destruct (g x) as [b| |] eqn:Hx; simpl; [|done..].
    destruct (filter_o g l) as [ys| |]; simpl; [|done..].
    intros [= <-]. destruct (IH ys eq_refl) as [-> Hall].
    split; [|constructor; [by exists b | done]].
    rewrite filter_cons.
    assert (passes g x = b) as -> by (unfold passes; by rewrite Hx).
    by destruct b; case_decide.
Qed.

Lemma filter_passes (g : A → outcome bool) (P : A → Prop)
    `{!∀ x, Decision (P x)} l :
  Forall (λ x, ∃ b, g x = Ret b) l →
  (∀ x b, g x = Ret b → b = true ↔ P x) →
  filter (λ x, passes g x = true) l = filter P l.
Proof.
  intros Hall HP. induction Hall as [|x l [b Hx] _ IH]; [done|].
  rewrite !filter_cons, IH.
  assert (passes g x = b) as -> by (unfold passes; by rewrite Hx).
  pose proof (HP x b Hx) as Hb.
  repeat case_decide; try done; tauto.
Qed.

Lemma filter_o_total (g : A → outcome bool) l :
  Forall (λ x, ∃ b, g x = Ret b) l →
  filter_o g l = Ret (filter (λ x, passes g x = true) l).
Proof.
  induction 1 as [|x l [b Hx] _ IH]; simpl; [done|].
  rewrite Hx, IH. simpl. f_equal.
  rewrite filter_cons.
  assert (passes g x = b) as -> by (unfold passes; by rewrite Hx).
  by destruct b; case_decide.
Qed.

End Filter.

(** ** Runs of the mutators *)

Section Runs.

Variable dtoa : float → string.

Lemma getProp_heap v k h x h' : getProp v k h = Ret (x, h') → h' = h.
Proof.
  unfold getProp. destruct v as [[]|l]; try (by intros [= _ ->]); try done.
  destruct (h !! l); [by intros [= _ ->] | done].
Qed.

Lemma mutate_Ret m E h E' h' :
  mutate dtoa m E h = Ret (E', h') → ∃ t, repr h E t.
Proof.
  assert (∀ (rest : value → value → M value),
            (let! ty := getProp E "_type" in
             let! new := simpleObjectDeepClone E in rest ty new) h = Ret (E', h') →
            ∃ t, repr h E t) as Hopen.
  { intros rest. unfold bind at 1.
    destruct (getProp E "_type" h) as [[ty h0]| |] eqn:Hty; [|done..].
    apply getProp_heap in Hty as ->. unfold bind at 1.
    destruct (simpleObjectDeepClone E h) as [[new h1]| |] eqn:Hc; [|done..].
    intros _. by eapply clone_Ret_inv. }
  destruct m as [n v|p|n|lat lon|now|v]; simpl; try apply Hopen.
  unfold setProperties, bind at 1.
  destruct (simpleObjectDeepClone E h) as [[new h1]| |] eqn:Hc; [|done..].
  intros _. by eapply clone_Ret_inv.
Qed.

Lemma mutate_refines h m E t :
  repr h E t → args_ok h m → refines h (mutate dtoa m E h) (mutate_tree dtoa h m t).
Proof.
  intros Hr Hargs. destruct m as [n v|p|n|lat lon|now|v]; simpl in *.
  - by apply setProperty_refines.
  - destruct (tree_of h p) as [tp|] eqn:Hp; [|done].
    apply setProperties_refines; [done|]. by apply repr_tree_of.
  - by apply removeProperty_refines.
  - by apply setCoordinates_refines.
  - by apply setTimestampToNow_refines.
  - by apply setVersion_refines.
Qed.

(** A run that returns is the one the tree function describes. *)
Lemma mutate_Ret_tree h m E E' h' :
  args_ok h m →
  mutate dtoa m E h = Ret (E', h') →
  ∃ t t', repr h E t ∧ mutate_tree dtoa h m t = Ret t' ∧
          result_ok h (Ret (E', h')) t'.
Proof.
  intros Hargs Hrun. destruct (mutate_Ret _ _ _ _ _ Hrun) as [t Hr].
  pose proof (mutate_refines h m E t Hr Hargs) as Href. rewrite Hrun in Href.
  unfold refines in Href.
  destruct (mutate_tree dtoa h m t) as [t'| |] eqn:Ht; [|done..].
  by exists t, t'.
Qed.

Lemma result_ok_inv h E' h' t' :
  result_ok h (Ret (E', h')) t' →
  h `prefix_of` h' ∧ fresh (length h) E' ∧ closed (length h) h' ∧
  tree_of h' E' = Some t'.
Proof.
  intros (l' & hf & [= -> ->] & Hpre & Hl & Hcl & Hr).
  repeat split; try done. by apply repr_tree_of.
Qed.

Lemma repr_reach h ext v t l : repr h v t → reach (h ++ ext) v l → l < length h.
Proof.
  intros Hr Hreach. revert t Hr.
  induction Hreach as [l|l c v l' Hl Hin _ IH]; intros t Hr.
  - by eapply repr_lookup_lt.
  - inversion Hr as [|? ps fs Hl' Hf|? vs ts Hl' Hf]; subst;
      rewrite (lookup_app_l_Some _ _ _ _ Hl') in Hl; simplify_eq; simpl in Hin.
    + apply list_elem_of_fmap in Hin as ([k x] & -> & Hin).
      apply list_elem_of_lookup in Hin as [i Hi].
      destruct (Forall2_lookup_l _ _ _ _ _ Hf Hi) as (f & _ & _ & Hx).
      by eapply IH.
    + apply list_elem_of_lookup in Hin as [i Hi].
      destruct (Forall2_lookup_l _ _ _ _ _ Hf Hi) as (f & _ & Hx).
      by eapply IH.
Qed.

End Runs.

(** ** What a mutation changes *)

Section Shape.

Variable dtoa : float → string.

Lemma element_key_put t ks x :
  element_key dtoa (tree_put_path t ("osm" :: ks) x) = element_key dtoa t.
Proof.
  unfold element_key. cbn [tree_put_path].
  destruct (tree_child t "osm") as [c|]; [|done].
  destruct t as [p|fs|ts]; simpl; [done| |done].
  by rewrite assoc_set_field, decide_False.
Qed.

Lemma tree_get_put_other t ks x k :
  k ≠ "osm" → tree_get (tree_put_path t ("osm" :: ks) x) k = tree_get t k.
Proof.
  intros Hk. cbn [tree_put_path].
  destruct (tree_child t "osm") as [c|]; [|done].
  destruct t as [p|fs|ts]; simpl; [done| |done].
  by rewrite assoc_set_field, decide_False.
Qed.

Lemma element_inner_put t key inner x :
  element_key dtoa t = Ret key →
  tree_get_path t (inner_path key) = Ret inner → is_node inner →
  element_inner dtoa (tree_put_path t (inner_path key) x) = Ret x.
Proof.
  intros Hkey Hin Hnode. unfold element_inner.
  unfold inner_path at 1. rewrite element_key_put, Hkey.
  change (tree_get_path (tree_put_path t (inner_path key) x) (inner_path key)
          = Ret x).
  by eapply tree_get_put_path.
Qed.

Lemma element_tags_put t key inner fs tags :
  element_key dtoa t = Ret key →
  tree_get_path t (inner_path key) = Ret inner → is_node inner →
  element_tags dtoa
    (tree_put_path t (inner_path key) (TObject (set_field "tag" (TArray tags) fs)))
  = Some tags.
Proof.
  intros Hkey Hin Hnode. unfold element_tags.
  erewrite element_inner_put by done.
  by rewrite assoc_set_field, decide_True.
Qed.

Lemma tags_read_keys t fs tags :
  element_inner dtoa t = Ret (TObject fs) → tags_read fs tags →
  element_tag_keys dtoa t = tree_tagKey <$> tags.
Proof.
  intros Hin [Htag|[-> Hfalsy]]; unfold element_tag_keys, element_tags;
    rewrite Hin.
  - by rewrite Htag.
  - destruct (assoc "tag" fs) as [[p|fs'|ts]|]; try done.
Qed.

Lemma lenient_filter fs (g : tree → outcome bool) kept :
  (let tag := default (TPrim PUndefined) (assoc "tag" fs) in
   if tree_truthy tag then tree_filter tag g else Ret []) = Ret kept →
  ∃ tags, tags_read fs tags ∧ filter_o g tags = Ret kept.
Proof.
  unfold tags_read. cbv zeta.
  destruct (assoc "tag" fs) as [[p|fs'|ts]|]; simpl; try done.
  - change (match p with
            | PBool b => b
            | PNum x => negb (is_zero x || is_nan x)
            | PStr s => negb (bool_decide (s = EmptyString))
            | _ => false
            end) with (truthy (VPrim p)).
    destruct (truthy (VPrim p)) eqn:Htr; [done|].
    intros [= <-]. exists []. split; [by right|done].
  - intros Hf. exists ts. split; [by left|done].
  - intros [= <-]. exists []. split; [by right|done].
Qed.

Lemma tree_assign_o_Ret inner k x inner' :
  tree_assign_o inner k x = Ret inner' →
  ∃ fs, inner = TObject fs ∧ inner' = TObject (set_field k x fs).
Proof. destruct inner as [p|fs|ts]; simpl; [done| |done]. intros [= <-]. eauto. Qed.

Lemma obind_Ret {A B} (o : outcome A) (f : A → outcome B) y :
  obind o f = Ret y → ∃ x, o = Ret x ∧ f x = Ret y.
Proof. destruct o as [x| |]; simpl; [|done..]. eauto. Qed.

Lemma tree_get_object fs k :
  tree_get (TObject fs) k = Ret (default (TPrim PUndefined) (assoc k fs)).
Proof. done. Qed.

(** [setProperty] on trees: the tags kept are those whose key differs from
    the string form of the name; one tag is appended. *)
Lemma setProperty_tree_inv t n v t' :
  setProperty_tree dtoa t n v = Ret t' →
  ∃ key fs tags k s,
    element_key dtoa t = Ret key ∧
    tree_get_path t (inner_path key) = Ret (TObject fs) ∧
    tags_read fs tags ∧
    toString dtoa n = Ret k ∧ toString dtoa v = Ret s ∧
    Forall tag_readable tags ∧
    t' = tree_put_path t (inner_path key)
           (TObject (set_field "tag"
              (TArray (filter (λ tg, tag_has_key (VStr k) tg = false) tags
                      ++ [tag_tree k s]))
              fs)).
Proof.
  unfold setProperty_tree. intros H.
  apply obind_Ret in H as (key & Hkey & H).
  apply obind_Ret in H as (inner & Hin & H).
  apply obind_Ret in H as (tag & Htag & H).
  apply obind_Ret in H as (kept & Hkept & H).
  apply obind_Ret in H as (k & Hk & H).
  apply obind_Ret in H as (s & Hs & H).
  apply obind_Ret in H as (inner' & Hasg & H).
  apply tree_assign_o_Ret in Hasg as (fs & -> & ->).
  rewrite tree_get_object in Htag. injection Htag as <-.
  apply lenient_filter in Hkept as (tags & Hread & Hf).
  apply filter_o_Ret in Hf as [-> Hall].
  exists key, fs, tags, k, s. repeat split; try done.
  - eapply Forall_impl; [exact Hall|]. intros tg [b Hb]. rewrite Hk in Hb.
    apply obind_Ret in Hb as (kt & Hkt & _). by exists kt.
  - injection H as <-.
    rewrite (filter_passes _ (λ tg, tag_has_key (VStr k) tg = false)); [done..|].
    intros tg b. unfold tag_has_key. rewrite Hk.
    destruct (tree_tagKey tg) as [kt| |]; simpl; [|done..].
    intros [= <-]. by destruct (tree_strict_eq kt (VStr k)).
Qed.

(** [removeProperty] on trees: the tags kept are those whose key is not
    strictly equal to the name. *)
Lemma removeProperty_tree_inv t n t' :
  removeProperty_tree dtoa t n = Ret t' →
  ∃ key fs tags,
    element_key dtoa t = Ret key ∧
    tree_get_path t (inner_path key) = Ret (TObject fs) ∧
    assoc "tag" fs = Some (TArray tags) ∧
    Forall tag_readable tags ∧
    t' = tree_put_path t (inner_path key)
           (TObject (set_field "tag"
              (TArray (filter (λ tg, tag_has_key n tg = false) tags)) fs)).
Proof.
  unfold removeProperty_tree. intros H.
  apply obind_Ret in H as (key & Hkey & H).
  apply obind_Ret in H as (inner & Hin & H).
  apply obind_Ret in H as (tag & Htag & H).
  apply obind_Ret in H as (kept & Hkept & H).
  apply obind_Ret in H as (inner' & Hasg & H).
  apply tree_assign_o_Ret in Hasg as (fs & -> & ->).
  rewrite tree_get_object in Htag. injection Htag as <-.
  destruct (assoc "tag" fs) as [[p|fs'|tags]|] eqn:Hfs; try done.
  simpl in Hkept. apply filter_o_Ret in Hkept as [-> Hall].
  exists key, fs, tags. repeat split; try done.
  - eapply Forall_impl; [exact Hall|]. intros tg [b Hb].
    apply obind_Ret in Hb as (kt & Hkt & _). by exists kt.
  - injection H as <-.
    rewrite (filter_passes _ (λ tg, tag_has_key n tg = false)); [done..|].
    intros tg b. unfold tag_has_key.
    destruct (tree_tagKey tg) as [kt| |]; simpl; [|done..].
    intros [= <-]. by destruct (tree_strict_eq kt n).
Qed.

(** [setProperties] on trees: the tags kept are those whose key is not a
    property name of [properties]; one tag per property name is appended. *)
Lemma setProperties_tree_inv t tp t' :
  setProperties_tree dtoa t tp = Ret t' →
  ∃ key fs tags names formatted,
    tree_keys tp = Ret names ∧
    element_key dtoa t = Ret key ∧
    tree_get_path t (inner_path key) = Ret (TObject fs) ∧
    tags_read fs tags ∧
    Forall tag_readable tags ∧
    formatted_tags dtoa tp names = Ret formatted ∧
    t' = tree_put_path t (inner_path key)
           (TObject (set_field "tag"
              (TArray (filter (λ tg, tag_key_in names tg = false) tags
                       ++ formatted)) fs)).
Proof.
  unfold setProperties_tree. intros H.
  apply obind_Ret in H as (names & Hnames & H).
  apply obind_Ret in H as (key & Hkey & H).
  apply obind_Ret in H as (inner & Hin & H).
  apply obind_Ret in H as (tag & Htag & H).
  apply obind_Ret in H as (kept & Hkept & H).
  apply obind_Ret in H as (formatted & Hfmt & H).
  apply obind_Ret in H as (inner' & Hasg & H).
  apply tree_assign_o_Ret in Hasg as (fs & -> & ->).
  rewrite tree_get_object in Htag. injection Htag as <-.
  apply lenient_filter in Hkept as (tags & Hread & Hf).
  apply filter_o_Ret in Hf as [-> Hall].
  exists key, fs, tags, names, formatted. repeat split; try done.
  - eapply Forall_impl; [exact Hall|]. intros tg [b Hb].
    apply obind_Ret in Hb as (kt & Hkt & _). by exists kt.
  - injection H as <-.
    rewrite (filter_passes _ (λ tg, tag_key_in names tg = false)); [done..|].
    intros tg b. unfold tag_key_in.
    destruct (tree_tagKey tg) as [kt| |]; simpl; [|done..].
    intros [= <-]. by destruct (tree_includes names kt).
Qed.

(** The attributes object is the [$] property of the inner object. *)
Lemma attrs_inner t key attrs :
  tree_get_path t (attrs_path key) = Ret attrs → is_node attrs →
  ∃ fs, tree_get_path t (inner_path key) = Ret (TObject fs) ∧
        assoc "$" fs = Some attrs ∧
        ∀ x, tree_put_path t (attrs_path key) x
             = tree_put_path t (inner_path key) (TObject (set_field "$" x fs)).
Proof.
  intros Hg Hnode.
  change (attrs_path key) with (inner_path key ++ ["$"]) in *.
  rewrite tree_get_path_app in Hg.
  apply obind_Ret in Hg as (inner & Hin & Hg). simpl in Hg.
  apply obind_Ret in Hg as (a & Ha & [= ->]).
  assert (∃ fs, inner = TObject fs ∧ assoc "$" fs = Some attrs) as (fs & -> & Hfs).
  { destruct inner as [[]|fs|ts]; simpl in Ha; try done.
    - injection Ha as <-. done.
    - injection Ha as <-. done.
    - injection Ha as <-. done.
    - exists fs. split; [done|].
      destruct (assoc "$" fs); simpl in Ha; [congruence|].
      injection Ha as <-. done.
    - injection Ha as <-. done. }
  exists fs. repeat split; try done. intros x.
  rewrite (tree_put_path_app _ _ _ _ _ Hin I). simpl. by rewrite Hfs.
Qed.

(** The attribute mutators on trees. *)
Lemma setCoordinates_tree_inv t lat lon t' :
  setCoordinates_tree dtoa t lat lon = Ret t' →
  ∃ key attrs la lo,
    element_key dtoa t = Ret key ∧
    tree_get_path t (attrs_path key) = Ret (TObject attrs) ∧
    toString dtoa lat = Ret la ∧ toString dtoa lon = Ret lo ∧
    t' = tree_put_path t (attrs_path key)
           (TObject (set_field "lon" (TStr lo) (set_field "lat" (TStr la) attrs))).
Proof.
  unfold setCoordinates_tree. intros H.
  apply obind_Ret in H as (key & Hkey & H).
  apply obind_Ret in H as (a & Ha & H).
  apply obind_Ret in H as (la & Hla & H).
  apply obind_Ret in H as (a1 & Ha1 & H).
  apply obind_Ret in H as (lo & Hlo & H).
  apply obind_Ret in H as (a2 & Ha2 & H).
  apply tree_assign_o_Ret in Ha1 as (attrs & -> & ->).
  apply tree_assign_o_Ret in Ha2 as (? & [= <-] & ->).
  injection H as <-. by exists key, attrs, la, lo.
Qed.

Lemma setTimestampToNow_tree_inv now t t' :
  setTimestampToNow_tree dtoa now t = Ret t' →
  ∃ key attrs,
    element_key dtoa t = Ret key ∧
    tree_get_path t (attrs_path key) = Ret (TObject attrs) ∧
    t' = tree_put_path t (attrs_path key)
           (TObject (set_field "timestamp" (TStr now) attrs)).
Proof.
  unfold setTimestampToNow_tree. intros H.
  apply obind_Ret in H as (key & Hkey & H).
  apply obind_Ret in H as (a & Ha & H).
  apply obind_Ret in H as (a1 & Ha1 & H).
  apply tree_assign_o_Ret in Ha1 as (attrs & -> & ->).
  injection H as <-. by exists key, attrs.
Qed.

Lemma setVersion_tree_inv t version t' :
  setVersion_tree dtoa t version = Ret t' →
  ∃ key attrs n,
    element_key dtoa t = Ret key ∧
    tree_get_path t (attrs_path key) = Ret (TObject attrs) ∧
    parseInt dtoa version = Ret n ∧
    t' = tree_put_path t (attrs_path key)
           (TObject (set_field "version" (TStr (Number_toString dtoa n)) attrs)).
Proof.
  unfold setVersion_tree. intros H.
  apply obind_Ret in H as (key & Hkey & H).
  apply obind_Ret in H as (a & Ha & H).
  apply obind_Ret in H as (n & Hn & H).
  apply obind_Ret in H as (a1 & Ha1 & H).
  apply tree_assign_o_Ret in Ha1 as (attrs & -> & ->).
  injection H as <-. by exists key, attrs, n.
Qed.

(** An attribute mutator leaves [innerElement.tag] as it reads. *)
Lemma put_attrs_tag_field t key attrs x :
  element_key dtoa t = Ret key →
  tree_get_path t (attrs_path key) = Ret attrs → is_node attrs →
  element_tag_field dtoa (tree_put_path t (attrs_path key) x)
  = element_tag_field dtoa t ∧
  element_tags dtoa (tree_put_path t (attrs_path key) x) = element_tags dtoa t.
Proof.
  intros Hkey Hattrs Hnode.
  destruct (attrs_inner _ _ _ Hattrs Hnode) as (fs & Hin & Hfs & ->).
  unfold element_tag_field, element_tags.
  erewrite element_inner_put by done.
  unfold element_inner. rewrite Hkey. cbn [obind]. rewrite Hin. cbn [obind].
  rewrite tree_get_object.
  by rewrite assoc_set_field, decide_False.
Qed.

(** An element with tags has a key, an inner object and a tag field. *)
Lemma element_tags_inv t tags :
  element_tags dtoa t = Some tags →
  ∃ key fs, element_key dtoa t = Ret key ∧
            tree_get_path t (inner_path key) = Ret (TObject fs) ∧
            (assoc "tag" fs = Some (TArray tags) ∨ (tags = [] ∧ assoc "tag" fs = None)).
Proof.
  unfold element_tags, element_inner. intros H.
  destruct (element_key dtoa t) as [key| |]; cbn [obind] in H; [|done..].
  destruct (tree_get_path t (inner_path key)) as [[p|fs|ts]| |] eqn:Hin;
    [done| |done..].
  exists key, fs. split; [done|]. split; [done|].
  destruct (assoc "tag" fs) as [[p|fs'|ts]|]; try done.
  - left. congruence.
  - right. split; congruence.
Qed.

Lemma lenient_filter_total fs tags (g : tree → outcome bool) (P : tree → Prop)
    `{!∀ x, Decision (P x)} :
  tags_read fs tags →
  Forall (λ x, ∃ b, g x = Ret b) tags →
  (∀ x b, g x = Ret b → b = true ↔ P x) →
  (if tree_truthy (default (TPrim PUndefined) (assoc "tag" fs))
   then tree_filter (default (TPrim PUndefined) (assoc "tag" fs)) g
   else Ret []) = Ret (filter P tags).
Proof.
  intros [Htag|[-> Hfalsy]] Hall HP.
  - rewrite Htag. simpl. rewrite (filter_o_total _ _ Hall).
    by rewrite (filter_passes _ P).
  - by rewrite Hfalsy.
Qed.

Lemma tags_read_strict fs tags :
  assoc "tag" fs = Some (TArray tags) ∨ (tags = [] ∧ assoc "tag" fs = None) →
  tags_read fs tags.
Proof. intros [?|[-> Hn]]; [by left|right]. by rewrite Hn. Qed.

Lemma setProperty_tree_total t key fs tags n v k s :
  element_key dtoa t = Ret key →
  tree_get_path t (inner_path key) = Ret (TObject fs) →
  tags_read fs tags → Forall tag_readable tags →
  toString dtoa n = Ret k → toString dtoa v = Ret s →
  setProperty_tree dtoa t n v
  = Ret (tree_put_path t (inner_path key)
           (TObject (set_field "tag"
              (TArray (filter (λ tg, tag_has_key (VStr k) tg = false) tags
                       ++ [tag_tree k s])) fs))).
Proof.
  intros Hkey Hin Hread Hall Hk Hs. unfold setProperty_tree.
  rewrite Hkey. cbn [obind]. rewrite Hin. cbn [obind].
  rewrite tree_get_object. cbn [obind].
  rewrite (lenient_filter_total fs tags _
             (λ tg, tag_has_key (VStr k) tg = false) Hread).
  - cbn [obind]. rewrite Hk, Hs. done.
  - eapply Forall_impl; [exact Hall|]. intros tg [kt ->]. rewrite Hk. simpl. eauto.
  - intros tg b. unfold tag_has_key. rewrite Hk.
    destruct (tree_tagKey tg) as [kt| |]; simpl; [|done..].
    intros [= <-]. by destruct (tree_strict_eq kt (VStr k)).
Qed.

Lemma removeProperty_tree_total t key fs tags n :
  element_key dtoa t = Ret key →
  tree_get_path t (inner_path key) = Ret (TObject fs) →
  assoc "tag" fs = Some (TArray tags) → Forall tag_readable tags →
  removeProperty_tree dtoa t n
  = Ret (tree_put_path t (inner_path key)
           (TObject (set_field "tag"
              (TArray (filter (λ tg, tag_has_key n tg = false) tags)) fs))).
Proof.
  intros Hkey Hin Htag Hall. unfold removeProperty_tree.
  rewrite Hkey. cbn [obind]. rewrite Hin. cbn [obind].
  rewrite tree_get_object, Htag. cbn [obind default tree_filter id].
  rewrite filter_o_total.
  - cbn [obind tree_assign_o].
    rewrite (filter_passes _ (λ tg, tag_has_key n tg = false)); [done| |].
    + eapply Forall_impl; [exact Hall|]. intros tg [kt ->]. simpl. eauto.
    + intros tg b. unfold tag_has_key.
      destruct (tree_tagKey tg) as [kt| |]; simpl; [|done..].
      intros [= <-]. by destruct (tree_strict_eq kt n).
  - eapply Forall_impl; [exact Hall|]. intros tg [kt ->]. simpl. eauto.
Qed.

Lemma tag_tree_key k s : tree_tagKey (tag_tree k s) = Ret (TStr k).
Proof. done. Qed.

Lemma tag_tree_readable k s : tag_readable (tag_tree k s).
Proof. by exists (TStr k). Qed.

Lemma tag_tree_has_key k s : tag_has_key (VStr k) (tag_tree k s) = true.
Proof. unfold tag_has_key. simpl. by rewrite bool_decide_true. Qed.

Lemma Forall_readable_filter (P : tree → Prop) `{!∀ x, Decision (P x)} tags :
  Forall tag_readable tags → Forall tag_readable (filter P tags).
Proof.
  rewrite !Forall_forall. intros Hall x Hx. apply Hall.
  by apply list_elem_of_filter in Hx as [_ ?].
Qed.

Lemma filter_filter_same {A} (P : A → Prop) `{!∀ x, Decision (P x)} (l : list A) :
  filter P (filter P l) = filter P l.
Proof.
  induction l as [|x l IH]; [done|]. rewrite filter_cons.
  case_decide; [|done]. rewrite filter_cons, decide_True by done. by rewrite IH.
Qed.

Lemma filter_filter_none {A} (p : A → bool) (l : list A) :
  filter (λ x, p x = true) (filter (λ x, p x = false) l) = [].
Proof.
  induction l as [|x l IH]; [done|]. rewrite filter_cons.
  case_decide as Hx; [|done]. rewrite filter_cons, decide_False; [done|].
  by rewrite Hx.
Qed.

(** Removing from an element whose tag array was just written. *)
Lemma removeProperty_tree_put t key fs fs0 tags n :
  element_key dtoa t = Ret key →
  tree_get_path t (inner_path key) = Ret (TObject fs0) →
  Forall tag_readable tags →
  removeProperty_tree dtoa
    (tree_put_path t (inner_path key) (TObject (set_field "tag" (TArray tags) fs))) n
  = Ret (tree_put_path t (inner_path key)
           (TObject (set_field "tag"
              (TArray (filter (λ tg, tag_has_key n tg = false) tags)) fs))).
Proof.
  intros Hkey Hin Hall.
  rewrite (removeProperty_tree_total _ key (set_field "tag" (TArray tags) fs) tags).
  - f_equal. rewrite (tree_put_put_path _ _ _ _ _ Hin I). do 2 f_equal.
    pose proof (tree_assign_assign (TObject fs) "tag" (TArray tags)
                  (TArray (filter (λ tg, tag_has_key n tg = false) tags))) as Heq.
    simpl in Heq. by injection Heq.
  - unfold inner_path at 1. by rewrite element_key_put.
  - by eapply tree_get_put_path.
  - by rewrite assoc_set_field, decide_True.
  - done.
Qed.

Lemma mapM_o_Forall2 {A B} (f : A → outcome B) l l' :
  Forall2 (λ a b, f a = Ret b) l l' → mapM_o f l = Ret l'.
Proof.
  induction 1 as [|a b l l' Hab _ IH]; [done|]. simpl. by rewrite Hab, IH.
Qed.

Lemma mapM_o_Ret {A B} (f : A → outcome B) l l' :
  mapM_o f l = Ret l' → Forall2 (λ a b, f a = Ret b) l l'.
Proof.
  revert l'. induction l as [|a l IH]; intros l'; simpl.
  - intros [= <-]. constructor.
  - intros H. apply obind_Ret in H as (b & Hb & H).
    apply obind_Ret in H as (bs & Hbs & [= <-]). constructor; [done|by apply IH].
Qed.

Lemma assoc_NoDup {A} (l : list (string * A)) k x :
  NoDup l.*1 → (k, x) ∈ l → assoc k l = Some x.
Proof.
  induction l as [|[k' y] l IH]; simpl; [by intros _ ?%elem_of_nil|].
  rewrite NoDup_cons. intros [Hk' Hl] Hin.
  apply elem_of_cons in Hin as [[= -> ->]|Hin].
  - by rewrite decide_True.
  - rewrite decide_False; [by apply IH|]. intros ->. apply Hk'.
    apply list_elem_of_fmap. by exists (k, x).
Qed.

Lemma formatted_tags_props tp kvs :
  string_props dtoa tp kvs →
  tree_keys tp = Ret kvs.*1 ∧
  formatted_tags dtoa tp kvs.*1 = Ret ((λ kv, tag_tree kv.1 kv.2) <$> kvs).
Proof.
  intros (fs & -> & Hnd & Hf).
  assert (fs.*1 = kvs.*1) as Hnames.
  { clear Hnd. induction Hf as [|[k x] [k' v] fs kvs [Hk _] _ IH]; [done|].
    rewrite !fmap_cons, IH. simpl in *. by rewrite Hk. }
  split; [simpl; by rewrite Hnames|].
  apply mapM_o_Forall2. rewrite <- Hnames. apply Forall2_fmap.
  assert (∀ f, f ∈ fs → assoc f.1 fs = Some f.2) as Hget.
  { intros [k x] Hin. by apply assoc_NoDup. }
  assert (∀ fs0, (∀ f, f ∈ fs → assoc f.1 fs0 = Some f.2) →
            Forall2 (λ (f : string * tree) (kv : string * string),
                       (let? k := toString dtoa (VStr f.1) in
                        let? x := tree_get (TObject fs0) f.1 in
                        let? v := tree_toString dtoa x in Ret (tag_tree k v))
                       = Ret (tag_tree kv.1 kv.2)) fs kvs) as Hgen; [|by apply Hgen].
  clear Hnd Hnames Hget. intros fs0 Hget.
  induction Hf as [|[k x] [k' v] fs kvs [Hk Hv] _ IH]; constructor.
  - pose proof (Hget (k, x) (list_elem_of_here _ _)) as Hx.
    simpl in *. subst k'. rewrite Hx. simpl. by rewrite Hv.
  - apply IH. intros f Hin. apply Hget. by apply list_elem_of_further.
Qed.

Lemma setProperties_tree_total t tp key fs tags names formatted :
  tree_keys tp = Ret names →
  element_key dtoa t = Ret key →
  tree_get_path t (inner_path key) = Ret (TObject fs) →
  tags_read fs tags → Forall tag_readable tags →
  formatted_tags dtoa tp names = Ret formatted →
  setProperties_tree dtoa t tp
  = Ret (tree_put_path t (inner_path key)
           (TObject (set_field "tag"
              (TArray (filter (λ tg, tag_key_in names tg = false) tags
                       ++ formatted)) fs))).
Proof.
  intros Hnames Hkey Hin Hread Hall Hfmt. unfold setProperties_tree.
  rewrite Hnames. cbn [obind]. rewrite Hkey. cbn [obind]. rewrite Hin. cbn [obind].
  rewrite tree_get_object. cbn [obind].
  rewrite (lenient_filter_total fs tags _
             (λ tg, tag_key_in names tg = false) Hread).
  - cbn [obind]. by rewrite Hfmt.
  - eapply Forall_impl; [exact Hall|]. intros tg [kt ->]. simpl. eauto.
  - intros tg b. unfold tag_key_in.
    destruct (tree_tagKey tg) as [kt| |]; simpl; [|done..].
    intros [= <-]. by destruct (tree_includes names kt).
Qed.

(** The keys of the tags made from the property names are the names. *)
Lemma formatted_tags_keys tp names formatted :
  formatted_tags dtoa tp names = Ret formatted →
  tree_tagKey <$> formatted = (λ name, Ret (TStr name)) <$> names.
Proof.
  intros H. apply mapM_o_Ret in H.
  induction H as [|name tg names formatted Htg _ IH]; [done|].
  rewrite !fmap_cons, IH. f_equal. simpl in Htg.
  apply obind_Ret in Htg as (x & _ & Htg).
  apply obind_Ret in Htg as (v & _ & [= <-]). done.
Qed.

Lemma setCoordinates_tree_total t key attrs lat lon la lo :
  element_key dtoa t = Ret key →
  tree_get_path t (attrs_path key) = Ret (TObject attrs) →
  toString dtoa lat = Ret la → toString dtoa lon = Ret lo →
  setCoordinates_tree dtoa t lat lon
  = Ret (tree_put_path t (attrs_path key)
           (TObject (set_field "lon" (TStr lo) (set_field "lat" (TStr la) attrs)))).
Proof.
  intros Hkey Hattrs Hla Hlo. unfold setCoordinates_tree.
  rewrite Hkey. cbn [obind]. rewrite Hattrs. cbn [obind].
  rewrite Hla. cbn [obind tree_assign_o]. by rewrite Hlo.
Qed.

Lemma setVersion_tree_total t key attrs version n :
  element_key dtoa t = Ret key →
  tree_get_path t (attrs_path key) = Ret (TObject attrs) →
  parseInt dtoa version = Ret n →
  setVersion_tree dtoa t version
  = Ret (tree_put_path t (attrs_path key)
           (TObject (set_field "version" (TStr (Number_toString dtoa n)) attrs))).
Proof.
  intros Hkey Hattrs Hn. unfold setVersion_tree.
  rewrite Hkey. cbn [obind]. rewrite Hattrs. cbn [obind]. by rewrite Hn.
Qed.

(** Reading an attribute back after the attributes were replaced. *)
Lemma element_attrs_put t key attrs x :
  element_key dtoa t = Ret key →
  tree_get_path t (attrs_path key) = Ret attrs → is_node attrs →
  element_attrs dtoa (tree_put_path t (attrs_path key) x) = Ret x.
Proof.
  intros Hkey Hattrs Hnode. unfold element_attrs.
  unfold attrs_path at 1. rewrite element_key_put, Hkey.
  change (tree_get_path (tree_put_path t (attrs_path key) x) (attrs_path key)
          = Ret x).
  by eapply tree_get_put_path.
Qed.

(** [parseInt] yields [NaN], a zero, or the Number nearest to an integer. *)
Lemma Number_toString_nan : Number_toString dtoa nan = "NaN".
Proof. done. Qed.

(** ** Tag keys stay distinct *)

Lemma NoDup_keys_filter (P : tree → Prop) `{!∀ x, Decision (P x)} tags :
  NoDup (tree_tagKey <$> tags) → NoDup (tree_tagKey <$> filter P tags).
Proof.
  intros Hnd. eapply sublist_NoDup; [exact Hnd|].
  apply fmap_sublist, sublist_filter.
Qed.

Lemma NoDup_keys_setProperty tags k s :
  NoDup (tree_tagKey <$> tags) →
  NoDup (tree_tagKey <$>
           (filter (λ tg, tag_has_key (VStr k) tg = false) tags ++ [tag_tree k s])).
Proof.
  intros Hnd. rewrite fmap_app. apply NoDup_app. split; [|split].
  - by apply NoDup_keys_filter.
  - intros o Ho Hin. apply list_elem_of_fmap in Ho as (tg & -> & Htg).
    apply list_elem_of_filter in Htg as [Hkey _].
    apply list_elem_of_singleton in Hin. simpl in Hin.
    unfold tag_has_key in Hkey. rewrite Hin in Hkey. simpl in Hkey.
    by rewrite bool_decide_true in Hkey.
  - apply NoDup_singleton.
Qed.

Lemma NoDup_keys_setProperties tp tags names formatted :
  NoDup names →
  formatted_tags dtoa tp names = Ret formatted →
  NoDup (tree_tagKey <$> tags) →
  NoDup (tree_tagKey <$>
           (filter (λ tg, tag_key_in names tg = false) tags ++ formatted)).
Proof.
  intros Hnames Hfmt Hnd. rewrite fmap_app. apply NoDup_app. split; [|split].
  - by apply NoDup_keys_filter.
  - intros o Ho Hin. apply list_elem_of_fmap in Ho as (tg & -> & Htg).
    apply list_elem_of_filter in Htg as [Hkey _].
    rewrite (formatted_tags_keys _ _ _ Hfmt) in Hin.
    apply list_elem_of_fmap in Hin as (name & Heq & Hname).
    unfold tag_key_in in Hkey. rewrite Heq in Hkey. simpl in Hkey.
    by rewrite bool_decide_true in Hkey.
  - rewrite (formatted_tags_keys _ _ _ Hfmt).
    apply NoDup_fmap_2; [|done]. by intros a b [= ->].
Qed.

Lemma element_inner_path t key x :
  element_key dtoa t = Ret key → tree_get_path t (inner_path key) = Ret x →
  element_inner dtoa t = Ret x.
Proof. intros Hkey Hin. unfold element_inner. by rewrite Hkey. Qed.

Lemma element_tag_keys_put t key inner fs tags :
  element_key dtoa t = Ret key →
  tree_get_path t (inner_path key) = Ret inner → is_node inner →
  element_tag_keys dtoa
    (tree_put_path t (inner_path key) (TObject (set_field "tag" (TArray tags) fs)))
  = tree_tagKey <$> tags.
Proof.
  intros Hkey Hin Hnode. unfold element_tag_keys.
  by erewrite element_tags_put.
Qed.

Lemma tree_keys_names tp names : tree_keys tp = Ret names → names = tree_names tp.
Proof. destruct tp as [[]|fs|ts]; simpl; try done; by intros [= <-]. Qed.

End Shape.

(** ** What parseInt reads *)

Lemma append_cons a (s1 s2 : string) : String a s1 +:+ s2 = String a (s1 +:+ s2).
Proof. reflexivity. Qed.

Lemma append_assoc (s1 s2 s3 : string) : (s1 +:+ s2) +:+ s3 = s1 +:+ s2 +:+ s3.
Proof. induction s1 as [|a s1 IH]; [done|]. by rewrite !append_cons, IH. Qed.

Lemma starts_with_append p s : starts_with p s = true → ∃ tail, s = p +:+ tail.
Proof.
  revert s. induction p as [|a p IH]; intros s Hp.
  - by exists s.
  - destruct s as [|b s]; [done|]. simpl in Hp.
    apply andb_prop in Hp as [->%Ascii.eqb_eq Hp].
    destruct (IH _ Hp) as [tail ->]. by exists tail.
Qed.

Lemma white_space_bytes_none s : ¬ starts_with_space s → white_space_bytes s = 0.
Proof.
  intros Hs. unfold white_space_bytes.
  destruct (find _ _) as [c|] eqn:Hfind; [|done].
  apply find_some in Hfind as [Hin Hp]. apply starts_with_append in Hp as [tail ->].
  destruct Hs. exists c, tail. split; [by apply list_elem_of_In|done].
Qed.

Lemma skip_spaces_aux_0 a s :
  skip_spaces_aux 0 (String a s)
  = match white_space_bytes (String a s) with
    | S p => skip_spaces_aux p s
    | O => String a s
    end.
Proof. reflexivity. Qed.

Lemma skip_spaces_id s : ¬ starts_with_space s → skip_spaces s = s.
Proof.
  intros Hs. destruct s as [|a s]; [done|].
  unfold skip_spaces. by rewrite skip_spaces_aux_0, white_space_bytes_none.
Qed.

Lemma skip_spaces_char c s :
  c ∈ StrWhiteSpaceChar → skip_spaces (utf8 c +:+ s) = skip_spaces s.
Proof.
  intros Hc. unfold StrWhiteSpaceChar in Hc.
  repeat (apply elem_of_cons in Hc as [->|Hc]; [vm_compute; reflexivity|]).
  by apply elem_of_nil in Hc.
Qed.

Lemma skip_spaces_white_space ws s :
  white_space ws → skip_spaces (ws +:+ s) = skip_spaces s.
Proof.
  induction 1 as [|c ws Hc _ IH]; [done|].
  by rewrite append_assoc, skip_spaces_char.
Qed.

Lemma skip_spaces_none s : white_space_bytes s = 0 → skip_spaces s = s.
Proof.
  intros Hs. destruct s as [|a s]; [done|].
  unfold skip_spaces. by rewrite skip_spaces_aux_0, Hs.
Qed.

Lemma sign_of_unsigned s : ¬ starts_with_sign s → sign_of s = (false, s).
Proof.
  intros Hs. destruct s as [|a r]; [done|].
  destruct a as [[] [] [] [] [] [] [] []]; try done;
    destruct Hs; exists r; ((by left) || (by right)).
Qed.

Lemma radix_digit_in radix a :
  radix = 10%Z ∨ radix = 16%Z → radix_digit radix a = digit_in radix a.
Proof.
  intros [->| ->]; destruct a as [[] [] [] [] [] [] [] []]; vm_compute; reflexivity.
Qed.

(** A digit is neither white space nor a sign. *)
Lemma digit_first a r :
  is_Some (digit_in 16 a) →
  white_space_bytes (String a r) = 0 ∧ sign_of (String a r) = (false, String a r).
Proof.
  intros [v Hv]. destruct a as [[] [] [] [] [] [] [] []];
    try (vm_compute in Hv; discriminate); split; vm_compute; reflexivity.
Qed.

Lemma digit_in_16 a v : digit_in 10 a = Some v → is_Some (digit_in 16 a).
Proof.
  unfold digit_in. destruct (digit_value a) as [w|]; [|done].
  destruct (w <? 10)%Z eqn:Hw; [|done]. intros _.
  apply Z.ltb_lt in Hw. destruct (w <? 16)%Z eqn:Hw'; [by eexists|].
  apply Z.ltb_ge in Hw'. lia.
Qed.

Lemma radix_of_cases s :
  (∃ tail, hex_prefixed s tail ∧ radix_of s = (16%Z, tail)) ∨
  ((∀ tail, ¬ hex_prefixed s tail) ∧ radix_of s = (10%Z, s)).
Proof.
  destruct s as [|a s]; [right; split; [by intros tail [?|?]|done]|].
  destruct (ascii_dec a "0") as [->|Ha].
  - destruct s as [|b s]; [right; split; [by intros tail [?|?]|done]|].
    destruct (ascii_dec b "x") as [->|Hx]; [left; exists s; split; [by left|done]|].
    destruct (ascii_dec b "X") as [->|HX]; [left; exists s; split; [by right|done]|].
    right. split; [intros tail [[= ->]|[= ->]]; done|].
    destruct b as [[] [] [] [] [] [] [] []]; done.
  - right. split; [intros tail [[= ->]|[= ->]]; done|].
    destruct a as [[] [] [] [] [] [] [] []]; try done;
      destruct s as [|b s]; done.
Qed.

Lemma hex_prefixed_inj s tail tail' :
  hex_prefixed s tail → hex_prefixed s tail' → tail = tail'.
Proof. intros [->| ->] [[=]|[=]]; done. Qed.

Lemma leading_int_stop radix s acc :
  radix = 10%Z ∨ radix = 16%Z → ¬ starts_with_digit radix s →
  leading_int radix s acc = acc.
Proof.
  intros Hr Hs. destruct s as [|a s]; [done|]. simpl.
  rewrite radix_digit_in by done.
  destruct (digit_in radix a) as [v|] eqn:Hv; [|done].
  destruct Hs. exists a, s. by eauto.
Qed.

Lemma leading_int_positional radix ds tail z acc :
  radix = 10%Z ∨ radix = 16%Z →
  positional radix ds = Some z → ¬ starts_with_digit radix tail →
  leading_int radix (ds +:+ tail) (Some acc)
  = Some (acc * radix ^ Z.of_nat (String.length ds) + z)%Z.
Proof.
  intros Hr. revert z acc. induction ds as [|a ds IH]; intros z acc Hz Htail.
  - injection Hz as <-. change (EmptyString +:+ tail) with tail.
    rewrite leading_int_stop by done. f_equal. simpl. lia.
  - simpl in Hz. destruct (digit_in radix a) as [v|] eqn:Hv; [|done].
    destruct (positional radix ds) as [z'|] eqn:Hz'; [|done]. injection Hz as <-.
    rewrite append_cons. cbn [leading_int]. rewrite radix_digit_in, Hv by done.
    cbn [default id]. rewrite (IH z' _ eq_refl Htail). f_equal.
    change (String.length (String a ds)) with (S (String.length ds)).
    rewrite Nat2Z.inj_succ, Z.pow_succ_r by lia. ring.
Qed.

Lemma leading_int_numeral radix ds tail z :
  radix = 10%Z ∨ radix = 16%Z → ds ≠ EmptyString →
  positional radix ds = Some z → ¬ starts_with_digit radix tail →
  leading_int radix (ds +:+ tail) None = Some z.
Proof.
  intros Hr Hds Hz Htail. destruct ds as [|a ds]; [done|].
  simpl in Hz. destruct (digit_in radix a) as [v|] eqn:Hv; [|done].
  destruct (positional radix ds) as [z'|] eqn:Hz'; [|done]. injection Hz as <-.
  rewrite append_cons. cbn [leading_int]. rewrite radix_digit_in, Hv by done.
  cbn [default id]. rewrite (leading_int_positional radix ds tail z' _ Hr Hz' Htail).
  f_equal. unfold default. ring.
Qed.

Lemma numeral_first radix ds tail z :
  ds ≠ EmptyString → positional radix ds = Some z →
  ∃ a r, ds +:+ tail = String a r ∧ is_Some (digit_in radix a).
Proof.
  intros Hds Hz. destruct ds as [|a ds]; [done|]. simpl in Hz.
  destruct (digit_in radix a) as [v|] eqn:Hv; [|done]. exists a, (ds +:+ tail).
  split; [done|by exists v].
Qed.

(** The sign is read after the white space. *)
Lemma sign_of_skip_spaces ws sign s :
  white_space ws → sign ∈ ["+"; "-"; EmptyString] →
  (sign = EmptyString → white_space_bytes s = 0 ∧ sign_of s = (false, s)) →
  sign_of (skip_spaces (ws +:+ sign +:+ s)) = (bool_decide (sign = "-"), s).
Proof.
  intros Hws Hsign Hs. rewrite skip_spaces_white_space by done.
  apply elem_of_cons in Hsign as [->|Hsign];
    [|apply elem_of_cons in Hsign as [->|Hsign]];
    [| |apply list_elem_of_singleton in Hsign as ->].
  - by rewrite append_cons, skip_spaces_none.
  - by rewrite append_cons, skip_spaces_none.
  - destruct (Hs eq_refl) as [Hspace Hsign].
    change (EmptyString +:+ s) with s. by rewrite skip_spaces_none.
Qed.

Lemma signed_Number_cases negative z :
  signed_Number negative z
  = match z with
    | 0%Z => if negative then neg_zero else zero
    | _ => Number_of_Z (if negative then - z else z)
    end.
Proof. unfold signed_Number. by destruct z. Qed.

Lemma parseInt_string_reads ws sign rest :
  white_space ws → sign ∈ ["+"; "-"; EmptyString] →
  reads sign rest (parseInt_string (ws +:+ sign +:+ rest)).
Proof.
  intros Hws Hsign. unfold parseInt_string. split; [|split].
  - intros ds tail z -> Hds Hz Htail Hhex.
    destruct (numeral_first 10 ds tail z Hds Hz) as (a & r & Hr & Ha).
    rewrite sign_of_skip_spaces; [|done..|].
    2:{ intros _. rewrite Hr. destruct Ha as [v Hv].
        by eapply digit_first, digit_in_16. }
    destruct (radix_of_cases (ds +:+ tail)) as [(tail' & Hp & _)|[_ ->]];
      [by destruct (Hhex tail')|].
    rewrite (leading_int_numeral 10 ds tail z) by auto.
    by rewrite signed_Number_cases.
  - intros ds tail tail' z Hp -> Hds Hz Htail.
    rewrite sign_of_skip_spaces; [|done..|].
    2:{ intros _. destruct Hp as [->| ->]; by apply digit_first. }
    destruct (radix_of_cases rest) as [(tail' & Hp' & ->)|[Hno _]];
      [|by destruct (Hno _ Hp)].
    rewrite <- (hex_prefixed_inj _ _ _ Hp Hp').
    rewrite (leading_int_numeral 16 ds tail z) by auto.
    by rewrite signed_Number_cases.
  - intros Hunsigned Hnone.
    rewrite sign_of_skip_spaces; [|done..|].
    2:{ intros Hs. destruct (Hunsigned Hs) as [Hspace Hsgn].
        split; [by apply white_space_bytes_none|by apply sign_of_unsigned]. }
    destruct Hnone as [Hnone|(tail' & Hp & Hnone)].
    + destruct (radix_of_cases rest) as [(tail' & Hp & _)|[_ ->]].
      * destruct Hnone. destruct Hp as [->| ->]; eexists _, _; by split.
      * by rewrite leading_int_stop by auto.
    + destruct (radix_of_cases rest) as [(tail'' & Hp' & ->)|[Hno _]];
        [|by destruct (Hno _ Hp)].
      rewrite <- (hex_prefixed_inj _ _ _ Hp Hp').
      by rewrite leading_int_stop by auto.
Qed.

(** ** The claims *)

Section Claims.

Variable dtoa : float → string.

(** C1.  Each of the six mutators ([setProperty], [setProperties],
    [removeProperty], [setCoordinates], [setTimestampToNow], [setVersion])
    returns a deep copy and leaves the element it was given unmodified.
    On a document [t] of which the mutation makes a document, the call
    returns.  Whenever it returns, it has only allocated new cells (the
    caller's heap is a prefix of the heap after the call), the argument [E]
    denotes the same document [t] after the call as before, the returned
    element denotes the document the mutation makes of [t], and every cell
    reachable from the returned element was allocated by the call and is
    not reachable from [E]: the two share no structure. *)
Theorem mutators_return_fresh_copy m h E :
  args_ok h m →
  (∀ t t', tree_of h E = Some t → mutate_tree dtoa h m t = Ret t' →
           ∃ E' h', mutate dtoa m E h = Ret (E', h')) ∧
  (∀ E' h',
     mutate dtoa m E h = Ret (E', h') →
     h `prefix_of` h' ∧
     (∃ t t', tree_of h E = Some t ∧ tree_of h' E = Some t ∧
              tree_of h' E' = Some t' ∧ mutate_tree dtoa h m t = Ret t') ∧
     ∀ l, reach h' E' l → length h ≤ l ∧ ¬ reach h' E l).
Proof.
  intros Hargs. split.
  - intros t t' Ht Htree. apply repr_tree_of in Ht.
    pose proof (mutate_refines dtoa h m E t Ht Hargs) as Href.
    rewrite Htree in Href. destruct Href as (l' & hf & Hrun & _). eauto.
  - intros E' h' Hrun.
    destruct (mutate_Ret_tree dtoa _ _ _ _ _ Hargs Hrun)
      as (t & t' & Hr & Htree & Hok).
    apply result_ok_inv in Hok as (Hpre & Hfresh & Hcl & Ht').
    pose proof Hpre as [ext ->].
    split; [done|]. split.
    + exists t, t'. split; [by apply repr_tree_of|].
      split; [apply repr_tree_of; by apply repr_ext|]. done.
    + intros l Hl. pose proof (closed_reach _ _ _ _ Hcl Hfresh Hl) as Hle.
      split; [done|]. intros Hl'.
      pose proof (repr_reach _ _ _ _ _ Hr Hl'). lia.
Qed.

Lemma run_result h r t' :
  result_ok h r t' →
  ∃ E' h', r = Ret (E', h') ∧ h `prefix_of` h' ∧ repr h' E' t' ∧
           tree_of h' E' = Some t'.
Proof.
  intros (l' & hf & -> & Hpre & Hl & Hcl & Hr).
  exists (VRef l'), hf. repeat split; try done. by apply repr_tree_of.
Qed.

Lemma tree_of_prefix h h' E t :
  tree_of h E = Some t → h `prefix_of` h' → tree_of h' E = Some t.
Proof.
  intros Ht [ext ->]. apply repr_tree_of, repr_ext. by apply repr_tree_of.
Qed.

(** C2.  For every element [E] (a document of the heap whose tags can be
    read) and every property name and value with string forms [k] and [s]
    (a string is its own string form), [setProperty(E, name, value)]
    returns an element whose tags are the tags of [E] with another key, in
    their order, followed by the one tag [{k, s}]: exactly one entry has the
    key [k], its value is [s], every other entry is unchanged, and [E]
    itself denotes the same document as before.  The keys of [E] need not
    even be unique for this. *)
Theorem setProperty_sets_tag h E t tags n v k s :
  tree_of h E = Some t →
  element_tags dtoa t = Some tags →
  Forall tag_readable tags →
  toString dtoa n = Ret k →
  toString dtoa v = Ret s →
  ∃ E' h' t' tags',
    setProperty dtoa E n v h = Ret (E', h') ∧
    tree_of h' E' = Some t' ∧
    element_tags dtoa t' = Some tags' ∧
    tags' = filter (λ tg, tag_has_key (VStr k) tg = false) tags ++ [tag_tree k s] ∧
    filter (λ tg, tag_has_key (VStr k) tg = true) tags' = [tag_tree k s] ∧
    filter (λ tg, tag_has_key (VStr k) tg = false) tags'
    = filter (λ tg, tag_has_key (VStr k) tg = false) tags ∧
    tree_of h' E = Some t.
Proof.
  intros Ht Htags Hall Hk Hs.
  destruct (element_tags_inv dtoa _ _ Htags) as (key & fs & Hkey & Hin & Hfs).
  apply tags_read_strict in Hfs.
  pose proof (setProperty_tree_total dtoa _ _ _ _ _ _ _ _ Hkey Hin Hfs Hall Hk Hs)
    as Htree.
  pose proof (setProperty_refines dtoa h E t n v) as Href.
  rewrite Htree in Href. apply repr_tree_of in Ht. specialize (Href Ht).
  destruct (run_result _ _ _ Href) as (E' & h' & Hrun & Hpre & _ & Ht').
  eexists E', h', _, _. split; [done|]. split; [done|].
  split; [by eapply element_tags_put|]. split; [done|].
  split; [|split].
  - rewrite filter_app, filter_filter_none, filter_cons, decide_True;
      [done|apply tag_tree_has_key].
  - rewrite filter_app, filter_filter_same, filter_cons, decide_False;
      [by rewrite filter_nil, app_nil_r|].
    by rewrite tag_tree_has_key.
  - eapply tree_of_prefix; [|done]. by apply repr_tree_of.
Qed.

(** X20.  Setting and then removing a string name: for every element [E]
    whose tags can be read, every string [k] and every value with a string
    form, [removeProperty(setProperty(E, k, v), k)] returns an element whose
    tags are the tags of [E] with another key, in their order: none has the
    key [k].  Removing [k] once more returns the same document again. *)
Theorem removeProperty_after_setProperty h E t tags (k : string) v s :
  tree_of h E = Some t →
  element_tags dtoa t = Some tags →
  Forall tag_readable tags →
  toString dtoa v = Ret s →
  ∃ E1 h1 E2 h2 t2,
    setProperty dtoa E (VStr k) v h = Ret (E1, h1) ∧
    removeProperty dtoa E1 (VStr k) h1 = Ret (E2, h2) ∧
    tree_of h2 E2 = Some t2 ∧
    element_tags dtoa t2
    = Some (filter (λ tg, tag_has_key (VStr k) tg = false) tags) ∧
    (∃ E3 h3, removeProperty dtoa E2 (VStr k) h2 = Ret (E3, h3) ∧
              tree_of h3 E3 = Some t2).
Proof.
  intros Ht Htags Hall Hs.
  destruct (element_tags_inv dtoa _ _ Htags) as (key & fs & Hkey & Hin & Hfs).
  apply tags_read_strict in Hfs.
  pose proof (setProperty_tree_total dtoa _ _ _ _ (VStr k) _ k _
                Hkey Hin Hfs Hall eq_refl Hs) as Htree.
  pose proof (setProperty_refines dtoa h E t (VStr k) v) as Href.
  rewrite Htree in Href. apply repr_tree_of in Ht. specialize (Href Ht).
  destruct (run_result _ _ _ Href) as (E1 & h1 & Hrun1 & _ & Hr1 & _).
  set (kept := filter (λ tg, tag_has_key (VStr k) tg = false) tags) in *.
  assert (Forall tag_readable kept) as Hkept by by apply Forall_readable_filter.
  assert (filter (λ tg, tag_has_key (VStr k) tg = false) (kept ++ [tag_tree k s])
          = kept) as Hagain.
  { unfold kept. rewrite filter_app, filter_filter_same, filter_cons, decide_False;
      [by rewrite filter_nil, app_nil_r|].
    by rewrite tag_tree_has_key. }
  pose proof (removeProperty_refines dtoa h1 E1 _ (VStr k) Hr1 I) as Href2.
  rewrite (removeProperty_tree_put dtoa _ _ _ _ _ _ Hkey Hin) in Href2.
  2:{ apply Forall_app. split; [done|]. constructor; [apply tag_tree_readable|done]. }
  rewrite Hagain in Href2.
  destruct (run_result _ _ _ Href2) as (E2 & h2 & Hrun2 & _ & Hr2 & Ht2).
  pose proof (removeProperty_refines dtoa h2 E2 _ (VStr k) Hr2 I) as Href3.
  rewrite (removeProperty_tree_put dtoa _ _ _ _ _ _ Hkey Hin Hkept) in Href3.
  unfold kept in Href3 at 1. rewrite filter_filter_same in Href3. fold kept in Href3.
  destruct (run_result _ _ _ Href3) as (E3 & h3 & Hrun3 & _ & _ & Ht3).
  eexists E1, h1, E2, h2, _. split; [done|]. split; [done|]. split; [done|].
  split; [by eapply element_tags_put|]. by exists E3, h3.
Qed.

(** C10.  [setProperty] compares and stores the string form of the name,
    [removeProperty] compares the stored keys with the name itself: for
    every element [E] and every name [n] that is not a string, when
    [setProperty(E, n, v)] returns, the tags of its result end with the tag
    stored under the string form [k] of [n], and [removeProperty] with the
    same [n] on that result returns an element whose tags still end with
    that tag: the only tags it drops are earlier ones whose key is strictly
    equal to [n]. *)
Theorem removeProperty_misses_coerced_name h E n v E1 h1 :
  (∀ s, n ≠ VStr s) →
  setProperty dtoa E n v h = Ret (E1, h1) →
  ∃ k s t1 tags1 E2 h2 t2,
    toString dtoa n = Ret k ∧ toString dtoa v = Ret s ∧
    tree_of h1 E1 = Some t1 ∧
    element_tags dtoa t1 = Some (tags1 ++ [tag_tree k s]) ∧
    Forall (λ tg, tag_has_key (VStr k) tg = false) tags1 ∧
    removeProperty dtoa E1 n h1 = Ret (E2, h2) ∧
    tree_of h2 E2 = Some t2 ∧
    element_tags dtoa t2
    = Some (filter (λ tg, tag_has_key n tg = false) tags1 ++ [tag_tree k s]).
Proof.
  intros Hn Hrun.
  destruct (mutate_Ret_tree dtoa h (SetProperty n v) E E1 h1 I Hrun)
    as (t & t1 & Hr & Htree & Hok).
  simpl in Htree.
  apply setProperty_tree_inv in Htree
    as (key & fs & tags & k & s & Hkey & Hin & Hread & Hk & Hs & Hall & ->).
  destruct (run_result _ _ _ Hok) as (? & ? & [= <- <-] & _ & Hr1 & Ht1).
  set (kept := filter (λ tg, tag_has_key (VStr k) tg = false) tags) in *.
  assert (Forall tag_readable kept) as Hkept by by apply Forall_readable_filter.
  assert (known (length h1) n ∧ tag_has_key n (tag_tree k s) = false) as [Hknown Hmiss].
  { destruct n as [p|l]; [|done]. split; [done|].
    unfold tag_has_key. simpl. destruct p as [| |b|x|s']; try done.
    by destruct (Hn s'). }
  pose proof (removeProperty_refines dtoa h1 E1 _ n Hr1 Hknown) as Href2.
  rewrite (removeProperty_tree_put dtoa _ _ _ _ _ _ Hkey Hin) in Href2.
  2:{ apply Forall_app. split; [done|]. constructor; [apply tag_tree_readable|done]. }
  rewrite filter_app, filter_cons, decide_True, filter_nil in Href2 by done.
  destruct (run_result _ _ _ Href2) as (E2 & h2 & Hrun2 & _ & _ & Ht2).
  eexists k, s, _, kept, E2, h2, _.
  split; [done|]. split; [done|]. split; [done|].
  split; [by eapply element_tags_put|].
  split; [|split; [done|split; [done|by eapply element_tags_put]]].
  apply Forall_forall. intros tg Htg. by apply list_elem_of_filter in Htg as [? _].
Qed.

(** C9.  On an element whose inner object has no [tag] property,
    [setProperty] and [setProperties] return: the result carries just the
    new tags, as if the element had an empty tag array.  [removeProperty]
    on such an element throws, whatever the name: it calls [filter] on
    [undefined]. *)
Theorem missing_tag_array h E t fs :
  tree_of h E = Some t →
  element_inner dtoa t = Ret (TObject fs) →
  assoc "tag" fs = None →
  (∀ n v k s,
     toString dtoa n = Ret k → toString dtoa v = Ret s →
     ∃ E' h' t',
       setProperty dtoa E n v h = Ret (E', h') ∧
       tree_of h' E' = Some t' ∧
       element_tags dtoa t' = Some [tag_tree k s]) ∧
  (∀ properties tp kvs,
     tree_of h properties = Some tp → string_props dtoa tp kvs →
     ∃ E' h' t',
       setProperties dtoa E properties h = Ret (E', h') ∧
       tree_of h' E' = Some t' ∧
       element_tags dtoa t' = Some ((λ kv, tag_tree kv.1 kv.2) <$> kvs)) ∧
  (∀ n, known (length h) n → removeProperty dtoa E n h = Throw).
Proof.
  intros Ht Hinner Htag. apply repr_tree_of in Ht.
  unfold element_inner in Hinner.
  apply obind_Ret in Hinner as (key & Hkey & Hin).
  assert (tags_read fs []) as Hread by (right; by rewrite Htag).
  split; [|split].
  - intros n v k s Hk Hs.
    pose proof (setProperty_refines dtoa h E t n v Ht) as Href.
    rewrite (setProperty_tree_total dtoa _ _ _ _ _ _ _ _ Hkey Hin Hread
               (Forall_nil_2 _) Hk Hs) in Href.
    destruct (run_result _ _ _ Href) as (E' & h' & Hrun & _ & _ & Ht').
    eexists E', h', _. split; [done|]. split; [done|].
    by eapply element_tags_put.
  - intros properties tp kvs Hp Hprops. apply repr_tree_of in Hp.
    destruct (formatted_tags_props dtoa _ _ Hprops) as [Hnames Hfmt].
    pose proof (setProperties_refines dtoa h E t properties tp Ht Hp) as Href.
    rewrite (setProperties_tree_total dtoa _ _ _ _ _ _ _ Hnames Hkey Hin Hread
               (Forall_nil_2 _) Hfmt) in Href.
    destruct (run_result _ _ _ Href) as (E' & h' & Hrun & _ & _ & Ht').
    eexists E', h', _. split; [done|]. split; [done|].
    by eapply element_tags_put.
  - intros n Hn.
    pose proof (removeProperty_refines dtoa h E t n Ht Hn) as Href.
    unfold removeProperty_tree in Href.
    rewrite Hkey in Href. cbn [obind] in Href. rewrite Hin in Href.
    cbn [obind] in Href. rewrite tree_get_object, Htag in Href. exact Href.
Qed.

Lemma refines_Ret h r o E' h' :
  refines h r o → r = Ret (E', h') →
  ∃ t', o = Ret t' ∧ tree_of h' E' = Some t' ∧ h `prefix_of` h'.
Proof.
  intros Href ->. destruct o as [t'| |]; simpl in Href; [|done..].
  exists t'. destruct (run_result _ _ _ Href) as (? & ? & [= <- <-] & ? & _ & ?).
  done.
Qed.

(** C5.  For every element [E] with an attributes object, every [lat] and
    [lon] with a string form and every primitive [version],
    [setCoordinates(E, lat, lon)] and [setVersion(E, version)] return an
    element with the tag list of [E]: its [tag] property reads as the same
    array of the same tags. *)
Theorem coordinates_and_version_keep_tags h E t attrs :
  tree_of h E = Some t →
  element_attrs dtoa t = Ret (TObject attrs) →
  (∀ lat lon la lo,
     toString dtoa lat = Ret la → toString dtoa lon = Ret lo →
     ∃ E' h' t',
       setCoordinates dtoa E lat lon h = Ret (E', h') ∧
       tree_of h' E' = Some t' ∧
       element_tag_field dtoa t' = element_tag_field dtoa t ∧
       element_tags dtoa t' = element_tags dtoa t) ∧
  (∀ version : prim,
     ∃ E' h' t',
       setVersion dtoa E (VPrim version) h = Ret (E', h') ∧
       tree_of h' E' = Some t' ∧
       element_tag_field dtoa t' = element_tag_field dtoa t ∧
       element_tags dtoa t' = element_tags dtoa t).
Proof.
  intros Ht Hattrs. apply repr_tree_of in Ht.
  apply obind_Ret in Hattrs as (key & Hkey & Hattrs). split.
  - intros lat lon la lo Hla Hlo.
    pose proof (setCoordinates_refines dtoa h E t lat lon Ht) as Href.
    rewrite (setCoordinates_tree_total dtoa _ _ _ _ _ _ _ Hkey Hattrs Hla Hlo)
      in Href.
    destruct (run_result _ _ _ Href) as (E' & h' & Hrun & _ & _ & Ht').
    eexists E', h', _. split; [done|]. split; [done|].
    by eapply put_attrs_tag_field.
  - intros version.
    pose proof (setVersion_refines dtoa h E t (VPrim version) Ht) as Href.
    rewrite (setVersion_tree_total dtoa _ _ _ (VPrim version)
               (parseInt_string (ToString dtoa version)) Hkey Hattrs eq_refl)
      in Href.
    destruct (run_result _ _ _ Href) as (E' & h' & Hrun & _ & _ & Ht').
    eexists E', h', _. split; [done|]. split; [done|].
    by eapply put_attrs_tag_field.
Qed.

(** C7, as the code has it.  For every element [E] with an attributes
    object and every primitive [version], [setVersion(E, version)] returns
    an element whose [version] attribute is the string form of the Number
    [parseInt(version)].  With the string form of [version] read as white
    space, an optional sign and the rest, that Number is the one nearest to
    the decimal integer the rest starts with, or to the hexadecimal integer
    after a prefix [0x] or [0X], negated after a minus sign; it is [NaN],
    stored as the string "NaN", when no digit stands there: the argument is
    parsed, never validated. *)
Theorem setVersion_stores_parseInt h E t attrs (version : prim) :
  tree_of h E = Some t →
  element_attrs dtoa t = Ret (TObject attrs) →
  ∃ E' h' t' n,
    setVersion dtoa E (VPrim version) h = Ret (E', h') ∧
    tree_of h' E' = Some t' ∧
    element_version dtoa t' = Ret (TStr (Number_toString dtoa n)) ∧
    Number_toString dtoa nan = "NaN" ∧
    ∀ ws sign rest,
      ToString dtoa version = ws +:+ sign +:+ rest →
      white_space ws → sign ∈ ["+"; "-"; EmptyString] →
      reads sign rest n.
Proof.
  intros Ht Hattrs. apply repr_tree_of in Ht.
  apply obind_Ret in Hattrs as (key & Hkey & Hattrs).
  set (n := parseInt_string (ToString dtoa version)).
  pose proof (setVersion_refines dtoa h E t (VPrim version) Ht) as Href.
  rewrite (setVersion_tree_total dtoa _ _ _ (VPrim version) n Hkey Hattrs eq_refl)
    in Href.
  destruct (run_result _ _ _ Href) as (E' & h' & Hrun & _ & _ & Ht').
  eexists E', h', _, n. split; [done|]. split; [done|]. split; [|split; [done|]].
  - unfold element_version. erewrite element_attrs_put by done.
    simpl. by rewrite assoc_set_field, decide_True.
  - intros ws sign rest Hs Hws Hsign. unfold n. rewrite Hs.
    by apply parseInt_string_reads.
Qed.

Lemma mutate_tree_shape h m t t' :
  args_ok h m →
  NoDup (element_tag_keys dtoa t) →
  mutate_tree dtoa h m t = Ret t' →
  ∃ key fs x,
    element_key dtoa t = Ret key ∧
    tree_get_path t (inner_path key) = Ret (TObject fs) ∧
    t' = tree_put_path t (inner_path key)
           (TObject (set_field (target_field m) x fs)) ∧
    NoDup (element_tag_keys dtoa t') ∧
    (target_field m = "$" →
     ∃ attrs, assoc "$" fs = Some attrs ∧
              ∀ a, a ∉ target_attrs m → tree_get x a = tree_get attrs a).
Proof.
  intros Hargs Hnd Htree.
  assert (∀ key attrs attrs',
            element_key dtoa t = Ret key →
            tree_get_path t (attrs_path key) = Ret (TObject attrs) →
            t' = tree_put_path t (attrs_path key) (TObject attrs') →
            target_field m = "$" →
            (∀ a, a ∉ target_attrs m →
                  tree_get (TObject attrs') a = tree_get (TObject attrs) a) →
            ∃ key fs x,
              element_key dtoa t = Ret key ∧
              tree_get_path t (inner_path key) = Ret (TObject fs) ∧
              t' = tree_put_path t (inner_path key)
                     (TObject (set_field (target_field m) x fs)) ∧
              NoDup (element_tag_keys dtoa t') ∧
              (target_field m = "$" →
               ∃ attrs, assoc "$" fs = Some attrs ∧
                        ∀ a, a ∉ target_attrs m → tree_get x a = tree_get attrs a))
    as Hattr.
  { intros key attrs attrs' Hkey Hattrs -> Hfield Hother.
    destruct (attrs_inner _ _ _ Hattrs I) as (fs & Hin & Hfs & Hput).
    exists key, fs, (TObject attrs'). rewrite Hfield.
    split; [done|]. split; [done|]. split; [by rewrite Hput|]. split.
    - unfold element_tag_keys.
      by rewrite (proj2 (put_attrs_tag_field dtoa _ _ _ _ Hkey Hattrs I)).
    - intros _. by exists (TObject attrs). }
  destruct m as [n v|p|n|lat lon|now|v]; simpl in Htree.
  - apply setProperty_tree_inv in Htree
      as (key & fs & tags & k & s & Hkey & Hin & Hread & Hk & Hs & Hall & ->).
    eexists key, fs, _. split; [done|]. split; [done|]. split; [done|].
    split; [|done]. erewrite element_tag_keys_put by done.
    apply NoDup_keys_setProperty.
    by erewrite <- tags_read_keys by eauto using element_inner_path.
  - simpl in Hargs. destruct (tree_of h p) as [tp|]; [|done].
    apply setProperties_tree_inv in Htree
      as (key & fs & tags & names & fmt & Hnames & Hkey & Hin & Hread & Hall
          & Hfmt & ->).
    eexists key, fs, _. split; [done|]. split; [done|]. split; [done|].
    split; [|done]. erewrite element_tag_keys_put by done.
    eapply NoDup_keys_setProperties; [|done|].
    + by rewrite (tree_keys_names _ _ Hnames).
    + by erewrite <- tags_read_keys by eauto using element_inner_path.
  - apply removeProperty_tree_inv in Htree
      as (key & fs & tags & Hkey & Hin & Htag & Hall & ->).
    eexists key, fs, _. split; [done|]. split; [done|]. split; [done|].
    split; [|done]. erewrite element_tag_keys_put by done.
    apply NoDup_keys_filter.
    erewrite <- tags_read_keys; [done|by eauto using element_inner_path|by left].
  - apply setCoordinates_tree_inv in Htree
      as (key & attrs & la & lo & Hkey & Hattrs & _ & _ & Ht').
    eapply Hattr; [done..|]. intros a Ha.
    rewrite !tree_get_assign_other; [done|..]; intros <-; apply Ha; set_solver.
  - apply setTimestampToNow_tree_inv in Htree as (key & attrs & Hkey & Hattrs & Ht').
    eapply Hattr; [done..|]. intros a Ha.
    rewrite !tree_get_assign_other; [done|..]; intros <-; apply Ha; set_solver.
  - apply setVersion_tree_inv in Htree as (key & attrs & n & Hkey & Hattrs & _ & Ht').
    eapply Hattr; [done..|]. intros a Ha.
    rewrite !tree_get_assign_other; [done|..]; intros <-; apply Ha; set_solver.
Qed.

(** C4.  For every element [E] whose tag keys are distinct and each of the
    six mutations, when the mutator returns, the tag keys of the returned
    element are distinct, and the returned document is the document of [E]
    with one property of its inner object assigned: [tag] for the three tag
    mutators, the attributes object [$] for the other three.  Every other
    property of the element and of its inner object reads as before, and of
    the attributes every one but those the mutator sets ([lat] and [lon],
    [timestamp], [version]) reads as before. *)
Theorem mutation_keeps_keys_unique m h E t E' h' :
  args_ok h m →
  tree_of h E = Some t →
  NoDup (element_tag_keys dtoa t) →
  mutate dtoa m E h = Ret (E', h') →
  ∃ t' key fs x,
    tree_of h' E' = Some t' ∧
    NoDup (element_tag_keys dtoa t') ∧
    element_key dtoa t = Ret key ∧
    tree_get_path t (inner_path key) = Ret (TObject fs) ∧
    t' = tree_put_path t (inner_path key)
           (TObject (set_field (target_field m) x fs)) ∧
    element_inner dtoa t' = Ret (TObject (set_field (target_field m) x fs)) ∧
    (∀ k, k ≠ "osm" → tree_get t' k = tree_get t k) ∧
    (∀ k, k ≠ target_field m →
          tree_get (TObject (set_field (target_field m) x fs)) k
          = tree_get (TObject fs) k) ∧
    (target_field m = "$" →
     ∃ attrs, assoc "$" fs = Some attrs ∧
              ∀ a, a ∉ target_attrs m → tree_get x a = tree_get attrs a).
Proof.
  intros Hargs Ht Hnd Hrun. apply repr_tree_of in Ht.
  destruct (refines_Ret _ _ _ _ _ (mutate_refines dtoa h m E t Ht Hargs) Hrun)
    as (t' & Htree & Ht' & _).
  destruct (mutate_tree_shape _ _ _ _ Hargs Hnd Htree)
    as (key & fs & x & Hkey & Hin & Hput & Hnd' & Hattrs).
  exists t', key, fs, x. split; [done|]. split; [done|]. split; [done|].
  split; [done|]. split; [done|]. split; [|split; [|split; [|done]]].
  - rewrite Hput. by eapply element_inner_put.
  - intros k Hk. rewrite Hput. by apply tree_get_put_other.
  - intros k Hk. by apply tree_get_assign_other.
Qed.

(** C6.  [createNodeElement(48.8, 2.3, { name: "Cafe" })] returns an
    element of type node with exactly one node, whose [lat] is 48.8 and
    [lon] is 2.3, carrying exactly the one tag with key "name" and value
    "Cafe".  In general, for every [lat] and [lon] and every [properties]
    object whose values have string forms, [createNodeElement(lat, lon,
    properties)] returns a new element of type node with one node, the
    given coordinates, and one tag per property of [properties], in their
    order, each with the property name as key and the string form of the
    property value as value; without [properties] the node has no tag.  The
    caller's heap is left as it was. *)
Theorem createNodeElement_node :
  (createNodeElement dtoa (VPrim (PNum 48.8%float)) (VPrim (PNum 2.3%float))
     (VRef 0) cafe_properties = Ret (cafe, cafe_heap) ∧
   tree_of cafe_heap cafe
   = Some (node_tree (TPrim (PNum 48.8%float)) (TPrim (PNum 2.3%float))
             [tag_tree "name" "Cafe"])) ∧
  (∀ h lat lon properties tlat tlon tp kvs,
     tree_of h lat = Some tlat →
     tree_of h lon = Some tlon →
     tree_of h properties = Some tp →
     string_props dtoa tp kvs →
     ∃ E' h',
       createNodeElement dtoa lat lon properties h = Ret (E', h') ∧
       h `prefix_of` h' ∧
       tree_of h' E'
       = Some (node_tree tlat tlon ((λ kv, tag_tree kv.1 kv.2) <$> kvs))) ∧
  (∀ h lat lon tlat tlon,
     tree_of h lat = Some tlat →
     tree_of h lon = Some tlon →
     ∃ E' h',
       createNodeElement dtoa lat lon undefined h = Ret (E', h') ∧
       h `prefix_of` h' ∧
       tree_of h' E' = Some (node_tree tlat tlon [])).
Proof.
  split; [split; vm_compute; reflexivity|].
  assert (∀ h lat lon properties tlat tlon tp kvs,
            tree_of h lat = Some tlat →
            tree_of h lon = Some tlon →
            tree_of h properties = Some tp →
            string_props dtoa tp kvs →
            ∃ E' h',
              createNodeElement dtoa lat lon properties h = Ret (E', h') ∧
              h `prefix_of` h' ∧
              tree_of h' E'
              = Some (node_tree tlat tlon ((λ kv, tag_tree kv.1 kv.2) <$> kvs)))
    as Hgen; [|split; [exact Hgen|]].
  2:{ intros h lat lon tlat tlon Hlat Hlon.
      destruct (Hgen (h ++ [CObject []]) lat lon (VRef (length h)) tlat tlon
                  (TObject []) [])
        as (E' & h' & Hrun & Hpre & Ht').
      - by apply (tree_of_prefix h), prefix_app_r.
      - by apply (tree_of_prefix h), prefix_app_r.
      - apply repr_tree_of. eapply repr_object; [by apply list_lookup_middle|].
        constructor.
      - exists []. split; [done|]. split; constructor.
      - exists E', h'. split; [exact Hrun|]. split; [|done].
        etrans; [|exact Hpre]. by apply prefix_app_r. }
  intros h lat lon properties tlat tlon tp kvs Hlat Hlon Hp Hprops.
  apply repr_tree_of in Hlat, Hlon, Hp.
  assert (properties ≠ undefined) as Hdef.
  { intros ->. destruct Hprops as (fs & -> & _). inversion Hp. }
  pose proof (createNodeElement_run dtoa h lat lon properties tlat tlon tp
                Hlat Hlon Hp Hdef) as Hrun.
  destruct (formatted_tags_props dtoa _ _ Hprops) as [Hnames Hfmt].
  unfold createNodeElement_tree in Hrun. rewrite Hnames in Hrun.
  cbn [obind] in Hrun. rewrite Hfmt in Hrun.
  destruct Hrun as (ext & Hrun & Hr).
  eexists _, _. split; [exact Hrun|]. split; [by apply prefix_app_r|].
  by apply repr_tree_of.
Qed.

End Claims.

(** ** Runs on the worked element *)

Lemma mutators_return_fresh_copy_witness :
  ∃ E' h',
    mutate integer_digits (SetProperty (VStr "name") (VStr "Bar")) cafe cafe_heap
    = Ret (E', h') ∧
    cafe_heap `prefix_of` h' ∧
    (∃ t t', tree_of cafe_heap cafe = Some t ∧ tree_of h' cafe = Some t ∧
             tree_of h' E' = Some t' ∧
             mutate_tree integer_digits cafe_heap
               (SetProperty (VStr "name") (VStr "Bar")) t = Ret t') ∧
    ∀ l, reach h' E' l → length cafe_heap ≤ l ∧ ¬ reach h' cafe l.
Proof.
  destruct (mutators_return_fresh_copy integer_digits
              (SetProperty (VStr "name") (VStr "Bar")) cafe_heap cafe I)
    as [Hreturns Hcopy].
  destruct (Hreturns cafe_tree
              (node_tree (TPrim (PNum 48.8%float)) (TPrim (PNum 2.3%float))
                 [tag_tree "name" "Bar"])
              ltac:(vm_compute; reflexivity) ltac:(vm_compute; reflexivity))
    as (E' & h' & Hrun).
  exists E', h'. split; [exact Hrun|]. exact (Hcopy E' h' Hrun).
Defined.

(** ** The constructor and the endpoint *)

Section Endpoint.

Variable defaultOptions : gmap string value.

Lemma removeTrailingSlashes_slashes n : removeTrailingSlashes (slashes n) = EmptyString.
Proof. induction n as [|n IH]; [done|]. simpl. by rewrite IH. Qed.

Lemma removeTrailingSlashes_strips u n :
  ¬ ends_with_slash u → removeTrailingSlashes (u +:+ slashes n) = u.
Proof.
  induction u as [|c u IH]; intros Hu; simpl.
  - apply removeTrailingSlashes_slashes.
  - rewrite IH.
    + destruct u as [|c' u]; [|done].
      destruct (Ascii.eqb_spec c "/") as [->|]; [|done].
      destruct Hu. by exists EmptyString.
    + intros [s' ->]. apply Hu. by exists (String c s').
Qed.

Lemma constructor_Ret options url :
  (options ∪ defaultOptions) !! "endpoint" = Some (VStr url) →
  ∃ this,
    constructor defaultOptions options = Ret this ∧
    endpoint this = VStr (removeTrailingSlashes url) ∧
    _auth this !! "url" = Some (VStr (removeTrailingSlashes url)).
Proof.
  intros Hopt. unfold constructor, option_of. rewrite Hopt. simpl.
  eexists. split; [done|]. unfold endpoint, option_of. simpl.
  by rewrite !lookup_insert_eq.
Qed.

End Endpoint.

(** ** More runs on the worked elements *)

Lemma cafe_tags_readable : Forall tag_readable cafe_tags.
Proof. repeat constructor. by exists (TStr "name"). Qed.

Lemma setProperty_sets_tag_witness :
  ∃ E' h' t' tags',
    setProperty integer_digits cafe (VStr "name") (VStr "Bar") cafe_heap = Ret (E', h') ∧
    tree_of h' E' = Some t' ∧
    element_tags integer_digits t' = Some tags' ∧
    tags' = filter (λ tg, tag_has_key (VStr "name") tg = false) cafe_tags
            ++ [tag_tree "name" "Bar"] ∧
    filter (λ tg, tag_has_key (VStr "name") tg = true) tags' = [tag_tree "name" "Bar"] ∧
    filter (λ tg, tag_has_key (VStr "name") tg = false) tags'
    = filter (λ tg, tag_has_key (VStr "name") tg = false) cafe_tags ∧
    tree_of h' cafe = Some cafe_tree.
Proof.
  apply (setProperty_sets_tag integer_digits cafe_heap cafe cafe_tree cafe_tags
           (VStr "name") (VStr "Bar") "name" "Bar");
    [vm_compute; reflexivity | vm_compute; reflexivity | apply cafe_tags_readable
    | reflexivity | reflexivity].
Defined.

(** C3.  With the name [true], [removeProperty] after [setProperty] does
    not give the tags of the element without the name: on the worked element,
    whose one tag is name=Cafe, [removeProperty(setProperty(E, true, "yes"),
    true)] returns an element that still carries the tag stored under
    "true".  [setProperty] stores and compares [propertyName.toString()],
    [removeProperty] compares the stored keys with [propertyName] itself. *)
Theorem removeProperty_after_setProperty_name_true :
  tags_after integer_digits
    (let! E1 := setProperty integer_digits cafe (VPrim (PBool true)) (VStr "yes") in
     removeProperty integer_digits E1 (VPrim (PBool true)))
    cafe_heap
  = Some [tag_tree "name" "Cafe"; tag_tree "true" "yes"].
Proof. vm_compute. reflexivity. Qed.

Lemma removeProperty_after_setProperty_witness :
  ∃ E1 h1 E2 h2 t2,
    setProperty integer_digits cafe (VStr "name") (VStr "Bar") cafe_heap = Ret (E1, h1) ∧
    removeProperty integer_digits E1 (VStr "name") h1 = Ret (E2, h2) ∧
    tree_of h2 E2 = Some t2 ∧
    element_tags integer_digits t2
    = Some (filter (λ tg, tag_has_key (VStr "name") tg = false) cafe_tags) ∧
    (∃ E3 h3, removeProperty integer_digits E2 (VStr "name") h2 = Ret (E3, h3) ∧
              tree_of h3 E3 = Some t2).
Proof.
  apply (removeProperty_after_setProperty integer_digits cafe_heap cafe cafe_tree
           cafe_tags "name" (VStr "Bar") "Bar");
    [vm_compute; reflexivity | vm_compute; reflexivity | apply cafe_tags_readable
    | reflexivity].
Defined.

Lemma bistro_keys_distinct : NoDup (element_tag_keys integer_digits bistro_tree).
Proof.
  vm_compute.
  repeat (apply NoDup_cons; split;
          [rewrite ?not_elem_of_cons; repeat split;
           (discriminate || apply not_elem_of_nil)|]).
  apply NoDup_nil_2.
Qed.

Lemma mutation_keeps_keys_unique_witness :
  (∃ E' h' t',
     mutate integer_digits (SetProperty (VStr "amenity") (VStr "bar")) bistro bistro_heap
     = Ret (E', h') ∧
     tree_of h' E' = Some t' ∧
     NoDup (element_tag_keys integer_digits t') ∧
     element_tag_keys integer_digits t'
     = [Ret (TStr "name"); Ret (TStr "cuisine"); Ret (TStr "amenity")]) ∧
  (∃ E' h' t',
     mutate integer_digits (SetProperties (VRef 12)) bistro bistro_heap = Ret (E', h') ∧
     tree_of h' E' = Some t' ∧
     NoDup (element_tag_keys integer_digits t') ∧
     element_tag_keys integer_digits t'
     = [Ret (TStr "name"); Ret (TStr "cuisine"); Ret (TStr "amenity");
        Ret (TStr "wifi")]) ∧
  (∃ E' h' t',
     mutate integer_digits (RemoveProperty (VStr "name")) bistro bistro_heap
     = Ret (E', h') ∧
     tree_of h' E' = Some t' ∧
     NoDup (element_tag_keys integer_digits t') ∧
     element_tag_keys integer_digits t'
     = [Ret (TStr "amenity"); Ret (TStr "cuisine")]).
Proof.
  split; [|split].
  - eexists _, _.
    destruct (mutation_keeps_keys_unique integer_digits
                (SetProperty (VStr "amenity") (VStr "bar")) bistro_heap bistro
                bistro_tree _ _ I ltac:(vm_compute; reflexivity)
                bistro_keys_distinct ltac:(vm_compute; reflexivity))
      as (t' & key & fs & x & Ht' & Hnd & _).
    exists t'. split; [vm_compute; reflexivity|]. split; [done|]. split; [done|].
    vm_compute in Ht'. injection Ht' as <-. vm_compute. reflexivity.
  - eexists _, _.
    destruct (mutation_keeps_keys_unique integer_digits
                (SetProperties (VRef 12)) bistro_heap bistro
                bistro_tree _ _
                ltac:(vm_compute; apply NoDup_cons; split;
                        [by intros ?%list_elem_of_singleton|apply NoDup_singleton])
                ltac:(vm_compute; reflexivity)
                bistro_keys_distinct ltac:(vm_compute; reflexivity))
      as (t' & key & fs & x & Ht' & Hnd & _).
    exists t'. split; [vm_compute; reflexivity|]. split; [done|]. split; [done|].
    vm_compute in Ht'. injection Ht' as <-. vm_compute. reflexivity.
  - eexists _, _.
    destruct (mutation_keeps_keys_unique integer_digits
                (RemoveProperty (VStr "name")) bistro_heap bistro
                bistro_tree _ _ I ltac:(vm_compute; reflexivity)
                bistro_keys_distinct ltac:(vm_compute; reflexivity))
      as (t' & key & fs & x & Ht' & Hnd & _).
    exists t'. split; [vm_compute; reflexivity|]. split; [done|]. split; [done|].
    vm_compute in Ht'. injection Ht' as <-. vm_compute. reflexivity.
Defined.

Lemma coordinates_and_version_keep_tags_witness :
  (∃ E' h' t',
     setCoordinates integer_digits cafe (VStr "48.9") (VStr "2.4") cafe_heap
     = Ret (E', h') ∧
     tree_of h' E' = Some t' ∧
     element_tag_field integer_digits t' = element_tag_field integer_digits cafe_tree ∧
     element_tags integer_digits t' = element_tags integer_digits cafe_tree) ∧
  (∃ E' h' t',
     setVersion integer_digits cafe (VPrim (PNum 3%float)) cafe_heap = Ret (E', h') ∧
     tree_of h' E' = Some t' ∧
     element_tag_field integer_digits t' = element_tag_field integer_digits cafe_tree ∧
     element_tags integer_digits t' = element_tags integer_digits cafe_tree).
Proof.
  destruct (coordinates_and_version_keep_tags integer_digits cafe_heap cafe
              cafe_tree cafe_attrs_fields
              ltac:(vm_compute; reflexivity) ltac:(vm_compute; reflexivity))
    as [Hcoordinates Hversion].
  split.
  - exact (Hcoordinates (VStr "48.9") (VStr "2.4") "48.9" "2.4" eq_refl eq_refl).
  - exact (Hversion (PNum 3%float)).
Defined.

Lemma createNodeElement_node_witness :
  ∃ E' h',
    createNodeElement integer_digits (VPrim (PNum 48.8%float))
      (VPrim (PNum 2.3%float)) (VRef 0) cafe_properties = Ret (E', h') ∧
    cafe_properties `prefix_of` h' ∧
    tree_of h' E'
    = Some (node_tree (TPrim (PNum 48.8%float)) (TPrim (PNum 2.3%float))
              ((λ kv, tag_tree kv.1 kv.2) <$> [("name", "Cafe")])).
Proof.
  apply (proj1 (proj2 (createNodeElement_node integer_digits))
           cafe_properties (VPrim (PNum 48.8%float)) (VPrim (PNum 2.3%float)) (VRef 0)
           _ _ (TObject [("name", TStr "Cafe")]) [("name", "Cafe")]);
    [reflexivity | reflexivity | vm_compute; reflexivity |].
  exists [("name", TStr "Cafe")]. split; [done|]. split.
  - apply NoDup_singleton.
  - repeat constructor.
Defined.

(** [setVersion] with a version that starts with no integer stores the
    string "NaN". *)
Lemma setVersion_stores_parseInt_counterexample :
  version_after integer_digits cafe (VStr "abc") cafe_heap = Some (TStr "NaN").
Proof. vm_compute. reflexivity. Qed.

Lemma no_break_space : white_space (utf8 160).
Proof.
  change (utf8 160) with (utf8 160 +:+ EmptyString).
  apply white_space_cons; [|apply white_space_nil].
  unfold StrWhiteSpaceChar. set_solver.
Qed.

Lemma setVersion_stores_parseInt_witness :
  (∃ E' h' t',
     setVersion integer_digits cafe (VStr (utf8 160 +:+ "+3rd")) cafe_heap
     = Ret (E', h') ∧
     tree_of h' E' = Some t' ∧
     element_version integer_digits t' = Ret (TStr "3")) ∧
  (∃ E' h' t',
     setVersion integer_digits cafe (VStr "-0X1f") cafe_heap = Ret (E', h') ∧
     tree_of h' E' = Some t' ∧
     element_version integer_digits t' = Ret (TStr "-31")) ∧
  (∃ E' h' t',
     setVersion integer_digits cafe (VStr "v2") cafe_heap = Ret (E', h') ∧
     tree_of h' E' = Some t' ∧
     element_version integer_digits t' = Ret (TStr "NaN")).
Proof.
  split; [|split].
  - destruct (setVersion_stores_parseInt integer_digits cafe_heap cafe cafe_tree
                cafe_attrs_fields (PStr (utf8 160 +:+ "+3rd"))
                ltac:(vm_compute; reflexivity) ltac:(vm_compute; reflexivity))
      as (E' & h' & t' & n & Hrun & Ht' & Hv & _ & Hreads).
    destruct (Hreads (utf8 160) "+" "3rd" eq_refl no_break_space ltac:(set_solver))
      as (Hdecimal & _).
    rewrite (Hdecimal "3" "rd" 3%Z) in Hv.
    + exists E', h', t'. split; [done|]. split; [done|]. exact Hv.
    + reflexivity.
    + discriminate.
    + reflexivity.
    + intros (a & tail & [= <- <-] & v & Hd). vm_compute in Hd. discriminate.
    + intros tail' [H|H]; discriminate.
  - destruct (setVersion_stores_parseInt integer_digits cafe_heap cafe cafe_tree
                cafe_attrs_fields (PStr "-0X1f")
                ltac:(vm_compute; reflexivity) ltac:(vm_compute; reflexivity))
      as (E' & h' & t' & n & Hrun & Ht' & Hv & _ & Hreads).
    destruct (Hreads EmptyString "-" "0X1f" eq_refl white_space_nil ltac:(set_solver))
      as (_ & Hhex & _).
    rewrite (Hhex "1f" EmptyString "1f" 31%Z) in Hv.
    + exists E', h', t'. split; [done|]. split; [done|]. exact Hv.
    + by right.
    + reflexivity.
    + discriminate.
    + reflexivity.
    + intros (a & tail & [=] & _).
  - destruct (setVersion_stores_parseInt integer_digits cafe_heap cafe cafe_tree
                cafe_attrs_fields (PStr "v2")
                ltac:(vm_compute; reflexivity) ltac:(vm_compute; reflexivity))
      as (E' & h' & t' & n & Hrun & Ht' & Hv & Hnan & Hreads).
    destruct (Hreads EmptyString EmptyString "v2" eq_refl white_space_nil
                ltac:(set_solver))
      as (_ & _ & Hnone).
    rewrite Hnone, Hnan in Hv.
    + exists E', h', t'. by split; [|split].
    + intros _. split.
      * intros (c & tail & Hc & Heq). unfold StrWhiteSpaceChar in Hc.
        repeat (apply elem_of_cons in Hc as [->|Hc]; [by vm_compute in Heq|]).
        by apply elem_of_nil in Hc.
      * intros (tail & [H|H]); discriminate.
    + left. intros (a & tail & [= <- <-] & v & Hd). vm_compute in Hd. discriminate.
Defined.

Lemma missing_tag_array_witness :
  (∃ E' h' t',
     setProperty integer_digits bare (VStr "name") (VStr "Cafe") bare_heap
     = Ret (E', h') ∧
     tree_of h' E' = Some t' ∧
     element_tags integer_digits t' = Some [tag_tree "name" "Cafe"]) ∧
  removeProperty integer_digits bare (VStr "name") bare_heap = Throw.
Proof.
  destruct (missing_tag_array integer_digits bare_heap bare bare_tree
              [("$", TObject [("id", TStr "1")])]
              ltac:(vm_compute; reflexivity) ltac:(vm_compute; reflexivity)
              ltac:(reflexivity))
    as (Hset & _ & Hremove).
  split.
  - exact (Hset (VStr "name") (VStr "Cafe") "name" "Cafe" eq_refl eq_refl).
  - exact (Hremove (VStr "name") I).
Defined.

Lemma removeProperty_misses_coerced_name_witness :
  ∃ E1 h1 k s t1 tags1 E2 h2 t2,
    setProperty integer_digits cafe (VPrim (PNum 5%float)) (VStr "yes") cafe_heap
    = Ret (E1, h1) ∧
    toString integer_digits (VPrim (PNum 5%float)) = Ret k ∧
    toString integer_digits (VStr "yes") = Ret s ∧
    tree_of h1 E1 = Some t1 ∧
    element_tags integer_digits t1 = Some (tags1 ++ [tag_tree k s]) ∧
    Forall (λ tg, tag_has_key (VStr k) tg = false) tags1 ∧
    removeProperty integer_digits E1 (VPrim (PNum 5%float)) h1 = Ret (E2, h2) ∧
    tree_of h2 E2 = Some t2 ∧
    element_tags integer_digits t2
    = Some (filter (λ tg, tag_has_key (VPrim (PNum 5%float)) tg = false) tags1
            ++ [tag_tree k s]).
Proof.
  eexists _, _.
  destruct (removeProperty_misses_coerced_name integer_digits cafe_heap cafe
              (VPrim (PNum 5%float)) (VStr "yes") _ _
              ltac:(intros s; discriminate) ltac:(vm_compute; reflexivity))
    as (k & s & t1 & tags1 & E2 & h2 & t2 & H).
  exists k, s, t1, tags1, E2, h2, t2. split; [vm_compute; reflexivity|]. exact H.
Defined.

Lemma ends_with_slash_last s :
  ends_with_slash s →
  ∃ c, String.get (String.length s - 1) s = Some c ∧ c = "/"%char.
Proof.
  intros [s' ->]. exists "/"%char. split; [|done].
  induction s' as [|c s' IH]; [done|].
  simpl. destruct s' as [|c' s']; [done|]. simpl in *.
  by rewrite Nat.sub_0_r in IH.
Qed.

(** ** Calls in sequence *)

Lemma returns_refines (c : M value) h t' :
  refines h (c h) (Ret t') → returns c h t'.
Proof.
  intros Href. destruct (run_result _ _ _ Href) as (E' & h' & Hrun & Hpre & _ & Ht').
  by exists E', h'.
Qed.

Lemma returns_bind (c : M value) (k : value → M value) h t1 t2 :
  returns c h t1 →
  (∀ E1 h1, h `prefix_of` h1 → tree_of h1 E1 = Some t1 → returns (k E1) h1 t2) →
  returns (let! E1 := c in k E1) h t2.
Proof.
  intros (E1 & h1 & Hrun & Hpre & Ht1) Hk.
  destruct (Hk E1 h1 Hpre Ht1) as (E2 & h2 & Hrun2 & Hpre2 & Ht2).
  exists E2, h2. unfold bind. rewrite Hrun. split; [done|]. split; [|done].
  by etrans.
Qed.

Lemma set_field_twice {A} k (x y : A) l :
  set_field k y (set_field k x l) = set_field k y l.
Proof.
  induction l as [|[k' z] l IH]; simpl.
  - by rewrite decide_True.
  - case_decide; simpl; [by rewrite decide_True|].
    rewrite decide_False by done. by rewrite IH.
Qed.

Section Sequences.

Variable dtoa : float → string.

(** A document whose tag array was just written: its key, its inner
    object, and writing the tag array again. *)
Lemma put_tags_inner t key fs fs0 tags :
  element_key dtoa t = Ret key →
  tree_get_path t (inner_path key) = Ret (TObject fs0) →
  let t1 := tree_put_path t (inner_path key)
              (TObject (set_field "tag" (TArray tags) fs)) in
  element_key dtoa t1 = Ret key ∧
  tree_get_path t1 (inner_path key)
  = Ret (TObject (set_field "tag" (TArray tags) fs)) ∧
  tags_read (set_field "tag" (TArray tags) fs) tags ∧
  ∀ tags',
    tree_put_path t1 (inner_path key)
      (TObject (set_field "tag" (TArray tags')
                  (set_field "tag" (TArray tags) fs)))
    = tree_put_path t (inner_path key)
        (TObject (set_field "tag" (TArray tags') fs)).
Proof.
  intros Hkey Hin t1. split; [|split; [|split]].
  - unfold t1, inner_path at 1. by rewrite element_key_put.
  - by eapply tree_get_put_path.
  - left. by rewrite assoc_set_field, decide_True.
  - intros tags'. unfold t1. rewrite (tree_put_put_path _ _ _ _ _ Hin I).
    by rewrite set_field_twice.
Qed.

Lemma setProperty_tree_put t key fs fs0 tags n v k s :
  element_key dtoa t = Ret key →
  tree_get_path t (inner_path key) = Ret (TObject fs0) →
  Forall tag_readable tags →
  toString dtoa n = Ret k → toString dtoa v = Ret s →
  setProperty_tree dtoa
    (tree_put_path t (inner_path key) (TObject (set_field "tag" (TArray tags) fs)))
    n v
  = Ret (tree_put_path t (inner_path key)
           (TObject (set_field "tag"
              (TArray (filter (λ tg, tag_has_key (VStr k) tg = false) tags
                       ++ [tag_tree k s])) fs))).
Proof.
  intros Hkey Hin Hall Hk Hs.
  destruct (put_tags_inner t key fs fs0 tags Hkey Hin) as (Hkey1 & Hin1 & Hread1 & Hput).
  rewrite (setProperty_tree_total dtoa _ _ _ _ _ _ _ _ Hkey1 Hin1 Hread1 Hall Hk Hs).
  by rewrite Hput.
Qed.

(** One call of a tag mutator, on an element and on the result of an earlier
    call. *)
Lemma setProperty_returns h E t key fs tags n v k s :
  tree_of h E = Some t →
  element_key dtoa t = Ret key →
  tree_get_path t (inner_path key) = Ret (TObject fs) →
  tags_read fs tags → Forall tag_readable tags →
  toString dtoa n = Ret k → toString dtoa v = Ret s →
  returns (setProperty dtoa E n v) h
    (tree_put_path t (inner_path key)
       (TObject (set_field "tag"
          (TArray (filter (λ tg, tag_has_key (VStr k) tg = false) tags
                   ++ [tag_tree k s])) fs))).
Proof.
  intros Ht Hkey Hin Hread Hall Hk Hs. apply repr_tree_of in Ht.
  apply returns_refines.
  rewrite <- (setProperty_tree_total dtoa _ _ _ _ _ _ _ _ Hkey Hin Hread Hall Hk Hs).
  by apply setProperty_refines.
Qed.

Lemma setProperty_returns_put h E t key fs fs0 tags n v k s :
  tree_of h E
  = Some (tree_put_path t (inner_path key)
            (TObject (set_field "tag" (TArray tags) fs))) →
  element_key dtoa t = Ret key →
  tree_get_path t (inner_path key) = Ret (TObject fs0) →
  Forall tag_readable tags →
  toString dtoa n = Ret k → toString dtoa v = Ret s →
  returns (setProperty dtoa E n v) h
    (tree_put_path t (inner_path key)
       (TObject (set_field "tag"
          (TArray (filter (λ tg, tag_has_key (VStr k) tg = false) tags
                   ++ [tag_tree k s])) fs))).
Proof.
  intros Ht Hkey Hin Hall Hk Hs. apply repr_tree_of in Ht.
  apply returns_refines.
  rewrite <- (setProperty_tree_put _ _ _ _ _ _ _ _ _ Hkey Hin Hall Hk Hs).
  by apply setProperty_refines.
Qed.

Lemma removeProperty_returns h E t key fs tags n :
  tree_of h E = Some t →
  element_key dtoa t = Ret key →
  tree_get_path t (inner_path key) = Ret (TObject fs) →
  assoc "tag" fs = Some (TArray tags) → Forall tag_readable tags →
  known (length h) n →
  returns (removeProperty dtoa E n) h
    (tree_put_path t (inner_path key)
       (TObject (set_field "tag"
          (TArray (filter (λ tg, tag_has_key n tg = false) tags)) fs))).
Proof.
  intros Ht Hkey Hin Htag Hall Hn. apply repr_tree_of in Ht.
  apply returns_refines.
  rewrite <- (removeProperty_tree_total dtoa _ _ _ _ n Hkey Hin Htag Hall).
  by apply removeProperty_refines.
Qed.

Lemma removeProperty_returns_put h E t key fs fs0 tags n :
  tree_of h E
  = Some (tree_put_path t (inner_path key)
            (TObject (set_field "tag" (TArray tags) fs))) →
  element_key dtoa t = Ret key →
  tree_get_path t (inner_path key) = Ret (TObject fs0) →
  Forall tag_readable tags →
  known (length h) n →
  returns (removeProperty dtoa E n) h
    (tree_put_path t (inner_path key)
       (TObject (set_field "tag"
          (TArray (filter (λ tg, tag_has_key n tg = false) tags)) fs))).
Proof.
  intros Ht Hkey Hin Hall Hn. apply repr_tree_of in Ht.
  apply returns_refines.
  rewrite <- (removeProperty_tree_put dtoa _ _ _ _ _ n Hkey Hin Hall).
  by apply removeProperty_refines.
Qed.

Lemma known_prefix (h h1 : heap) n :
  h `prefix_of` h1 → known (length h) n → known (length h1) n.
Proof.
  intros Hpre. destruct n as [p|l]; [done|]. simpl.
  pose proof (prefix_length _ _ Hpre). lia.
Qed.

Lemma readable_after_set tags k s :
  Forall tag_readable tags →
  Forall tag_readable
    (filter (λ tg, tag_has_key (VStr k) tg = false) tags ++ [tag_tree k s]).
Proof.
  intros Hall. apply Forall_app. split; [by apply Forall_readable_filter|].
  constructor; [apply tag_tree_readable|done].
Qed.

Lemma filter_after_set tags (k : string) s :
  filter (λ tg, tag_has_key (VStr k) tg = false)
    (filter (λ tg, tag_has_key (VStr k) tg = false) tags ++ [tag_tree k s])
  = filter (λ tg, tag_has_key (VStr k) tg = false) tags.
Proof.
  rewrite filter_app, filter_filter_same, filter_cons, decide_False;
    [by rewrite filter_nil, app_nil_r|].
  by rewrite tag_tree_has_key.
Qed.

Lemma filter_all {A} (P : A → Prop) `{!∀ x, Decision (P x)} (l : list A) :
  Forall P l → filter P l = l.
Proof.
  induction 1 as [|x l Hx _ IH]; [done|].
  by rewrite filter_cons, decide_True, IH.
Qed.

Lemma filter_swap {A} (P Q : A → Prop)
    `{!∀ x, Decision (P x)} `{!∀ x, Decision (Q x)} (l : list A) :
  filter P (filter Q l) = filter Q (filter P l).
Proof.
  induction l as [|x l IH]; [done|]. rewrite !(filter_cons _ x l).
  destruct (decide (Q x)), (decide (P x)); rewrite ?filter_cons;
    rewrite ?decide_True by done; rewrite ?decide_False by done; by rewrite IH.
Qed.

End Sequences.

(** ** Further properties of the tag mutators *)

Section TagSequences.

Variable dtoa : float → string.

(** X3.  The last [setProperty] for a name wins: for every element whose
    tags can be read, every name with the string form [k] and values with
    the string forms [s1] and [s2], setting the name to the first value and
    then, on the result, to the second returns the same document as setting
    it to the second value at once; its tags are those of the element with
    another key followed by the tag [{k, s2}]. *)
Theorem setProperty_last_wins h E t tags n v1 v2 k s1 s2 :
  tree_of h E = Some t →
  element_tags dtoa t = Some tags →
  Forall tag_readable tags →
  toString dtoa n = Ret k →
  toString dtoa v1 = Ret s1 →
  toString dtoa v2 = Ret s2 →
  ∃ t',
    returns (let! E1 := setProperty dtoa E n v1 in setProperty dtoa E1 n v2) h t' ∧
    returns (setProperty dtoa E n v2) h t' ∧
    element_tags dtoa t'
    = Some (filter (λ tg, tag_has_key (VStr k) tg = false) tags ++ [tag_tree k s2]).
Proof.
  intros Ht Htags Hall Hk Hs1 Hs2.
  destruct (element_tags_inv dtoa _ _ Htags) as (key & fs & Hkey & Hin & Hfs).
  apply tags_read_strict in Hfs.
  eexists. split; [|split].
  - eapply returns_bind.
    + by eapply (setProperty_returns dtoa h E t key fs tags n v1 k s1).
    + intros E1 h1 _ Ht1.
      pose proof (setProperty_returns_put dtoa h1 E1 t key fs fs _ n v2 k s2
                    Ht1 Hkey Hin (readable_after_set _ _ _ Hall) Hk Hs2) as Hret.
      rewrite filter_after_set in Hret. exact Hret.
  - by eapply setProperty_returns.
  - by eapply element_tags_put.
Qed.

(** X4.  Removing a key that no tag has returns an equal copy: for every
    element with a tag array of readable tags none of which has the key [n],
    [removeProperty(E, n)] returns an element that denotes the very document
    of [E]. *)
Theorem removeProperty_absent_key_copies h E t fs tags n :
  tree_of h E = Some t →
  element_inner dtoa t = Ret (TObject fs) →
  assoc "tag" fs = Some (TArray tags) →
  Forall tag_readable tags →
  Forall (λ tg, tag_has_key n tg = false) tags →
  known (length h) n →
  returns (removeProperty dtoa E n) h t.
Proof.
  intros Ht Hinner Htag Hall Hnone Hn.
  apply obind_Ret in Hinner as (key & Hkey & Hin).
  pose proof (removeProperty_returns dtoa h E t key fs tags n
                Ht Hkey Hin Htag Hall Hn) as Hret.
  rewrite (filter_all _ _ Hnone), (set_field_id _ _ _ Htag) in Hret.
  by rewrite (tree_put_path_id _ _ _ Hin I) in Hret.
Qed.

(** X5.  Removals commute: for every element with a tag array of readable
    tags and names [a] and [b], removing [a] and then [b] returns the same
    document as removing [b] and then [a]; its tags are those of the element
    whose key is neither. *)
Theorem removeProperty_commutes h E t fs tags a b :
  tree_of h E = Some t →
  element_inner dtoa t = Ret (TObject fs) →
  assoc "tag" fs = Some (TArray tags) →
  Forall tag_readable tags →
  known (length h) a → known (length h) b →
  ∃ t',
    returns (let! E1 := removeProperty dtoa E a in removeProperty dtoa E1 b) h t' ∧
    returns (let! E1 := removeProperty dtoa E b in removeProperty dtoa E1 a) h t' ∧
    element_tags dtoa t'
    = Some (filter (λ tg, tag_has_key b tg = false)
              (filter (λ tg, tag_has_key a tg = false) tags)).
Proof.
  intros Ht Hinner Htag Hall Ha Hb.
  apply obind_Ret in Hinner as (key & Hkey & Hin).
  eexists. split; [|split].
  - eapply returns_bind.
    + by eapply (removeProperty_returns dtoa h E t key fs tags a).
    + intros E1 h1 Hpre Ht1.
      eapply (removeProperty_returns_put dtoa h1 E1 t key fs fs); try done.
      * by apply Forall_readable_filter.
      * by eapply known_prefix.
  - eapply returns_bind.
    + by eapply (removeProperty_returns dtoa h E t key fs tags b).
    + intros E1 h1 Hpre Ht1. rewrite filter_swap.
      eapply (removeProperty_returns_put dtoa h1 E1 t key fs fs); try done.
      * by apply Forall_readable_filter.
      * by eapply known_prefix.
  - by eapply element_tags_put.
Qed.

(** X6.  Removing a name before setting it changes nothing: for every
    element with a tag array of readable tags, every string [k] and value
    with the string form [s], [setProperty(removeProperty(E, k), k, v)]
    returns the same document as [setProperty(E, k, v)]. *)
Theorem setProperty_after_removeProperty h E t fs tags (k : string) v s :
  tree_of h E = Some t →
  element_inner dtoa t = Ret (TObject fs) →
  assoc "tag" fs = Some (TArray tags) →
  Forall tag_readable tags →
  toString dtoa v = Ret s →
  ∃ t',
    returns (let! E1 := removeProperty dtoa E (VStr k) in
             setProperty dtoa E1 (VStr k) v) h t' ∧
    returns (setProperty dtoa E (VStr k) v) h t' ∧
    element_tags dtoa t'
    = Some (filter (λ tg, tag_has_key (VStr k) tg = false) tags ++ [tag_tree k s]).
Proof.
  intros Ht Hinner Htag Hall Hs.
  apply obind_Ret in Hinner as (key & Hkey & Hin).
  eexists. split; [|split].
  - eapply returns_bind.
    + by eapply (removeProperty_returns dtoa h E t key fs tags (VStr k)).
    + intros E1 h1 _ Ht1.
      pose proof (setProperty_returns_put dtoa h1 E1 t key fs fs _ (VStr k) v k s
                    Ht1 Hkey Hin (Forall_readable_filter _ _ Hall) eq_refl Hs)
        as Hret.
      rewrite filter_filter_same in Hret. exact Hret.
  - eapply setProperty_returns; try done. by left.
  - by eapply element_tags_put.
Qed.

End TagSequences.

(** ** setProperties *)

Lemma tag_key_in_nil tg : tag_key_in [] tg = false.
Proof.
  unfold tag_key_in. destruct (tree_tagKey tg) as [[[]| |]| |]; try done.
Qed.

Lemma tag_key_in_cons k names tg :
  tag_key_in (k :: names) tg = tag_has_key (VStr k) tg || tag_key_in names tg.
Proof.
  unfold tag_key_in, tag_has_key.
  destruct (tree_tagKey tg) as [[[| |b|x|s']| |]| |]; try done. simpl.
  destruct (decide (s' = k)) as [->|Hne].
  - rewrite (bool_decide_true (k ∈ k :: names)) by by left.
    by rewrite (bool_decide_true (k = k)).
  - rewrite (bool_decide_false (s' = k)) by done. simpl.
    apply bool_decide_ext. rewrite elem_of_cons. tauto.
Qed.

Lemma tag_key_in_tag_tree names k s :
  tag_key_in names (tag_tree k s) = bool_decide (k ∈ names).
Proof. done. Qed.

Lemma filter_key_in_cons k names (tags : list tree) :
  filter (λ tg, tag_key_in (k :: names) tg = false) tags
  = filter (λ tg, tag_key_in names tg = false)
      (filter (λ tg, tag_has_key (VStr k) tg = false) tags).
Proof.
  induction tags as [|tg tags IH]; [done|].
  rewrite !(filter_cons _ tg tags), IH, tag_key_in_cons.
  destruct (tag_has_key (VStr k) tg); simpl; [done|].
  by rewrite filter_cons.
Qed.

Lemma filter_key_in_fresh names (kvs : list (string * string)) :
  (∀ kv, kv ∈ kvs → kv.1 ∉ names) →
  filter (λ tg, tag_key_in names tg = false) ((λ kv, tag_tree kv.1 kv.2) <$> kvs)
  = (λ kv, tag_tree kv.1 kv.2) <$> kvs.
Proof.
  intros Hfresh. apply filter_all, Forall_fmap, Forall_forall.
  intros kv Hkv. simpl. rewrite tag_key_in_tag_tree.
  apply bool_decide_false. by apply Hfresh.
Qed.

Section SetProperties.

Variable dtoa : float → string.

Lemma setProperties_returns h E t key fs tags properties tp kvs :
  tree_of h E = Some t →
  element_key dtoa t = Ret key →
  tree_get_path t (inner_path key) = Ret (TObject fs) →
  tags_read fs tags → Forall tag_readable tags →
  tree_of h properties = Some tp →
  string_props dtoa tp kvs →
  returns (setProperties dtoa E properties) h
    (tree_put_path t (inner_path key)
       (TObject (set_field "tag"
          (TArray (filter (λ tg, tag_key_in kvs.*1 tg = false) tags
                   ++ ((λ kv, tag_tree kv.1 kv.2) <$> kvs))) fs))).
Proof.
  intros Ht Hkey Hin Hread Hall Hp Hprops. apply repr_tree_of in Ht, Hp.
  destruct (formatted_tags_props dtoa _ _ Hprops) as [Hnames Hfmt].
  apply returns_refines.
  rewrite <- (setProperties_tree_total dtoa _ _ _ _ _ _ _ Hnames Hkey Hin Hread
                Hall Hfmt).
  by apply setProperties_refines.
Qed.

(** Running [setProperty] for each name and value on an element whose tag
    array was just written. *)
Lemma setProperty_each_returns_put kvs :
  ∀ h E t key fs fs0 tags,
    tree_of h E
    = Some (tree_put_path t (inner_path key)
              (TObject (set_field "tag" (TArray tags) fs))) →
    element_key dtoa t = Ret key →
    tree_get_path t (inner_path key) = Ret (TObject fs0) →
    Forall tag_readable tags →
    NoDup kvs.*1 →
    returns (setProperty_each dtoa E kvs) h
      (tree_put_path t (inner_path key)
         (TObject (set_field "tag"
            (TArray (filter (λ tg, tag_key_in kvs.*1 tg = false) tags
                     ++ ((λ kv, tag_tree kv.1 kv.2) <$> kvs))) fs))).
Proof.
  induction kvs as [|[k v] kvs IH]; intros h E t key fs fs0 tags Ht Hkey Hin Hall Hnd.
  - simpl. rewrite (filter_all _ tags), app_nil_r.
    + by exists E, h.
    + apply Forall_forall. intros tg _. apply tag_key_in_nil.
  - rewrite fmap_cons in Hnd. apply NoDup_cons in Hnd as [Hk Hnd].
    cbn [setProperty_each]. eapply returns_bind.
    + by eapply (setProperty_returns_put dtoa h E t key fs fs0 tags
                   (VStr k) (VStr v) k v).
    + intros E1 h1 _ Ht1.
      pose proof (IH h1 E1 t key fs fs0 _ Ht1 Hkey Hin
                    (readable_after_set _ _ _ Hall) Hnd) as Hret.
      rewrite filter_app in Hret.
      rewrite (filter_key_in_fresh kvs.*1 [(k, v)]) in Hret.
      2:{ intros kv ->%list_elem_of_singleton. done. }
      rewrite <- filter_key_in_cons in Hret.
      rewrite <- app_assoc in Hret. exact Hret.
Qed.

End SetProperties.

Lemma tag_has_key_tag_tree (k k' : string) s :
  tag_has_key (VStr k) (tag_tree k' s) = bool_decide (k' = k).
Proof. done. Qed.

Lemma tag_has_key_in names (k : string) tg :
  k ∈ names → tag_has_key (VStr k) tg = true → tag_key_in names tg = true.
Proof.
  unfold tag_key_in, tag_has_key.
  destruct (tree_tagKey tg) as [[[| |b|x|s']| |]| |]; try done. simpl.
  intros Hin ->%bool_decide_eq_true. by apply bool_decide_eq_true.
Qed.

Lemma filter_none {A} (P : A → Prop) `{!∀ x, Decision (P x)} (l : list A) :
  Forall (λ x, ¬ P x) l → filter P l = [].
Proof.
  induction 1 as [|x l Hx _ IH]; [done|].
  by rewrite filter_cons, decide_False, IH.
Qed.

Lemma filter_has_key_none (k : string) (kvs : list (string * string)) :
  k ∉ kvs.*1 →
  filter (λ tg, tag_has_key (VStr k) tg = true) ((λ kv, tag_tree kv.1 kv.2) <$> kvs)
  = [].
Proof.
  intros Hk. apply filter_none, Forall_fmap, Forall_forall.
  intros [k' v'] Hin. simpl. rewrite tag_has_key_tag_tree.
  intros Heq%bool_decide_eq_true. subst k'. apply Hk.
  apply list_elem_of_fmap. by exists (k, v').
Qed.

Lemma filter_has_key_one (k v : string) (kvs : list (string * string)) :
  NoDup kvs.*1 → (k, v) ∈ kvs →
  filter (λ tg, tag_has_key (VStr k) tg = true) ((λ kv, tag_tree kv.1 kv.2) <$> kvs)
  = [tag_tree k v].
Proof.
  induction kvs as [|[k' v'] kvs IH]; [by intros _ ?%elem_of_nil|].
  rewrite !fmap_cons. intros [Hk' Hnd]%NoDup_cons Hin.
  rewrite filter_cons. simpl. rewrite tag_has_key_tag_tree.
  apply elem_of_cons in Hin as [[= <- <-]|Hin].
  - rewrite bool_decide_true, decide_True by done.
    by rewrite filter_has_key_none.
  - assert (k' ≠ k) as Hne.
    { intros ->. apply Hk'. apply list_elem_of_fmap. by exists (k, v). }
    rewrite bool_decide_false, decide_False by done. by apply IH.
Qed.

Lemma filter_has_key_kept names (k : string) (tags : list tree) :
  k ∉ names →
  filter (λ tg, tag_has_key (VStr k) tg = true)
    (filter (λ tg, tag_key_in names tg = false) tags)
  = filter (λ tg, tag_has_key (VStr k) tg = true) tags.
Proof.
  intros Hk. induction tags as [|tg tags IH]; [done|].
  rewrite !(filter_cons _ tg tags).
  destruct (tag_has_key (VStr k) tg) eqn:Hhas.
  - assert (tag_key_in names tg = false) as Hout.
    { unfold tag_key_in, tag_has_key in *.
      destruct (tree_tagKey tg) as [[[| |b|x|s']| |]| |]; try done. simpl in *.
      apply bool_decide_eq_true in Hhas as ->. by apply bool_decide_false. }
    rewrite Hout, !decide_True by done.
    by rewrite filter_cons, Hhas, decide_True, IH.
  - rewrite (decide_False (P := false = true)) by done.
    case_decide; [|done]. by rewrite filter_cons, Hhas, decide_False.
Qed.

Lemma filter_has_key_dropped names (k : string) (tags : list tree) :
  k ∈ names →
  filter (λ tg, tag_has_key (VStr k) tg = true)
    (filter (λ tg, tag_key_in names tg = false) tags)
  = [].
Proof.
  intros Hk. apply filter_none, Forall_forall.
  intros tg [Hout _]%list_elem_of_filter Hhas.
  by rewrite (tag_has_key_in _ _ _ Hk Hhas) in Hout.
Qed.

Section SetPropertiesFacts.

Variable dtoa : float → string.

Lemma string_props_keys tp kvs :
  string_props dtoa tp kvs → NoDup kvs.*1.
Proof.
  intros (fs & -> & Hnd & Hf).
  assert (fs.*1 = kvs.*1) as <-; [|done]. clear Hnd.
  induction Hf as [|[k x] [k' v] fs kvs [Hk _] _ IH]; [done|].
  rewrite !fmap_cons, IH. simpl in *. by rewrite Hk.
Qed.

(** X1.  [setProperties] upserts every property: for every element whose
    tags can be read and every [properties] object whose values have string
    forms, [setProperties(E, properties)] returns an element whose tags are
    the tags of [E] whose key is no property name, in their order, followed
    by one tag per property, in the order of the properties.  For each
    property exactly one tag has its name as key, with the string form of
    its value; the tags with any other key are those of [E]. *)
Theorem setProperties_sets_tags h E t tags properties tp kvs :
  tree_of h E = Some t →
  element_tags dtoa t = Some tags →
  Forall tag_readable tags →
  tree_of h properties = Some tp →
  string_props dtoa tp kvs →
  ∃ t' tags',
    returns (setProperties dtoa E properties) h t' ∧
    element_tags dtoa t' = Some tags' ∧
    tags' = filter (λ tg, tag_key_in kvs.*1 tg = false) tags
            ++ ((λ kv, tag_tree kv.1 kv.2) <$> kvs) ∧
    (∀ k v, (k, v) ∈ kvs →
            filter (λ tg, tag_has_key (VStr k) tg = true) tags' = [tag_tree k v]) ∧
    (∀ k : string, k ∉ kvs.*1 →
            filter (λ tg, tag_has_key (VStr k) tg = true) tags'
            = filter (λ tg, tag_has_key (VStr k) tg = true) tags).
Proof.
  intros Ht Htags Hall Hp Hprops.
  destruct (element_tags_inv dtoa _ _ Htags) as (key & fs & Hkey & Hin & Hfs).
  apply tags_read_strict in Hfs.
  pose proof (string_props_keys _ _ Hprops) as Hnd.
  eexists _, _. split; [by eapply setProperties_returns|].
  split; [by eapply element_tags_put|]. split; [done|]. split.
  - intros k v Hkv. rewrite filter_app, filter_has_key_dropped.
    + by apply filter_has_key_one.
    + apply list_elem_of_fmap. by exists (k, v).
  - intros k Hk. rewrite filter_app, filter_has_key_kept, filter_has_key_none by done.
    by rewrite app_nil_r.
Qed.

(** X2.  [setProperties] is [setProperty] for each property in turn: for
    every element whose tags can be read and every [properties] object with
    at least one property, whose values have string forms,
    [setProperties(E, properties)] returns the same document as calling
    [setProperty] with each property name and the string form of its value,
    in the order of the properties, each call on the result of the one
    before. *)
Theorem setProperties_as_setProperty_each h E t tags properties tp kv kvs :
  tree_of h E = Some t →
  element_tags dtoa t = Some tags →
  Forall tag_readable tags →
  tree_of h properties = Some tp →
  string_props dtoa tp (kv :: kvs) →
  ∃ t',
    returns (setProperties dtoa E properties) h t' ∧
    returns (setProperty_each dtoa E (kv :: kvs)) h t'.
Proof.
  intros Ht Htags Hall Hp Hprops.
  destruct (element_tags_inv dtoa _ _ Htags) as (key & fs & Hkey & Hin & Hfs).
  apply tags_read_strict in Hfs.
  pose proof (string_props_keys _ _ Hprops) as Hnd.
  eexists. split; [by eapply setProperties_returns|].
  destruct kv as [k v]. rewrite fmap_cons in Hnd.
  apply NoDup_cons in Hnd as [Hk Hnd].
  cbn [setProperty_each]. eapply returns_bind.
  - by eapply (setProperty_returns dtoa h E t key fs tags (VStr k) (VStr v) k v).
  - intros E1 h1 _ Ht1.
    pose proof (setProperty_each_returns_put dtoa kvs h1 E1 t key fs fs _ Ht1 Hkey
                  Hin (readable_after_set _ _ _ Hall) Hnd) as Hret.
    rewrite filter_app in Hret.
    rewrite (filter_key_in_fresh kvs.*1 [(k, v)]) in Hret.
    2:{ intros kv ->%list_elem_of_singleton. done. }
    rewrite <- filter_key_in_cons in Hret.
    rewrite <- app_assoc in Hret. exact Hret.
Qed.

End SetPropertiesFacts.

(** ** Errors of the mutators *)

Section MutatorErrors.

Variable dtoa : float → string.

Lemma no_inner_paths t :
  no_inner dtoa t →
  element_key dtoa t = Throw ∨
  ∃ key, element_key dtoa t = Ret key ∧
         (tree_get_path t (inner_path key) = Throw ∨
          tree_get_path t (inner_path key) = Ret (TPrim PUndefined) ∨
          tree_get_path t (inner_path key) = Ret (TPrim PNull)).
Proof.
  unfold no_inner, element_inner.
  destruct (element_key dtoa t) as [key| |]; cbn [obind]; [|by left|done].
  intros H. right. exists key. split; [done|].
  destruct (tree_get_path t (inner_path key)) as [[[]| |]| |]; try done; eauto.
Qed.

Lemma no_inner_attrs t key :
  tree_get_path t (inner_path key) = Throw ∨
  tree_get_path t (inner_path key) = Ret (TPrim PUndefined) ∨
  tree_get_path t (inner_path key) = Ret (TPrim PNull) →
  tree_get_path t (attrs_path key) = Throw.
Proof.
  change (attrs_path key) with (inner_path key ++ ["$"]).
  rewrite tree_get_path_app. by intros [->|[->| ->]].
Qed.

(** X7.  Without an inner element every mutator throws: for every element
    [E] for which [E.osm[E._type][0]] throws or reads [undefined] or [null]
    (no [osm], no entry for the type, an empty array), each of the six
    mutators throws, whatever its other arguments, [properties] being an
    object. *)
Theorem mutators_throw_without_inner m h E t :
  tree_of h E = Some t →
  no_inner dtoa t →
  args_ok h m →
  properties_object h m →
  mutate dtoa m E h = Throw.
Proof.
  intros Ht Hno Hargs Hobj. apply repr_tree_of in Ht.
  pose proof (mutate_refines dtoa h m E t Ht Hargs) as Href.
  assert (mutate_tree dtoa h m t = Throw) as Htree; [|by rewrite Htree in Href].
  destruct (no_inner_paths _ Hno) as [Hkey|(key & Hkey & Hin)].
  - destruct m as [n v|p|n|lat lon|now|v]; simpl;
      try (unfold setProperty_tree, removeProperty_tree, setCoordinates_tree,
             setTimestampToNow_tree, setVersion_tree; by rewrite Hkey).
    destruct Hobj as [fs Hp]. rewrite Hp. unfold setProperties_tree.
    cbn [tree_keys obind]. by rewrite Hkey.
  - pose proof (no_inner_attrs _ _ Hin) as Hattrs.
    assert ((let? inner := tree_get_path t (inner_path key) in tree_get inner "tag")
            = Throw) as Htag by by destruct Hin as [->|[->| ->]].
    destruct m as [n v|p|n|lat lon|now|v]; simpl.
    + unfold setProperty_tree. rewrite Hkey. cbn [obind].
      by destruct Hin as [->|[->| ->]].
    + destruct Hobj as [fs Hp]. rewrite Hp. unfold setProperties_tree.
      cbn [tree_keys obind]. rewrite Hkey. cbn [obind].
      by destruct Hin as [->|[->| ->]].
    + unfold removeProperty_tree. rewrite Hkey. cbn [obind].
      by destruct Hin as [->|[->| ->]].
    + unfold setCoordinates_tree. rewrite Hkey. cbn [obind]. by rewrite Hattrs.
    + unfold setTimestampToNow_tree. rewrite Hkey. cbn [obind]. by rewrite Hattrs.
    + unfold setVersion_tree. rewrite Hkey. cbn [obind]. by rewrite Hattrs.
Qed.

Lemma toString_nullish v : nullish v → toString dtoa v = Throw.
Proof. by intros [->| ->]. Qed.

Lemma filter_o_Throw {A} (g : A → outcome bool) l :
  Forall (λ x, g x = Throw) l → filter_o g l = Throw ∨ l = [].
Proof. intros [|x l' Hx _]; [by right|left]. simpl. by rewrite Hx. Qed.

(** X8.  [undefined] and [null] arguments: on an element with readable
    tags and an attributes object, [setProperty] throws when the name or the
    value is [undefined] or [null], and [setCoordinates] throws when [lat]
    or [lon] is; [setVersion] does not throw on such a version: it returns
    an element whose version is the string "NaN". *)
Theorem nullish_arguments h E t tags attrs :
  tree_of h E = Some t →
  element_tags dtoa t = Some tags →
  Forall tag_readable tags →
  element_attrs dtoa t = Ret (TObject attrs) →
  (∀ n v, nullish n → setProperty dtoa E n v h = Throw) ∧
  (∀ n v k, toString dtoa n = Ret k → nullish v →
            setProperty dtoa E n v h = Throw) ∧
  (∀ lat lon, nullish lat → setCoordinates dtoa E lat lon h = Throw) ∧
  (∀ lat lon la, toString dtoa lat = Ret la → nullish lon →
                 setCoordinates dtoa E lat lon h = Throw) ∧
  (∀ version, nullish version →
              ∃ t', returns (setVersion dtoa E version) h t' ∧
                    element_version dtoa t' = Ret (TStr "NaN")).
Proof.
  intros Ht Htags Hall Hattrs. apply repr_tree_of in Ht.
  destruct (element_tags_inv dtoa _ _ Htags) as (key & fs & Hkey & Hin & Hfs).
  apply tags_read_strict in Hfs.
  apply obind_Ret in Hattrs as (key' & Hkey' & Hattrs).
  assert (key' = key) as -> by congruence.
  split; [|split; [|split; [|split]]].
  - intros n v Hn%toString_nullish.
    pose proof (setProperty_refines dtoa h E t n v Ht) as Href.
    assert (setProperty_tree dtoa t n v = Throw) as Htree;
      [|by rewrite Htree in Href].
    unfold setProperty_tree. rewrite Hkey. cbn [obind]. rewrite Hin. cbn [obind].
    rewrite tree_get_object. cbn [obind]. rewrite Hn.
    destruct Hfs as [Htag|[-> Hfalsy]].
    + rewrite Htag. cbn [default tree_truthy tree_filter id].
      destruct (filter_o_Throw
                  (λ tg, let? k := tree_tagKey tg in
                         let? name := (Throw : outcome string) in
                         Ret (negb (tree_strict_eq k (VStr name)))) tags)
        as [-> | ->]; [|done..].
      eapply Forall_impl; [exact Hall|]. by intros tg [kt ->].
    + by rewrite Hfalsy.
  - intros n v k Hk Hv%toString_nullish.
    pose proof (setProperty_refines dtoa h E t n v Ht) as Href.
    assert (setProperty_tree dtoa t n v = Throw) as Htree;
      [|by rewrite Htree in Href].
    unfold setProperty_tree. rewrite Hkey. cbn [obind]. rewrite Hin. cbn [obind].
    rewrite tree_get_object. cbn [obind].
    rewrite (lenient_filter_total fs tags _
               (λ tg, tag_has_key (VStr k) tg = false) Hfs).
    + cbn [obind]. by rewrite Hk, Hv.
    + eapply Forall_impl; [exact Hall|]. intros tg [kt ->]. rewrite Hk. simpl. eauto.
    + intros tg b. unfold tag_has_key. rewrite Hk.
      destruct (tree_tagKey tg) as [kt| |]; simpl; [|done..].
      intros [= <-]. by destruct (tree_strict_eq kt (VStr k)).
  - intros lat lon Hlat%toString_nullish.
    pose proof (setCoordinates_refines dtoa h E t lat lon Ht) as Href.
    assert (setCoordinates_tree dtoa t lat lon = Throw) as Htree;
      [|by rewrite Htree in Href].
    unfold setCoordinates_tree. rewrite Hkey. cbn [obind]. rewrite Hattrs.
    cbn [obind]. by rewrite Hlat.
  - intros lat lon la Hla Hlon%toString_nullish.
    pose proof (setCoordinates_refines dtoa h E t lat lon Ht) as Href.
    assert (setCoordinates_tree dtoa t lat lon = Throw) as Htree;
      [|by rewrite Htree in Href].
    unfold setCoordinates_tree. rewrite Hkey. cbn [obind]. rewrite Hattrs.
    cbn [obind]. rewrite Hla. cbn [obind tree_assign_o]. by rewrite Hlon.
  - intros version Hv.
    assert (parseInt dtoa version = Ret nan) as Hn by by destruct Hv as [->| ->].
    pose proof (setVersion_refines dtoa h E t version Ht) as Href.
    rewrite (setVersion_tree_total dtoa _ _ _ _ _ Hkey Hattrs Hn) in Href.
    eexists. split; [by apply returns_refines|].
    unfold element_version. erewrite element_attrs_put by done.
    simpl. by rewrite assoc_set_field, decide_True.
Qed.

End MutatorErrors.

(** ** The attribute mutators *)

Lemma set_field_swap {A} k k' (x y : A) l :
  k ≠ k' → is_Some (assoc k l) →
  set_field k x (set_field k' y l) = set_field k' y (set_field k x l).
Proof.
  intros Hne. induction l as [|[k0 z] l IH]; simpl; [by intros [? ?]|].
  destruct (decide (k0 = k)) as [->|Hk0].
  - intros _. rewrite (decide_False (P := k = k')) by done. simpl.
    rewrite decide_True by done. by rewrite (decide_False (P := k = k')).
  - intros Hsome. destruct (decide (k0 = k')) as [->|Hk0']; simpl.
    + rewrite decide_False by done. by rewrite decide_True.
    + rewrite !decide_False by done. by rewrite IH.
Qed.

Lemma set_coordinates_twice {A} (a1 o1 a2 o2 : A) l :
  set_field "lon" o2 (set_field "lat" a2 (set_field "lon" o1 (set_field "lat" a1 l)))
  = set_field "lon" o2 (set_field "lat" a2 l).
Proof.
  rewrite (set_field_swap "lat" "lon") by (by rewrite ?assoc_set_field, ?decide_True).
  by rewrite !set_field_twice.
Qed.

Section AttributeMutators.

Variable dtoa : float → string.

(** A document whose attributes were just written. *)
Lemma put_attrs_again t key attrs0 attrs :
  element_key dtoa t = Ret key →
  tree_get_path t (attrs_path key) = Ret (TObject attrs0) →
  let t1 := tree_put_path t (attrs_path key) (TObject attrs) in
  element_key dtoa t1 = Ret key ∧
  tree_get_path t1 (attrs_path key) = Ret (TObject attrs) ∧
  ∀ x, tree_put_path t1 (attrs_path key) x = tree_put_path t (attrs_path key) x.
Proof.
  intros Hkey Hattrs t1. split; [|split].
  - unfold t1, attrs_path at 1. by rewrite element_key_put.
  - by eapply tree_get_put_path.
  - intros x. unfold t1. by rewrite (tree_put_put_path _ _ _ _ _ Hattrs I).
Qed.

Lemma setCoordinates_returns h E t key attrs lat lon la lo :
  tree_of h E = Some t →
  element_key dtoa t = Ret key →
  tree_get_path t (attrs_path key) = Ret (TObject attrs) →
  toString dtoa lat = Ret la → toString dtoa lon = Ret lo →
  returns (setCoordinates dtoa E lat lon) h
    (tree_put_path t (attrs_path key)
       (TObject (set_field "lon" (TStr lo) (set_field "lat" (TStr la) attrs)))).
Proof.
  intros Ht Hkey Hattrs Hla Hlo. apply repr_tree_of in Ht. apply returns_refines.
  rewrite <- (setCoordinates_tree_total dtoa _ _ _ _ _ _ _ Hkey Hattrs Hla Hlo).
  by apply setCoordinates_refines.
Qed.

Lemma setVersion_returns h E t key attrs (version : prim) :
  tree_of h E = Some t →
  element_key dtoa t = Ret key →
  tree_get_path t (attrs_path key) = Ret (TObject attrs) →
  returns (setVersion dtoa E (VPrim version)) h
    (tree_put_path t (attrs_path key)
       (TObject (set_field "version"
          (TStr (Number_toString dtoa (parseInt_string (ToString dtoa version))))
          attrs))).
Proof.
  intros Ht Hkey Hattrs. apply repr_tree_of in Ht. apply returns_refines.
  rewrite <- (setVersion_tree_total dtoa _ _ _ (VPrim version) _ Hkey Hattrs eq_refl).
  by apply setVersion_refines.
Qed.

Lemma setTimestampToNow_returns h E t key attrs now :
  tree_of h E = Some t →
  element_key dtoa t = Ret key →
  tree_get_path t (attrs_path key) = Ret (TObject attrs) →
  returns (setTimestampToNow dtoa now E) h
    (tree_put_path t (attrs_path key)
       (TObject (set_field "timestamp" (TStr now) attrs))).
Proof.
  intros Ht Hkey Hattrs. apply repr_tree_of in Ht. apply returns_refines.
  assert (setTimestampToNow_tree dtoa now t
          = Ret (tree_put_path t (attrs_path key)
                   (TObject (set_field "timestamp" (TStr now) attrs)))) as <-.
  { unfold setTimestampToNow_tree. rewrite Hkey. cbn [obind].
    by rewrite Hattrs. }
  by apply setTimestampToNow_refines.
Qed.

(** X9.  [setCoordinates] stores strings: for every element with an
    attributes object and every [lat] and [lon] with the string forms [la]
    and [lo], [setCoordinates(E, lat, lon)] returns an element whose [lat]
    and [lon] attributes are the strings [la] and [lo] (numbers are
    converted, where [createNodeElement] stores them as given), and whose
    other attributes are those of [E]. *)
Theorem setCoordinates_stores_strings h E t attrs lat lon la lo :
  tree_of h E = Some t →
  element_attrs dtoa t = Ret (TObject attrs) →
  toString dtoa lat = Ret la →
  toString dtoa lon = Ret lo →
  ∃ t' attrs',
    returns (setCoordinates dtoa E lat lon) h t' ∧
    element_attrs dtoa t' = Ret (TObject attrs') ∧
    assoc "lat" attrs' = Some (TStr la) ∧
    assoc "lon" attrs' = Some (TStr lo) ∧
    ∀ a, a ≠ "lat" → a ≠ "lon" → assoc a attrs' = assoc a attrs.
Proof.
  intros Ht Hattrs Hla Hlo.
  apply obind_Ret in Hattrs as (key & Hkey & Hattrs).
  eexists _, _. split; [by eapply setCoordinates_returns|].
  split; [by eapply element_attrs_put|].
  rewrite !assoc_set_field. split; [|split].
  - by rewrite decide_False, decide_True.
  - by rewrite decide_True.
  - intros a Hlat Hlon. rewrite !assoc_set_field. by rewrite !decide_False.
Qed.

(** X10.  The attribute mutators overwrite: for every element with an
    attributes object, calling [setCoordinates], [setVersion] or
    [setTimestampToNow] on the result of an earlier call of the same
    mutator returns the same document as the later call alone. *)
Theorem attribute_mutators_overwrite h E t attrs :
  tree_of h E = Some t →
  element_attrs dtoa t = Ret (TObject attrs) →
  (∀ lat1 lon1 lat2 lon2 la1 lo1 la2 lo2,
     toString dtoa lat1 = Ret la1 → toString dtoa lon1 = Ret lo1 →
     toString dtoa lat2 = Ret la2 → toString dtoa lon2 = Ret lo2 →
     ∃ t', returns (let! E1 := setCoordinates dtoa E lat1 lon1 in
                    setCoordinates dtoa E1 lat2 lon2) h t' ∧
           returns (setCoordinates dtoa E lat2 lon2) h t') ∧
  (∀ v1 v2 : prim,
     ∃ t', returns (let! E1 := setVersion dtoa E (VPrim v1) in
                    setVersion dtoa E1 (VPrim v2)) h t' ∧
           returns (setVersion dtoa E (VPrim v2)) h t') ∧
  (∀ now1 now2,
     ∃ t', returns (let! E1 := setTimestampToNow dtoa now1 E in
                    setTimestampToNow dtoa now2 E1) h t' ∧
           returns (setTimestampToNow dtoa now2 E) h t').
Proof.
  intros Ht Hattrs. apply obind_Ret in Hattrs as (key & Hkey & Hattrs).
  split; [|split].
  - intros lat1 lon1 lat2 lon2 la1 lo1 la2 lo2 Hla1 Hlo1 Hla2 Hlo2.
    eexists. split; [|by eapply setCoordinates_returns].
    eapply returns_bind; [by eapply setCoordinates_returns|].
    intros E1 h1 _ Ht1.
    destruct (put_attrs_again t key attrs
                (set_field "lon" (TStr lo1) (set_field "lat" (TStr la1) attrs))
                Hkey Hattrs) as (Hkey1 & Hattrs1 & Hput).
    pose proof (setCoordinates_returns h1 E1 _ key _ lat2 lon2 la2 lo2
                  Ht1 Hkey1 Hattrs1 Hla2 Hlo2) as Hret.
    by rewrite Hput, set_coordinates_twice in Hret.
  - intros v1 v2.
    eexists. split; [|by eapply setVersion_returns].
    eapply returns_bind; [by eapply setVersion_returns|].
    intros E1 h1 _ Ht1.
    destruct (put_attrs_again t key attrs
                (set_field "version"
                   (TStr (Number_toString dtoa
                            (parseInt_string (ToString dtoa v1)))) attrs)
                Hkey Hattrs) as (Hkey1 & Hattrs1 & Hput).
    pose proof (setVersion_returns h1 E1 _ key _ v2 Ht1 Hkey1 Hattrs1) as Hret.
    by rewrite Hput, set_field_twice in Hret.
  - intros now1 now2.
    eexists. split; [|by eapply setTimestampToNow_returns].
    eapply returns_bind; [by eapply setTimestampToNow_returns|].
    intros E1 h1 _ Ht1.
    destruct (put_attrs_again t key attrs
                (set_field "timestamp" (TStr now1) attrs) Hkey Hattrs)
      as (Hkey1 & Hattrs1 & Hput).
    pose proof (setTimestampToNow_returns h1 E1 _ key _ now2 Ht1 Hkey1 Hattrs1)
      as Hret.
    by rewrite Hput, set_field_twice in Hret.
Qed.

(** X11.  [setTimestampToNow] stamps and touches nothing else: for every
    element with an attributes object, [setTimestampToNow(E)] returns an
    element whose [timestamp] attribute is the string that
    [getCurrentIsoTimestamp] returned, whose other attributes are those of
    [E], and whose tag list is that of [E]. *)
Theorem setTimestampToNow_stamps h E t attrs now :
  tree_of h E = Some t →
  element_attrs dtoa t = Ret (TObject attrs) →
  ∃ t' attrs',
    returns (setTimestampToNow dtoa now E) h t' ∧
    element_attrs dtoa t' = Ret (TObject attrs') ∧
    assoc "timestamp" attrs' = Some (TStr now) ∧
    (∀ a, a ≠ "timestamp" → assoc a attrs' = assoc a attrs) ∧
    element_tag_field dtoa t' = element_tag_field dtoa t ∧
    element_tags dtoa t' = element_tags dtoa t.
Proof.
  intros Ht Hattrs. apply obind_Ret in Hattrs as (key & Hkey & Hattrs).
  eexists _, _. split; [by eapply setTimestampToNow_returns|].
  split; [by eapply element_attrs_put|].
  rewrite assoc_set_field, decide_True by done. split; [done|]. split.
  - intros a Ha. by rewrite assoc_set_field, decide_False.
  - by eapply put_attrs_tag_field.
Qed.

End AttributeMutators.

(** ** When the mutators return, and created nodes *)

Lemma mapM_o_Throw {A B} (f : A → outcome B) l :
  Forall (λ x, f x ≠ Unsupported) l →
  Exists (λ x, f x = Throw) l →
  mapM_o f l = Throw.
Proof.
  intros Hall Hex. induction Hex as [x l Hx|x l _ IH]; simpl.
  - by rewrite Hx.
  - apply Forall_cons in Hall as [Hx Hall].
    destruct (f x) as [y| |]; [|done..]. simpl. by rewrite IH.
Qed.

Section Returning.

Variable dtoa : float → string.

Lemma mutate_returns h E t key fs tags attrs m :
  tree_of h E = Some t →
  element_key dtoa t = Ret key →
  tree_get_path t (inner_path key) = Ret (TObject fs) →
  assoc "tag" fs = Some (TArray tags) →
  Forall tag_readable tags →
  assoc "$" fs = Some (TObject attrs) →
  args_convert dtoa h m →
  ∃ t', returns (mutate dtoa m E) h t'.
Proof.
  intros Ht Hkey Hin Htag Hall Hattrs Hargs.
  assert (tree_get_path t (attrs_path key) = Ret (TObject attrs)) as Hpath.
  { change (attrs_path key) with (inner_path key ++ ["$"]).
    rewrite tree_get_path_app, Hin. simpl. by rewrite Hattrs. }
  destruct m as [n v|p|n|lat lon|now|v]; simpl in *.
  - destruct Hargs as [[k Hk] [s Hs]]. eexists.
    eapply setProperty_returns; try done. by left.
  - destruct Hargs as (tp & kvs & Hp & Hprops). eexists.
    eapply setProperties_returns; try done. by left.
  - eexists. by eapply removeProperty_returns.
  - destruct Hargs as [[la Hla] [lo Hlo]]. eexists.
    by eapply setCoordinates_returns.
  - eexists. by eapply setTimestampToNow_returns.
  - destruct Hargs as [p ->]. eexists. by eapply setVersion_returns.
Qed.

(** X13.  When the mutators return: on every element whose inner object
    has an attributes object and a tag array of readable tags, each of the
    six mutators returns an element, given arguments that can be used:
    names, values and coordinates with string forms, a [properties] object
    whose values have string forms, a primitive version. *)
Theorem mutators_return_on_elements h E t fs tags attrs m :
  tree_of h E = Some t →
  element_inner dtoa t = Ret (TObject fs) →
  assoc "tag" fs = Some (TArray tags) →
  Forall tag_readable tags →
  assoc "$" fs = Some (TObject attrs) →
  args_convert dtoa h m →
  ∃ E' h' t',
    mutate dtoa m E h = Ret (E', h') ∧ h `prefix_of` h' ∧
    tree_of h' E' = Some t'.
Proof.
  intros Ht Hinner Htag Hall Hattrs Hargs.
  apply obind_Ret in Hinner as (key & Hkey & Hin).
  destruct (mutate_returns h E t key fs tags attrs m Ht Hkey Hin Htag Hall
              Hattrs Hargs) as (t' & E' & h' & Hrun & Hpre & Ht').
  by exists E', h', t'.
Qed.

(** X12.  [createNodeElement] throws on a property without a value: for
    every [lat] and [lon] and every [properties] object with primitive
    values of which one is [undefined] or [null],
    [createNodeElement(lat, lon, properties)] throws. *)
Theorem createNodeElement_throws_on_nullish_value h lat lon properties
    tlat tlon fs :
  tree_of h lat = Some tlat →
  tree_of h lon = Some tlon →
  tree_of h properties = Some (TObject fs) →
  NoDup fs.*1 →
  Forall (λ f, ∃ p, f.2 = TPrim p) fs →
  Exists (λ f, f.2 = TPrim PUndefined ∨ f.2 = TPrim PNull) fs →
  createNodeElement dtoa lat lon properties h = Throw.
Proof.
  intros Hlat Hlon Hp Hnd Hprims Hnull. apply repr_tree_of in Hlat, Hlon, Hp.
  assert (properties ≠ undefined) as Hdef by (intros ->; inversion Hp).
  pose proof (createNodeElement_run dtoa h lat lon properties tlat tlon _
                Hlat Hlon Hp Hdef) as Hrun.
  assert (createNodeElement_tree dtoa tlat tlon (TObject fs) = Throw) as Htree;
    [|by rewrite Htree in Hrun].
  unfold createNodeElement_tree. cbn [tree_keys obind].
  assert (formatted_tags dtoa (TObject fs) fs.*1 = Throw) as ->; [|done].
  assert (∀ f, f ∈ fs → assoc f.1 fs = Some f.2) as Hget.
  { intros [k x] Hin. by apply assoc_NoDup. }
  unfold formatted_tags. apply mapM_o_Throw.
  - apply Forall_fmap, Forall_forall. intros f Hf. simpl.
    rewrite (Hget f Hf). simpl.
    rewrite Forall_forall in Hprims. destruct (Hprims f Hf) as [p ->].
    by destruct p as [| |[]|x|s'].
  - apply Exists_fmap, Exists_exists. apply Exists_exists in Hnull as (f & Hf & Hnull).
    exists f. split; [done|]. simpl. rewrite (Hget f Hf). simpl.
    by destruct Hnull as [->| ->].
Qed.

(** X14.  A created node can be handed to every mutator: for every [lat]
    and [lon] and every [properties] object whose values have string forms,
    [createNodeElement(lat, lon, properties)] returns an element on which
    each of the six mutators returns, given arguments that can be used. *)
Theorem created_node_accepts_mutators h lat lon properties tlat tlon tp kvs :
  tree_of h lat = Some tlat →
  tree_of h lon = Some tlon →
  tree_of h properties = Some tp →
  string_props dtoa tp kvs →
  ∃ E h1,
    createNodeElement dtoa lat lon properties h = Ret (E, h1) ∧
    ∀ m, args_convert dtoa h1 m →
         ∃ E' h' t',
           mutate dtoa m E h1 = Ret (E', h') ∧ h1 `prefix_of` h' ∧
           tree_of h' E' = Some t'.
Proof.
  intros Hlat Hlon Hp Hprops. apply repr_tree_of in Hlat, Hlon, Hp.
  assert (properties ≠ undefined) as Hdef.
  { intros ->. destruct Hprops as (fs & -> & _). inversion Hp. }
  pose proof (createNodeElement_run dtoa h lat lon properties tlat tlon tp
                Hlat Hlon Hp Hdef) as Hrun.
  destruct (formatted_tags_props dtoa _ _ Hprops) as [Hnames Hfmt].
  unfold createNodeElement_tree in Hrun. rewrite Hnames in Hrun.
  cbn [obind] in Hrun. rewrite Hfmt in Hrun.
  destruct Hrun as (ext & Hrun & Hr). apply repr_tree_of in Hr.
  eexists _, _. split; [exact Hrun|]. intros m Hargs.
  destruct (mutate_returns _ _ _ "node"
              [("$", TObject [("lat", tlat); ("lon", tlon)]);
               ("tag", TArray ((λ kv, tag_tree kv.1 kv.2) <$> kvs))]
              ((λ kv, tag_tree kv.1 kv.2) <$> kvs)
              [("lat", tlat); ("lon", tlon)] m Hr)
    as (t' & E' & h' & Hm & Hpre & Ht'); try done.
  - apply Forall_fmap, Forall_forall. intros kv _. apply tag_tree_readable.
  - by exists E', h', t'.
Qed.

End Returning.

(** ** The request methods *)

Section RequestFacts.

Context {Auth Response : Type}.
Variable defaultOptions : gmap string value.
Variable osmAuth : gmap string value → Auth.
Variable requests : Requests Auth Response.
Variable fetchNoteByIdRequest : value → value → value → Response.

(** [fetchElement] on an [options] argument of the caller's heap. *)
Lemma fetchElement_run this osmId options h :
  known (length h) options →
  fetchElement requests this osmId options h
  = Ret (if wants_full h options
         then fetchElementRequestFull requests (endpoint this) osmId
         else fetchElementRequest requests (endpoint this) osmId, h).
Proof.
  intros Hknown. unfold fetchElement, wants_full, bind.
  destruct options as [p|l].
  - destruct (truthy (VPrim p)) eqn:Htr.
    + destruct p as [| |b|x|s']; try done.
    + unfold ret. by rewrite Htr.
  - cbn [truthy]. simpl in Hknown. destruct (lookup_lt_is_Some_2 h l Hknown) as [c Hc].
    unfold getProp. rewrite Hc. by destruct (truthy (cell_get c "full")).
Qed.

(** C8.  For every configuration whose endpoint, after the options are
    merged over the defaults, is a URL [u] that ends in no slash followed
    by any number of slashes (none, one or more), the constructor returns
    an instance whose endpoint getter yields [u]: trailing slashes are
    stripped, an endpoint without them is kept.  That endpoint is what
    every request method of the instance, each of the twenty-one, hands to
    its request function, and what [osmAuth] is configured with. *)
Theorem endpoint_strips_trailing_slashes options u n :
  (options ∪ defaultOptions) !! "endpoint" = Some (VStr (u +:+ slashes n)) →
  ¬ ends_with_slash u →
  ∃ this,
    constructor defaultOptions options = Ret this ∧
    endpoint this = VStr u ∧
    _auth this !! "url" = Some (VStr u) ∧
    hands_endpoint osmAuth requests fetchNoteByIdRequest this (VStr u).
Proof.
  intros Hopt Hu.
  destruct (constructor_Ret defaultOptions _ _ Hopt) as (this & Hnew & Hend & Hauth).
  rewrite (removeTrailingSlashes_strips _ _ Hu) in Hend, Hauth.
  exists this. split; [done|]. split; [done|]. split; [done|].
  unfold hands_endpoint. rewrite <- Hend.
  repeat split; try done. intros osmId opts h Hknown. by apply fetchElement_run.
Qed.

(** X15.  No request method sees a trailing slash: for every configuration
    whose endpoint, after the options are merged over the defaults, is a URL
    [u] that ends in no slash followed by any number of slashes, the
    constructor returns an instance each of whose request methods hands [u]
    to its request function, with its arguments as given and the defaults of
    the parameters standing in for [undefined] only; the authenticated ones
    hand on [osmAuth] of a configuration whose [url] is [u].  [fetchElement]
    picks its request function by [options && options.full] and hands [u]
    to either. *)
Theorem request_methods_use_endpoint options u n :
  (options ∪ defaultOptions) !! "endpoint" = Some (VStr (u +:+ slashes n)) →
  ¬ ends_with_slash u →
  ∃ this,
    constructor defaultOptions options = Ret this ∧
    _auth this !! "url" = Some (VStr u) ∧
    (∀ l b r t lim cd,
       fetchNotes requests this l b r t lim cd
       = fetchNotesRequest requests (VStr u) l b r t
           (or_default (VPrim PNull) lim) (or_default (VPrim PNull) cd)) ∧
    (∀ q f lim c d us fr to,
       fetchNotesSearch requests this q f lim c d us fr to
       = fetchNotesSearchRequest requests (VStr u) q (or_default (VStr "xml") f)
           (or_default (VPrim PNull) lim) (or_default (VPrim PNull) c)
           (or_default (VPrim PNull) d) (or_default (VPrim PNull) us)
           (or_default (VPrim PNull) fr) (or_default (VPrim PNull) to)) ∧
    (∀ noteId format,
       fetchNote Response fetchNoteByIdRequest this noteId format
       = fetchNoteByIdRequest (VStr u) noteId (or_default (VStr "xml") format)) ∧
    (∀ osmId options h,
       known (length h) options →
       fetchElement requests this osmId options h
       = Ret (if wants_full h options
              then fetchElementRequestFull requests (VStr u) osmId
              else fetchElementRequest requests (VStr u) osmId, h)) ∧
    (∀ lat lon text,
       createNote osmAuth requests this lat lon text
       = createNoteRequest requests (osmAuth (_auth this)) (VStr u) lat lon text) ∧
    (∀ id text,
       commentNote osmAuth requests this id text
       = genericPostNoteRequest requests (osmAuth (_auth this)) (VStr u) id text
           (VStr "comment") ∧
       closeNote osmAuth requests this id text
       = genericPostNoteRequest requests (osmAuth (_auth this)) (VStr u) id text
           (VStr "close") ∧
       reopenNote osmAuth requests this id text
       = genericPostNoteRequest requests (osmAuth (_auth this)) (VStr u) id text
           (VStr "reopen")) ∧
    (∀ by_ comment,
       createChangeset osmAuth requests this by_ comment
       = createChangesetRequest requests (osmAuth (_auth this)) (VStr u)
           (or_default (VStr EmptyString) by_)
           (or_default (VStr EmptyString) comment)) ∧
    (∀ id object,
       isChangesetStillOpen osmAuth requests this id
       = changesetCheckRequest requests (osmAuth (_auth this)) (VStr u) id ∧
       updateChangesetTags osmAuth requests this id object
       = updateChangesetTagsRequest requests (osmAuth (_auth this)) (VStr u) id
           object) ∧
    (∀ osmId,
       fetchRelationsForElement requests this osmId
       = fetchRelationsForElementRequest requests (VStr u) osmId ∧
       fetchWaysForNode requests this osmId
       = fetchWaysForNodeRequest requests (VStr u) osmId) ∧
    (∀ element id,
       sendElement osmAuth requests this element id
       = sendElementRequest requests (osmAuth (_auth this)) (VStr u) element id ∧
       deleteElement osmAuth requests this element id
       = deleteElementRequest requests (osmAuth (_auth this)) (VStr u) element id) ∧
    (∀ l b r t,
       fetchMapByBbox requests this l b r t
       = fetchMapByBboxRequest requests (VStr u) l b r t) ∧
    (∀ key val,
       getUserPreferences osmAuth requests this
       = getUserPreferencesRequest requests (osmAuth (_auth this)) (VStr u) ∧
       setUserPreferences osmAuth requests this val
       = setUserPreferencesRequest requests (osmAuth (_auth this)) (VStr u) val ∧
       getUserPreferenceByKey osmAuth requests this key
       = getUserPreferenceByKeyRequest requests (osmAuth (_auth this)) (VStr u) key ∧
       setUserPreferenceByKey osmAuth requests this key val
       = setUserPreferenceByKeyRequest requests (osmAuth (_auth this)) (VStr u)
           key val ∧
       deleteUserPreference osmAuth requests this key
       = deleteUserPreferenceRequest requests (osmAuth (_auth this)) (VStr u) key).
Proof.
  intros Hopt Hu.
  destruct (constructor_Ret defaultOptions _ _ Hopt) as (this & Hnew & Hend & Hauth).
  rewrite (removeTrailingSlashes_strips _ _ Hu) in Hend, Hauth.
  exists this. split; [done|]. split; [done|].
  unfold fetchNotes, fetchNotesSearch, createNote, commentNote, closeNote,
    reopenNote, createChangeset, isChangesetStillOpen, updateChangesetTags,
    fetchRelationsForElement, fetchWaysForNode, sendElement, deleteElement,
    fetchMapByBbox, getUserPreferences, setUserPreferences,
    getUserPreferenceByKey, setUserPreferenceByKey, deleteUserPreference, auth,
    fetchNote.
  rewrite <- Hend. repeat split. intros osmId opts h Hknown.
  by apply fetchElement_run.
Qed.

(** X16.  [fetchElement] reads its options safely: for every instance,
    identifier and [options] argument of the caller's heap, [fetchElement]
    does not throw and leaves the heap as it is; it sends the full request
    when [options] is an object whose [full] property is truthy, and the
    plain request otherwise: without options, with [null], with any other
    primitive, with an object without [full]. *)
Theorem fetchElement_reads_options this osmId options h :
  known (length h) options →
  fetchElement requests this osmId options h
  = Ret (if wants_full h options
         then fetchElementRequestFull requests (endpoint this) osmId
         else fetchElementRequest requests (endpoint this) osmId, h).
Proof.
  intros Hknown. unfold fetchElement, wants_full, bind.
  destruct options as [p|l].
  - destruct (truthy (VPrim p)) eqn:Htr.
    + destruct p as [| |b|x|s']; try done.
    + unfold ret. by rewrite Htr.
  - cbn [truthy]. simpl in Hknown. destruct (lookup_lt_is_Some_2 h l Hknown) as [c Hc].
    unfold getProp. rewrite Hc. by destruct (truthy (cell_get c "full")).
Qed.

(** X17.  The options are merged over the defaults: when the merged
    endpoint is a string, the constructor returns an instance that keeps,
    under every name but [endpoint], the caller's option when there is one
    and the default otherwise, and that configures [osmAuth] with the OAuth
    credentials so merged. *)
Theorem constructor_merges_options options url :
  (options ∪ defaultOptions) !! "endpoint" = Some (VStr url) →
  ∃ this,
    constructor defaultOptions options = Ret this ∧
    (∀ k, k ≠ "endpoint" →
          _options this !! k
          = match options !! k with
            | Some v => Some v
            | None => defaultOptions !! k
            end) ∧
    _auth this !! "oauth_consumer_key"
    = Some (option_of (options ∪ defaultOptions) "oauthConsumerKey") ∧
    _auth this !! "oauth_secret"
    = Some (option_of (options ∪ defaultOptions) "oauthSecret") ∧
    _auth this !! "oauth_token"
    = Some (option_of (options ∪ defaultOptions) "oauthUserToken") ∧
    _auth this !! "oauth_token_secret"
    = Some (option_of (options ∪ defaultOptions) "oauthUserTokenSecret").
Proof.
  intros Hopt. unfold constructor. unfold option_of at 1. rewrite Hopt. simpl.
  eexists. split; [done|]. simpl. split.
  - intros k Hk. rewrite lookup_insert_ne by done. rewrite lookup_union.
    destruct (options !! k) as [v|]; [|by rewrite (left_id None _)].
    by destruct (defaultOptions !! k).
  - unfold option_of. repeat split; by simplify_map_eq.
Qed.

End RequestFacts.

(** ** Runs of the further properties *)

Lemma shop_properties_strings :
  string_props integer_digits shop_properties [("amenity", "cafe"); ("name", "Bar")].
Proof.
  exists [("amenity", TStr "cafe"); ("name", TStr "Bar")]. split; [done|]. split.
  - apply NoDup_cons. split; [|apply NoDup_singleton].
    by intros ?%list_elem_of_singleton.
  - repeat constructor.
Qed.

Lemma setProperties_sets_tags_witness :
  ∃ t' tags',
    returns (setProperties integer_digits cafe (VRef 11)) shop_heap t' ∧
    element_tags integer_digits t' = Some tags' ∧
    tags' = filter (λ tg, tag_key_in ["amenity"; "name"] tg = false) cafe_tags
            ++ [tag_tree "amenity" "cafe"; tag_tree "name" "Bar"] ∧
    (∀ k v, (k, v) ∈ [("amenity", "cafe"); ("name", "Bar")] →
            filter (λ tg, tag_has_key (VStr k) tg = true) tags' = [tag_tree k v]) ∧
    (∀ k : string, k ∉ ["amenity"; "name"] →
            filter (λ tg, tag_has_key (VStr k) tg = true) tags'
            = filter (λ tg, tag_has_key (VStr k) tg = true) cafe_tags).
Proof.
  apply (setProperties_sets_tags integer_digits shop_heap cafe cafe_tree cafe_tags
           (VRef 11) shop_properties [("amenity", "cafe"); ("name", "Bar")]);
    [vm_compute; reflexivity | vm_compute; reflexivity | apply cafe_tags_readable
    | vm_compute; reflexivity | apply shop_properties_strings].
Defined.

Lemma setProperties_as_setProperty_each_witness :
  ∃ t',
    returns (setProperties integer_digits cafe (VRef 11)) shop_heap t' ∧
    returns (setProperty_each integer_digits cafe
               [("amenity", "cafe"); ("name", "Bar")]) shop_heap t'.
Proof.
  apply (setProperties_as_setProperty_each integer_digits shop_heap cafe cafe_tree
           cafe_tags (VRef 11) shop_properties ("amenity", "cafe") [("name", "Bar")]);
    [vm_compute; reflexivity | vm_compute; reflexivity | apply cafe_tags_readable
    | vm_compute; reflexivity | apply shop_properties_strings].
Defined.

Lemma setProperty_last_wins_witness :
  ∃ t',
    returns (let! E1 := setProperty integer_digits cafe (VStr "name") (VStr "Bar") in
             setProperty integer_digits E1 (VStr "name") (VStr "Pub")) cafe_heap t' ∧
    returns (setProperty integer_digits cafe (VStr "name") (VStr "Pub")) cafe_heap t' ∧
    element_tags integer_digits t'
    = Some (filter (λ tg, tag_has_key (VStr "name") tg = false) cafe_tags
            ++ [tag_tree "name" "Pub"]).
Proof.
  apply (setProperty_last_wins integer_digits cafe_heap cafe cafe_tree cafe_tags
           (VStr "name") (VStr "Bar") (VStr "Pub") "name" "Bar" "Pub");
    [vm_compute; reflexivity | vm_compute; reflexivity | apply cafe_tags_readable
    | reflexivity..].
Defined.

Lemma removeProperty_absent_key_copies_witness :
  returns (removeProperty integer_digits cafe (VStr "shop")) cafe_heap cafe_tree.
Proof.
  apply (removeProperty_absent_key_copies integer_digits cafe_heap cafe cafe_tree
           cafe_inner_fields cafe_tags (VStr "shop"));
    [vm_compute; reflexivity | vm_compute; reflexivity | reflexivity
    | apply cafe_tags_readable | by repeat constructor | exact I].
Defined.

Lemma removeProperty_commutes_witness :
  ∃ t',
    returns (let! E1 := removeProperty integer_digits cafe (VStr "name") in
             removeProperty integer_digits E1 (VStr "shop")) cafe_heap t' ∧
    returns (let! E1 := removeProperty integer_digits cafe (VStr "shop") in
             removeProperty integer_digits E1 (VStr "name")) cafe_heap t' ∧
    element_tags integer_digits t'
    = Some (filter (λ tg, tag_has_key (VStr "shop") tg = false)
              (filter (λ tg, tag_has_key (VStr "name") tg = false) cafe_tags)).
Proof.
  apply (removeProperty_commutes integer_digits cafe_heap cafe cafe_tree
           cafe_inner_fields cafe_tags (VStr "name") (VStr "shop"));
    [vm_compute; reflexivity | vm_compute; reflexivity | reflexivity
    | apply cafe_tags_readable | exact I | exact I].
Defined.

Lemma setProperty_after_removeProperty_witness :
  ∃ t',
    returns (let! E1 := removeProperty integer_digits cafe (VStr "name") in
             setProperty integer_digits E1 (VStr "name") (VStr "Bar")) cafe_heap t' ∧
    returns (setProperty integer_digits cafe (VStr "name") (VStr "Bar")) cafe_heap t' ∧
    element_tags integer_digits t'
    = Some (filter (λ tg, tag_has_key (VStr "name") tg = false) cafe_tags
            ++ [tag_tree "name" "Bar"]).
Proof.
  apply (setProperty_after_removeProperty integer_digits cafe_heap cafe cafe_tree
           cafe_inner_fields cafe_tags "name" (VStr "Bar") "Bar");
    [vm_compute; reflexivity | vm_compute; reflexivity | reflexivity
    | apply cafe_tags_readable | reflexivity].
Defined.

Lemma mutators_throw_without_inner_witness :
  mutate integer_digits (SetVersion (VStr "2")) (VRef 0) typed_heap = Throw.
Proof.
  apply (mutators_throw_without_inner integer_digits (SetVersion (VStr "2"))
           typed_heap (VRef 0) (TObject [("_type", TStr "node")]));
    [vm_compute; reflexivity | exact I | exact I | exact I].
Defined.

Lemma nullish_arguments_witness :
  (∀ n v, nullish n → setProperty integer_digits cafe n v cafe_heap = Throw) ∧
  (∀ n v k, toString integer_digits n = Ret k → nullish v →
            setProperty integer_digits cafe n v cafe_heap = Throw) ∧
  (∀ lat lon, nullish lat →
              setCoordinates integer_digits cafe lat lon cafe_heap = Throw) ∧
  (∀ lat lon la, toString integer_digits lat = Ret la → nullish lon →
                 setCoordinates integer_digits cafe lat lon cafe_heap = Throw) ∧
  (∀ version, nullish version →
              ∃ t', returns (setVersion integer_digits cafe version) cafe_heap t' ∧
                    element_version integer_digits t' = Ret (TStr "NaN")).
Proof.
  apply (nullish_arguments integer_digits cafe_heap cafe cafe_tree cafe_tags
           cafe_attrs_fields);
    [vm_compute; reflexivity | vm_compute; reflexivity | apply cafe_tags_readable
    | vm_compute; reflexivity].
Defined.

Lemma setCoordinates_stores_strings_witness :
  ∃ t' attrs',
    returns (setCoordinates integer_digits cafe (VPrim (PNum 49%float))
               (VPrim (PNum 3%float))) cafe_heap t' ∧
    element_attrs integer_digits t' = Ret (TObject attrs') ∧
    assoc "lat" attrs' = Some (TStr "49") ∧
    assoc "lon" attrs' = Some (TStr "3") ∧
    ∀ a, a ≠ "lat" → a ≠ "lon" → assoc a attrs' = assoc a cafe_attrs_fields.
Proof.
  apply (setCoordinates_stores_strings integer_digits cafe_heap cafe cafe_tree
           cafe_attrs_fields (VPrim (PNum 49%float)) (VPrim (PNum 3%float)) "49" "3");
    vm_compute; reflexivity.
Defined.

Lemma attribute_mutators_overwrite_witness :
  ∃ t',
    returns (let! E1 := setTimestampToNow integer_digits "2026-01-01T00:00:00Z" cafe in
             setTimestampToNow integer_digits "2026-01-02T00:00:00Z" E1) cafe_heap t' ∧
    returns (setTimestampToNow integer_digits "2026-01-02T00:00:00Z" cafe) cafe_heap t'.
Proof.
  destruct (attribute_mutators_overwrite integer_digits cafe_heap cafe cafe_tree
              cafe_attrs_fields
              ltac:(vm_compute; reflexivity) ltac:(vm_compute; reflexivity))
    as (_ & _ & Hstamp).
  exact (Hstamp "2026-01-01T00:00:00Z" "2026-01-02T00:00:00Z").
Defined.

Lemma setTimestampToNow_stamps_witness :
  ∃ t' attrs',
    returns (setTimestampToNow integer_digits "2026-01-01T00:00:00Z" cafe)
      cafe_heap t' ∧
    element_attrs integer_digits t' = Ret (TObject attrs') ∧
    assoc "timestamp" attrs' = Some (TStr "2026-01-01T00:00:00Z") ∧
    (∀ a, a ≠ "timestamp" → assoc a attrs' = assoc a cafe_attrs_fields) ∧
    element_tag_field integer_digits t' = element_tag_field integer_digits cafe_tree ∧
    element_tags integer_digits t' = element_tags integer_digits cafe_tree.
Proof.
  apply (setTimestampToNow_stamps integer_digits cafe_heap cafe cafe_tree
           cafe_attrs_fields "2026-01-01T00:00:00Z");
    vm_compute; reflexivity.
Defined.

Lemma createNodeElement_throws_on_nullish_value_witness :
  createNodeElement integer_digits (VPrim (PNum 48.8%float))
    (VPrim (PNum 2.3%float)) (VRef 0) null_properties = Throw.
Proof.
  apply (createNodeElement_throws_on_nullish_value integer_digits null_properties
           (VPrim (PNum 48.8%float)) (VPrim (PNum 2.3%float)) (VRef 0)
           (TPrim (PNum 48.8%float)) (TPrim (PNum 2.3%float))
           [("name", TPrim PNull)]);
    [reflexivity | reflexivity | vm_compute; reflexivity | apply NoDup_singleton
    | repeat constructor; by eexists | constructor; by right].
Defined.

Lemma mutators_return_on_elements_witness :
  ∃ E' h' t',
    mutate integer_digits (RemoveProperty (VStr "name")) cafe cafe_heap
    = Ret (E', h') ∧ cafe_heap `prefix_of` h' ∧ tree_of h' E' = Some t'.
Proof.
  apply (mutators_return_on_elements integer_digits cafe_heap cafe cafe_tree
           cafe_inner_fields cafe_tags cafe_attrs_fields
           (RemoveProperty (VStr "name")));
    [vm_compute; reflexivity | vm_compute; reflexivity | reflexivity
    | apply cafe_tags_readable | reflexivity | exact I].
Defined.

Lemma created_node_accepts_mutators_witness :
  ∃ E h1,
    createNodeElement integer_digits (VPrim (PNum 48.8%float))
      (VPrim (PNum 2.3%float)) (VRef 0) cafe_properties = Ret (E, h1) ∧
    ∀ m, args_convert integer_digits h1 m →
         ∃ E' h' t',
           mutate integer_digits m E h1 = Ret (E', h') ∧ h1 `prefix_of` h' ∧
           tree_of h' E' = Some t'.
Proof.
  apply (created_node_accepts_mutators integer_digits cafe_properties
           (VPrim (PNum 48.8%float)) (VPrim (PNum 2.3%float)) (VRef 0)
           (TPrim (PNum 48.8%float)) (TPrim (PNum 2.3%float))
           (TObject [("name", TStr "Cafe")]) [("name", "Cafe")]);
    [reflexivity | reflexivity | vm_compute; reflexivity |].
  exists [("name", TStr "Cafe")]. split; [done|]. split.
  - apply NoDup_singleton.
  - repeat constructor.
Defined.

Lemma example_endpoint_slash :
  ¬ ends_with_slash "https://api.example.org/api/0.6".
Proof.
  intros (c & Hc & ->)%ends_with_slash_last. vm_compute in Hc. discriminate.
Qed.

Lemma request_methods_use_endpoint_witness :
  ∃ this,
    constructor ∅ example_options = Ret this ∧
    _auth this !! "url" = Some (VStr "https://api.example.org/api/0.6") ∧
    (∀ noteId format,
       fetchNote (value * value) (λ e _ _, (undefined, e)) this noteId format
       = (undefined, VStr "https://api.example.org/api/0.6")) ∧
    fetchElement echo_requests this (VStr "node/1") (VRef 0) full_options
    = Ret ((VStr "full", VStr "https://api.example.org/api/0.6"), full_options) ∧
    (∀ lat lon text,
       createNote id echo_requests this lat lon text
       = (VStr "https://api.example.org/api/0.6",
          VStr "https://api.example.org/api/0.6")) ∧
    (∀ l b r t,
       fetchMapByBbox echo_requests this l b r t
       = (undefined, VStr "https://api.example.org/api/0.6")).
Proof.
  destruct (request_methods_use_endpoint ∅ id echo_requests (λ e _ _, (undefined, e))
              example_options "https://api.example.org/api/0.6" 1)
    as (this & Hnew & Hurl & _ & _ & Hfetch & Helement & Hnote & _ & _ & _ & _ & _
        & Hmap & _).
  - rewrite lookup_union_l by apply lookup_empty. apply lookup_singleton_eq.
  - apply example_endpoint_slash.
  - exists this. split; [done|]. split; [done|]. split; [|split; [|split]].
    + intros noteId format. by rewrite Hfetch.
    + rewrite Helement by (simpl; lia). reflexivity.
    + intros lat lon text. rewrite Hnote. simpl. unfold echo_url. by rewrite Hurl.
    + intros l b r t. by rewrite Hmap.
Defined.

Lemma endpoint_strips_trailing_slashes_witness :
  ∃ this,
    constructor ∅ example_options = Ret this ∧
    endpoint this = VStr "https://api.example.org/api/0.6" ∧
    _auth this !! "url" = Some (VStr "https://api.example.org/api/0.6") ∧
    hands_endpoint id echo_requests (λ e _ _, (undefined, e)) this
      (VStr "https://api.example.org/api/0.6") ∧
    (∀ element changesetId,
       sendElement id echo_requests this element changesetId
       = (VStr "https://api.example.org/api/0.6",
          VStr "https://api.example.org/api/0.6")).
Proof.
  destruct (endpoint_strips_trailing_slashes ∅ id echo_requests
              (λ e _ _, (undefined, e)) example_options
              "https://api.example.org/api/0.6" 1)
    as (this & Hnew & Hend & Hurl & Hhands).
  - rewrite lookup_union_l by apply lookup_empty. apply lookup_singleton_eq.
  - apply example_endpoint_slash.
  - exists this. split; [done|]. split; [done|]. split; [done|]. split; [done|].
    destruct Hhands as (_ & _ & _ & _ & _ & _ & _ & _ & _ & _ & _ & _ & _ & Hsend & _).
    intros element changesetId. rewrite Hsend.
    simpl. unfold echo_url, auth, id. by rewrite Hurl.
Defined.

Lemma fetchElement_reads_options_witness :
  fetchElement echo_requests {| _options := example_options; _auth := ∅ |}
    (VStr "node/1") (VRef 0) full_options
  = Ret ((VStr "full", VStr "https://api.example.org/api/0.6/"), full_options).
Proof.
  rewrite (fetchElement_reads_options echo_requests
             {| _options := example_options; _auth := ∅ |}
             (VStr "node/1") (VRef 0) full_options); [|simpl; lia].
  reflexivity.
Defined.

Lemma constructor_merges_options_witness :
  ∃ this,
    constructor {[ "oauthSecret" := VStr "default" ]}
      (<["oauthConsumerKey" := VStr "key"]> example_options) = Ret this ∧
    _options this !! "oauthConsumerKey" = Some (VStr "key") ∧
    _options this !! "oauthSecret" = Some (VStr "default") ∧
    _auth this !! "oauth_consumer_key" = Some (VStr "key") ∧
    _auth this !! "oauth_secret" = Some (VStr "default").
Proof.
  destruct (constructor_merges_options {[ "oauthSecret" := VStr "default" ]}
              (<["oauthConsumerKey" := VStr "key"]> example_options)
              "https://api.example.org/api/0.6/")
    as (this & Hnew & Hopts & Hkey & Hsecret & _).
  - by vm_compute.
  - exists this. split; [done|].
    rewrite (Hopts "oauthConsumerKey"), (Hopts "oauthSecret") by done.
    rewrite Hkey, Hsecret. by vm_compute.
Defined.

(** ** What a created node is made of *)

Lemma closed_self (h : heap) : closed (length h) h.
Proof. intros l c Hl Hc. apply lookup_lt_Some in Hc. lia. Qed.

Section Created.

Variable dtoa : float → string.

(** The cells of a created node refer to one another only, when the
    coordinates are no references into the caller's heap. *)
Lemma createNodeElement_closed h lat lon props tp names ts :
  repr h props tp → props ≠ undefined →
  fresh (length h) lat → fresh (length h) lon →
  tree_keys tp = Ret names →
  formatted_tags dtoa tp names = Ret ts →
  ∃ ext,
    createNodeElement dtoa lat lon props h = Ret (VRef (length h + 6), h ++ ext) ∧
    closed (length h) (h ++ ext).
Proof.
  intros Hprops Hne Hlat Hlon Hnames Hts. unfold createNodeElement.
  assert ((match props with VPrim PUndefined => alloc (CObject []) | _ => ret props end)
          = ret props) as ->.
  { destruct props as [[]|]; done. }
  rewrite (bind_Ret _ _ _ props h) by done.
  rewrite (bind_Ret _ _ _ (VRef (length h)) (h ++ [CObject []])) by done.
  repeat (rewrite (bind_Ret _ _ _ _ _ (alloc_app _ _ _)); cbn [length app]).
  rewrite (bind_Ret _ _ _ (VRef (length h + 5)) _) by (by rewrite getProp_app).
  rewrite (bind_Ret _ _ _ (VRef (length h + 4)) _) by (by rewrite getProp_app).
  rewrite (bind_Ret _ _ _ (VRef (length h + 3)) _) by (by rewrite getProp_app).
  set (l := [CObject []; _; _; _; _; _; _]). set (ha := h ++ l).
  assert (length ha = length h + 7) as Hlen by (unfold ha; by rewrite length_app).
  assert (closed (length h) ha) as Hcla.
  { unfold ha, l.
    change [CObject []; CObject [("lat", lat); ("lon", lon)]; CArray [];
            CObject [("$", VRef (length h + 1)); ("tag", VRef (length h + 2))];
            CArray [VRef (length h + 3)];
            CObject [("$", VRef (length h)); ("node", VRef (length h + 4))];
            CObject [("osm", VRef (length h + 5)); ("_type", VStr "node")]]
      with ([CObject []] ++ [CObject [("lat", lat); ("lon", lon)]] ++ [CArray []]
            ++ [CObject [("$", VRef (length h + 1)); ("tag", VRef (length h + 2))]]
            ++ [CArray [VRef (length h + 3)]]
            ++ [CObject [("$", VRef (length h)); ("node", VRef (length h + 4))]]
            ++ [CObject [("osm", VRef (length h + 5)); ("_type", VStr "node")]]).
    rewrite !app_assoc.
    repeat (apply closed_app; [|repeat constructor; simpl; done || lia]).
    apply closed_self. }
  pose proof (repr_keys_sim ha props tp (repr_ext _ _ _ _ Hprops)) as Hkeys.
  rewrite Hnames in Hkeys. destruct Hkeys as (names' & Hkeys & ->).
  rewrite (bind_Ret _ _ _ _ _ Hkeys).
  pose proof (formatted_sim dtoa (length h) ha props tp names
                (repr_ext _ _ _ _ Hprops) Hcla ltac:(lia)) as Hfm.
  rewrite Hts in Hfm. destruct Hfm as (fv & ext & Hfm & Hclx & Hfts).
  rewrite (bind_Ret _ _ _ _ _ Hfm).
  rewrite (bind_Ret _ _ _ (VRef (length (ha ++ ext))) ((ha ++ ext) ++ [CArray fv]))
    by done.
  assert (((ha ++ ext) ++ [CArray fv]) !! (length h + 3)
          = Some (CObject [("$", VRef (length h + 1)); ("tag", VRef (length h + 2))]))
    as Hnode.
  { unfold ha. rewrite <- !app_assoc. by rewrite lookup_app_add. }
  rewrite (bind_Ret _ _ _ _ _ (setProp_object _ _ _ _ _ Hnode)). unfold ret.
  set (hf := <[_ := _]> _).
  assert (∃ rest, hf = h ++ rest) as [rest Hrest].
  { unfold hf, ha. rewrite <- !app_assoc. rewrite insert_app_r_alt by lia.
    by eexists. }
  exists rest. rewrite <- Hrest. split; [done|].
  unfold hf. apply closed_insert.
  - apply closed_app; [done|]. simpl.
    eapply Forall2_Forall_l; [exact Hfts|]. apply Forall_true.
    intros v t (a & b & Hv & Ha & _). eapply laid_fresh; [exact Hv|]. lia.
  - cbn [set_field]. rewrite decide_False by done. cbn [set_field].
    rewrite decide_True by done. simpl.
    apply Forall_cons. split; [simpl; lia|].
    apply Forall_cons. split; [|done]. simpl. rewrite length_app. lia.
Qed.

(** X18.  A created node shares nothing with the caller: for primitive
    [lat] and [lon] and every [properties] object whose values have string
    forms, every cell reachable from the element that
    [createNodeElement(lat, lon, properties)] returns is new, and none is
    reachable from [properties]: the element keeps no reference to it. *)
Theorem createNodeElement_shares_nothing h (lat lon : prim) properties tp kvs :
  tree_of h properties = Some tp →
  string_props dtoa tp kvs →
  ∃ E' h',
    createNodeElement dtoa (VPrim lat) (VPrim lon) properties h = Ret (E', h') ∧
    h `prefix_of` h' ∧
    ∀ l, reach h' E' l → length h ≤ l ∧ ¬ reach h' properties l.
Proof.
  intros Hp Hprops. apply repr_tree_of in Hp.
  assert (properties ≠ undefined) as Hdef.
  { intros ->. destruct Hprops as (fs & -> & _). inversion Hp. }
  destruct (formatted_tags_props dtoa _ _ Hprops) as [Hnames Hfmt].
  destruct (createNodeElement_closed h (VPrim lat) (VPrim lon) properties tp _ _
              Hp Hdef I I Hnames Hfmt) as (ext & Hrun & Hcl).
  eexists _, _. split; [exact Hrun|]. split; [by apply prefix_app_r|].
  intros l Hl.
  assert (length h ≤ l) as Hle.
  { eapply closed_reach; [exact Hcl| |exact Hl]. simpl. lia. }
  split; [done|]. intros Hl'.
  pose proof (repr_reach _ _ _ _ _ Hp Hl'). lia.
Qed.

End Created.

Lemma createNodeElement_shares_nothing_witness :
  ∃ E' h',
    createNodeElement integer_digits (VPrim (PNum 48.8%float))
      (VPrim (PNum 2.3%float)) (VRef 0) cafe_properties = Ret (E', h') ∧
    cafe_properties `prefix_of` h' ∧
    ∀ l, reach h' E' l → length cafe_properties ≤ l ∧ ¬ reach h' (VRef 0) l.
Proof.
  apply (createNodeElement_shares_nothing integer_digits cafe_properties
           (PNum 48.8%float) (PNum 2.3%float) (VRef 0)
           (TObject [("name", TStr "Cafe")]) [("name", "Cafe")]);
    [vm_compute; reflexivity|].
  exists [("name", TStr "Cafe")]. split; [done|]. split.
  - apply NoDup_singleton.
  - repeat constructor.
Defined.

(** ** removeProperty on its own *)

Section Removing.

Variable dtoa : float → string.

(** The attributes of a document whose tag array was written. *)
Lemma element_attrs_put_tags t key fs tags :
  element_key dtoa t = Ret key →
  tree_get_path t (inner_path key) = Ret (TObject fs) →
  element_attrs dtoa
    (tree_put_path t (inner_path key) (TObject (set_field "tag" (TArray tags) fs)))
  = element_attrs dtoa t.
Proof.
  intros Hkey Hin. unfold element_attrs.
  unfold inner_path at 1. rewrite element_key_put, Hkey. cbn [obind].
  change (attrs_path key) with (inner_path key ++ ["$"]).
  rewrite !tree_get_path_app, Hin.
  rewrite (tree_get_put_path _ _ _ _ Hin I). simpl.
  by rewrite assoc_set_field, decide_False.
Qed.

(** X19.  [removeProperty] drops the tags with the name as key and nothing
    else: for every element with a tag array of readable tags and every
    name [n], [removeProperty(E, n)] returns an element whose tags are the
    tags of [E] whose key is not strictly equal to [n], in their order, and
    whose attributes are those of [E]. *)
Theorem removeProperty_removes_tags h E t fs tags n :
  tree_of h E = Some t →
  element_inner dtoa t = Ret (TObject fs) →
  assoc "tag" fs = Some (TArray tags) →
  Forall tag_readable tags →
  known (length h) n →
  ∃ t' tags',
    returns (removeProperty dtoa E n) h t' ∧
    element_tags dtoa t' = Some tags' ∧
    tags' = filter (λ tg, tag_has_key n tg = false) tags ∧
    Forall (λ tg, tag_has_key n tg = false) tags' ∧
    element_attrs dtoa t' = element_attrs dtoa t.
Proof.
  intros Ht Hinner Htag Hall Hn.
  apply obind_Ret in Hinner as (key & Hkey & Hin).
  eexists _, _. split; [by eapply removeProperty_returns|].
  split; [by eapply element_tags_put|]. split; [done|]. split.
  - apply Forall_forall. intros tg Htg. by apply list_elem_of_filter in Htg as [? _].
  - by apply element_attrs_put_tags.
Qed.

End Removing.

Lemma removeProperty_removes_tags_witness :
  ∃ t' tags',
    returns (removeProperty integer_digits cafe (VStr "name")) cafe_heap t' ∧
    element_tags integer_digits t' = Some tags' ∧
    tags' = filter (λ tg, tag_has_key (VStr "name") tg = false) cafe_tags ∧
    Forall (λ tg, tag_has_key (VStr "name") tg = false) tags' ∧
    element_attrs integer_digits t' = element_attrs integer_digits cafe_tree.
Proof.
  apply (removeProperty_removes_tags integer_digits cafe_heap cafe cafe_tree
           cafe_inner_fields cafe_tags (VStr "name"));
    [vm_compute; reflexivity | vm_compute; reflexivity | reflexivity
    | apply cafe_tags_readable | exact I].
Defined.
